(** * AgileMate: the anonymous vote command (poll sessions)

    A shallow embedding of the poll file of the bot (the [vote] and
    [endpoll] commands, the button collector and [endPoll]) and the
    properties of the poll session engine stated over it.

    The bot runs on a single-threaded event loop.  An [async] function
    runs without interruption up to its next [await] of a platform call
    and is resumed later, after any number of other events.  Each function
    of the source is therefore cut at its [await]s into segments; a
    segment is a function on the state of the process, and the event loop
    picks the next event or the next suspended function to resume.

    Platform calls (posting, editing, replying) are taken to succeed; what
    they send is appended to a log. *)

From Stdlib Require Import ZArith Ascii String.
From stdpp Require Import gmap strings list fin_maps fin_sets.

Open Scope string_scope.
Open Scope list_scope.
Open Scope nat_scope.
Open Scope stdpp_scope.

(** ** JavaScript numbers held in the [voteCounts] array *)

Module Js.

(** The values that [voteCounts] and [maxVotes] can take: a count, [NaN]
    (from incrementing [undefined]) and [-Infinity] ([Math.max] of no
    argument). *)
Inductive num :=
| Num (n : nat)
| NaN
| NegInfinity.

#[global] Instance num_eq_dec : EqDecision num.
Proof. solve_decision. Defined.

(** [x++] on a stored value. *)
Definition incr (x : num) : num :=
  match x with
  | Num n => Num (S n)
  | NaN => NaN
  | NegInfinity => NegInfinity
  end.

(** [a[idx]++].  Inside the array the slot is incremented.  Outside it,
    [a[idx]] reads [undefined], whose increment is [NaN]; the assignment
    extends the array up to [idx], leaving holes.  A hole reads as
    [undefined], which [Math.max] converts to [NaN], and nothing else reads
    a hole (holes lie beyond [options.length]); a hole is written [NaN]. *)
Definition incr_at (idx : nat) (a : list num) : list num :=
  if decide (idx < length a) then alter incr idx a
  else a ++ replicate (idx - length a) NaN ++ [NaN].

Definition max2 (x y : num) : num :=
  match x, y with
  | NaN, _ | _, NaN => NaN
  | NegInfinity, z | z, NegInfinity => z
  | Num a, Num b => Num (a `max` b)
  end.

(** [Math.max(...a)] *)
Definition Math_max (a : list num) : num := foldr max2 NegInfinity a.

(** [x === y] on numbers *)
Definition strict_eq (x y : num) : bool :=
  match x, y with
  | Num a, Num b => bool_decide (a = b)
  | NegInfinity, NegInfinity => true
  | _, _ => false
  end.

(** [x > 0] *)
Definition gt0 (x : num) : bool :=
  match x with
  | Num n => bool_decide (0 < n)
  | _ => false
  end.

End Js.

(** ** Data model *)

(** The timer behind the handle kept in [timeout]. *)
Inductive Timer :=
| Armed (delay : Z)
| Fired
| Cleared.

#[global] Instance Timer_eq_dec : EqDecision Timer.
Proof. solve_decision. Defined.

(** An entry of [activePolls], with the run-time companions that the same
    call of [execute] creates and that its closures capture: the collector,
    the bucket [serverPolls] and the guild. *)
Record Poll := mkPoll {
  message : string;               (* the poll message; its id is the poll id *)
  timeout : Timer;
  options : list string;
  votes : gmap string nat;        (* user id -> option index *)
  eligibleVoters : gset string;
  collecting : bool;              (* the collector still listens *)
  serverPolls : nat;              (* the bucket captured by the closures *)
  guildId : string;
}.

(** How a poll ended, as [endPoll] words it. *)
Inductive Outcome :=
| Winner (label : string) (maxVotes : Js.num)
| TieBetween (labels : list string) (maxVotes : Js.num)
| NoVotesCast.

(** The pieces that [endPoll] concatenates into its results message. *)
Record Results := mkResults {
  lines : list (string * Js.num);          (* option: count votes *)
  outcome : Outcome;
  participation : option (nat * nat);      (* voted / eligible *)
}.

#[global] Instance Outcome_eq_dec : EqDecision Outcome.
Proof. solve_decision. Defined.
#[global] Instance Results_eq_dec : EqDecision Results.
Proof. solve_decision. Defined.

(** ** The result compiler (the body of [endPoll], lines 691-721) *)

(** [Array(options.length).fill(0)] then [votes.forEach(i => voteCounts[i]++)].
    A [Map] is visited in insertion order; the increments commute, so the
    entries are taken in the order of [map_to_list]. *)
Definition counted (n : nat) (entries : list (string * nat)) : list Js.num :=
  foldr (λ kv a, Js.incr_at kv.2 a) (replicate n (Js.Num 0)) entries.

Definition voteCounts (opts : list string) (vs : gmap string nat) : list Js.num :=
  counted (length opts) (map_to_list vs).

(** [voteCounts[index]] for [index < options.length] (the array is never
    shorter than [options]). *)
Definition count_at (counts : list Js.num) (index : nat) : Js.num :=
  default Js.NaN (counts !! index).

(** [options.filter((_, index) => voteCounts[index] === maxVotes)] *)
Definition winners (opts : list string) (counts : list Js.num) (maxVotes : Js.num)
  : list string :=
  (filter (λ io, Js.strict_eq (count_at counts io.1) maxVotes = true)
          (imap pair opts)).*2.

Definition compile (opts : list string) (vs : gmap string nat)
    (eligible : gset string) : Results :=
  let counts := voteCounts opts vs in
  let maxVotes := Js.Math_max counts in
  let ws := winners opts counts maxVotes in
  {| lines := imap (λ index o, (o, count_at counts index)) opts;
     outcome :=
       if Js.gt0 maxVotes then
         if bool_decide (length ws = 1) then Winner (default "" (head ws)) maxVotes
         else TieBetween ws maxVotes
       else NoVotesCast;
     participation :=
       if bool_decide (0 < size eligible) then Some (size vs, size eligible)
       else None |}.

(** ** The arguments of the [vote] command *)

(** [s.split(',')] *)
Fixpoint split_commas (s : string) : list string :=
  match s with
  | EmptyString => [""]
  | String c r =>
      if bool_decide (c = ","%char) then "" :: split_commas r
      else match split_commas r with
           | [] => [String c ""]
           | piece :: pieces => String c piece :: pieces
           end
  end.

(** The white space that [trim] removes, among the characters of a byte
    string: space, tab, line feed, vertical tab, form feed, carriage
    return. *)
Definition is_space (c : ascii) : bool :=
  let n := nat_of_ascii c in
  bool_decide (n = 32%nat) || (bool_decide (9 ≤ n)%nat && bool_decide (n ≤ 13)%nat).

Fixpoint trimStart (s : string) : string :=
  match s with
  | EmptyString => ""
  | String c r => if is_space c then trimStart r else s
  end.

Fixpoint trimEnd (s : string) : string :=
  match s with
  | EmptyString => ""
  | String c r =>
      match trimEnd r with
      | EmptyString => if is_space c then "" else String c ""
      | r' => String c r'
      end
  end.

Definition trim (s : string) : string := trimEnd (trimStart s).

(** [getString('options').split(',').map(opt => opt.trim())] *)
Definition parse_options (arg : string) : list string := trim <$> split_commas arg.

(** ** The platform *)

(** A guild member as [execute] looks at it. *)
Record Member := mkMember {
  member_id : string;
  bot : bool;
  canView : bool;      (* permissionsFor(member)?.has('ViewChannel') *)
}.

(** [interaction.channel]: absent, a direct-message channel, or a text
    channel of a guild. *)
Inductive Channel := NoChannel | DMChannel | GuildText.

(** The private replies of the three handlers. *)
Inductive ReplyText :=
| NeedTwoOptions
| AtMostFiveOptions
| TextChannelsOnly
| PollCreated (pollId : string) (eligible : nat)
| NoPermission
| VoteRecorded (label : option string)
| NoActivePolls
| ActivePolls (entries : list (string * nat * nat))   (* id, voted, eligible *)
| NoPollWithId (pollId : string)
| EndedManually (pollId : string).

(** What the process sends out, in order. *)
Inductive Output :=
| Reply (r : ReplyText)
| PollPosted (msg : string) (question : string) (opts : list string)
| PollMarkedEnded (msg : string)                  (* message.edit: red, no buttons *)
| ResultsPosted (msg : string) (r : Results)      (* message.reply({content: results}) *)
| ThrownTypeError.        (* a property read on undefined ends the function *)

#[global] Instance ReplyText_eq_dec : EqDecision ReplyText.
Proof. solve_decision. Defined.
#[global] Instance Output_eq_dec : EqDecision Output.
Proof. solve_decision. Defined.

(** ** Suspended functions *)

(** Who awaits the end of a call of [endPoll], and what it does next. *)
Inductive Cont :=
| KTimer                          (* the timeout callback: nothing *)
| KCollect (c : nat)              (* the button handler: collector.stop() *)
| KEndExecute (pollId : string).  (* endExecute: the "ended manually" reply *)

(** A function suspended at an [await], with the locals it still uses. *)
Inductive Task :=
| ExecutePosted (guild question : string) (opts : list string) (duration : Z)
    (msg : string) (members : option (list Member))
    (* execute, at [await interaction.reply] of the poll message *)
| ExecuteFetched (guild : string) (opts : list string) (duration : Z)
    (msg : string) (members : option (list Member))
    (* execute, at [await channel.guild.members.fetch()] *)
| CollectReplied (c pollData : nat)
    (* the button handler, at the [await] of its acknowledgement *)
| EndPollEdited (bucket : nat) (msg pollId guild : string) (r : Results) (k : Cont)
    (* endPoll, at [await message.edit] *)
| EndPollReplied (bucket : nat) (pollId guild : string) (k : Cont).
    (* endPoll, at [await message.reply] *)

(** ** The state of the process *)

(** [activePolls] maps a guild to a [Map] object, a [Map] object maps a poll
    id to an entry object.  Both kinds of object are captured by closures
    and outlive their removal from the table, so the table holds
    references: indices into [buckets] and [polls].  A reference always
    points to an object ([reachable_no_dangling] below); where a function
    of this file has to say what happens otherwise, it leaves the state as
    it is. *)
Record World := mkWorld {
  activePolls : gmap string nat;
  buckets : list (gmap string nat);
  polls : list Poll;
  tasks : list Task;
  log : list Output;
}.

Definition init : World :=
  {| activePolls := ∅; buckets := []; polls := []; tasks := []; log := [] |}.

Definition upd_active (f : gmap string nat → gmap string nat) (w : World) : World :=
  {| activePolls := f (activePolls w); buckets := buckets w; polls := polls w;
     tasks := tasks w; log := log w |}.
Definition upd_buckets (f : list (gmap string nat) → list (gmap string nat))
    (w : World) : World :=
  {| activePolls := activePolls w; buckets := f (buckets w); polls := polls w;
     tasks := tasks w; log := log w |}.
Definition upd_polls (f : list Poll → list Poll) (w : World) : World :=
  {| activePolls := activePolls w; buckets := buckets w; polls := f (polls w);
     tasks := tasks w; log := log w |}.
Definition upd_tasks (f : list Task → list Task) (w : World) : World :=
  {| activePolls := activePolls w; buckets := buckets w; polls := polls w;
     tasks := f (tasks w); log := log w |}.

(** A platform call: what it sends is logged. *)
Definition say (o : Output) (w : World) : World :=
  {| activePolls := activePolls w; buckets := buckets w; polls := polls w;
     tasks := tasks w; log := log w ++ [o] |}.

(** The function stops at an [await]; the rest of it waits as a task. *)
Definition suspend (t : Task) (w : World) : World := upd_tasks (cons t) w.

(** The [Map] object behind a bucket reference. *)
Definition bucket (w : World) (b : nat) : gmap string nat :=
  default ∅ (buckets w !! b).

Definition set_votes (vs : gmap string nat) (p : Poll) : Poll :=
  {| message := message p; timeout := timeout p; options := options p;
     votes := vs; eligibleVoters := eligibleVoters p;
     collecting := collecting p; serverPolls := serverPolls p;
     guildId := guildId p |}.
Definition set_timeout (t : Timer) (p : Poll) : Poll :=
  {| message := message p; timeout := t; options := options p;
     votes := votes p; eligibleVoters := eligibleVoters p;
     collecting := collecting p; serverPolls := serverPolls p;
     guildId := guildId p |}.
Definition set_collecting (c : bool) (p : Poll) : Poll :=
  {| message := message p; timeout := timeout p; options := options p;
     votes := votes p; eligibleVoters := eligibleVoters p;
     collecting := c; serverPolls := serverPolls p;
     guildId := guildId p |}.

(** [clearTimeout(pollData.timeout)]: disarms a timer that has not fired. *)
Definition clear (t : Timer) : Timer :=
  match t with
  | Armed _ => Cleared
  | Fired => Fired
  | Cleared => Cleared
  end.

Definition clearTimeout (pd : nat) (w : World) : World :=
  upd_polls (alter (λ p, set_timeout (clear (timeout p)) p) pd) w.

(** [collector.stop()] *)
Definition stop (c : nat) (w : World) : World :=
  upd_polls (alter (set_collecting false) c) w.

(** ** [endPoll]

    The function has two [await]s, hence three segments.  The first one
    does the existence check and compiles the results; the removal from
    [activePolls] is in the last one. *)

(** What the caller that awaits [endPoll] does once it has returned. *)
Definition after_endPoll (k : Cont) (w : World) : World :=
  match k with
  | KTimer => w
  | KCollect c => stop c w
  | KEndExecute pollId => say (Reply (EndedManually pollId)) w
  end.

(** Lines 685-728: up to [await message.edit]. *)
Definition endPoll (msg pollId guild : string) (k : Cont) (w : World) : World :=
  match activePolls w !! guild with
  | None => after_endPoll k w
  | Some b =>
      match bucket w b !! pollId with
      | None => after_endPoll k w
      | Some pd =>
          match polls w !! pd with
          | None => w
          | Some pollData =>
              let results :=
                compile (options pollData) (votes pollData) (eligibleVoters pollData) in
              suspend (EndPollEdited b msg pollId guild results k)
                      (say (PollMarkedEnded msg) w)
          end
      end
  end.

(** Line 731: [await message.reply({ content: results })]. *)
Definition endPoll_edited (b : nat) (msg pollId guild : string) (r : Results)
    (k : Cont) (w : World) : World :=
  suspend (EndPollReplied b pollId guild k) (say (ResultsPosted msg r) w).

(** Lines 734-739: [serverPolls.delete(pollId)] on the bucket found in the
    first segment, then the guild entry if that bucket is empty. *)
Definition endPoll_replied (b : nat) (pollId guild : string) (k : Cont)
    (w : World) : World :=
  let w1 := upd_buckets (alter (delete pollId) b) w in
  let w2 := if bool_decide (size (bucket w1 b) = 0)
            then upd_active (delete guild) w1 else w1 in
  after_endPoll k w2.

(** ** The button handler (lines 634-666)

    [c] is the entry created by the call of [execute] that installed the
    handler: the handler's [serverPolls], [pollId], [message], [options]
    and guild are those captured there. *)

(** Lines 636-653: up to the [await] of the acknowledgement.  No check is
    made on [optionIndex], and none that [pollData] exists. *)
Definition collect (c : nat) (userId : string) (optionIndex : nat) (w : World)
  : World :=
  match polls w !! c with
  | None => w
  | Some closure =>
      match bucket w (serverPolls closure) !! message closure with
      | None => say ThrownTypeError w           (* pollData.eligibleVoters *)
      | Some pd =>
          match polls w !! pd with
          | None => w
          | Some pollData =>
              if bool_decide (0 < size (eligibleVoters pollData))
                 && negb (bool_decide (userId ∈ eligibleVoters pollData))
              then say (Reply NoPermission) w
              else
                suspend (CollectReplied c pd)
                  (say (Reply (VoteRecorded (options closure !! optionIndex)))
                     (upd_polls
                        (alter (λ p, set_votes (<[userId:=optionIndex]> (votes p)) p) pd)
                        w))
          end
      end
  end.

(** Lines 658-665: the check for full participation, on the entry object
    read in the first segment. *)
Definition collect_replied (c pd : nat) (w : World) : World :=
  match polls w !! c, polls w !! pd with
  | Some closure, Some pollData =>
      if bool_decide (0 < size (eligibleVoters pollData))
         && bool_decide (size (eligibleVoters pollData) ≤ size (votes pollData))%nat
      then endPoll (message closure) (message closure) (guildId closure)
                   (KCollect c) (clearTimeout pd w)
      else w
  | _, _ => w
  end.

(** ** The timeout callback (lines 623-625) *)
Definition timeout_fired (pd : nat) (w : World) : World :=
  match polls w !! pd with
  | None => w
  | Some p =>
      endPoll (message p) (message p) (guildId p) KTimer
              (upd_polls (alter (set_timeout Fired) pd) w)
  end.

(** ** [endExecute] (lines 751-795) *)

(** [!pollId]: no argument, or an empty one. *)
Definition falsy (pollId : option string) : bool :=
  match pollId with
  | None => true
  | Some s => bool_decide (s = "")
  end.

Definition endExecute (guild : string) (pollIdArg : option string) (w : World)
  : World :=
  match activePolls w !! guild with
  | None => say (Reply NoActivePolls) w
  | Some b =>
      if bool_decide (size (bucket w b) = 0) then say (Reply NoActivePolls) w
      else if falsy pollIdArg then
        say (Reply (ActivePolls
               (omap (λ '(id, pd), p ← polls w !! pd;
                        Some (id, size (votes p), size (eligibleVoters p)))
                     (map_to_list (bucket w b))))) w
      else
        let pollId := default "" pollIdArg in
        match bucket w b !! pollId with
        | None => say (Reply (NoPollWithId pollId)) w
        | Some pd =>
            match polls w !! pd with
            | None => w
            | Some pollData =>
                endPoll (message pollData) pollId guild (KEndExecute pollId)
                        (clearTimeout pd w)
            end
        end
  end.

(** ** [execute] (lines 539-681) *)

(** Lines 602-610: the members that are not bots and can view the channel;
    line 611: none when the fetch failed. *)
Definition eligible_of (members : option (list Member)) : gset string :=
  match members with
  | None => ∅
  | Some ms =>
      list_to_set (member_id <$> filter (λ m, bot m = false ∧ canView m = true) ms)
  end.

(** Lines 540-584: the checks, then the poll message is sent.  [msg] is
    the id that the platform gives to that message, [members] what the
    later fetch answers. *)
Definition execute (guild question optionsArg : string) (minutes : Z)
    (ch : Channel) (msg : string) (members : option (list Member)) (w : World)
  : World :=
  let opts := parse_options optionsArg in
  let duration := (minutes * 60 * 1000)%Z in
  if bool_decide (length opts < 2) then say (Reply NeedTwoOptions) w
  else if bool_decide (5 < length opts) then say (Reply AtMostFiveOptions) w
  else match ch with
       | NoChannel | DMChannel => say (Reply TextChannelsOnly) w
       | GuildText =>
           suspend (ExecutePosted guild question opts duration msg members)
                   (say (PollPosted msg question opts) w)
       end.

(** Lines 587-600: the bucket of the guild is created if absent; then
    the members are fetched. *)
Definition execute_posted (guild : string) (opts : list string) (duration : Z)
    (msg : string) (members : option (list Member)) (w : World) : World :=
  let w1 :=
    match activePolls w !! guild with
    | Some _ => w
    | None =>
        upd_active (<[guild := length (buckets w)]>) (upd_buckets (λ bs, bs ++ [∅]) w)
    end in
  suspend (ExecuteFetched guild opts duration msg members) w1.

(** Lines 602-680: the entry is stored in the bucket that [activePolls]
    now has for the guild, the timer is armed and the collector
    installed. *)
Definition execute_fetched (guild : string) (opts : list string) (duration : Z)
    (msg : string) (members : option (list Member)) (w : World) : World :=
  let eligible := eligible_of members in
  match activePolls w !! guild with
  | None => say ThrownTypeError w              (* serverPolls.set on undefined *)
  | Some b =>
      let entry :=
        {| message := msg; timeout := Armed duration; options := opts;
           votes := ∅; eligibleVoters := eligible; collecting := true;
           serverPolls := b; guildId := guild |} in
      say (Reply (PollCreated msg (size eligible)))
        (upd_buckets (alter (<[msg := length (polls w)]>) b)
           (upd_polls (λ ps, ps ++ [entry]) w))
  end.

(** ** The event loop *)

Inductive Event :=
| VoteCmd (guild question optionsArg : string) (minutes : Z) (ch : Channel)
    (msg : string) (members : option (list Member))     (* /vote *)
| EndCmd (guild : string) (pollId : option string)      (* /endpoll *)
| Button (c : nat) (userId : string) (optionIndex : nat)
    (* a click on button [vote_optionIndex] of the message of entry [c] *)
| TimerFire (pd : nat)                                  (* the timeout of entry [pd] *)
| CollectorEnd (c : nat)                                (* the collector's own time is up *)
| Resume (i : nat).                                     (* the awaited call of task [i] settles *)

Definition resume (t : Task) (w : World) : World :=
  match t with
  | ExecutePosted guild _ opts duration msg members =>
      execute_posted guild opts duration msg members w
  | ExecuteFetched guild opts duration msg members =>
      execute_fetched guild opts duration msg members w
  | CollectReplied c pd => collect_replied c pd w
  | EndPollEdited b msg pollId guild r k => endPoll_edited b msg pollId guild r k w
  | EndPollReplied b pollId guild k => endPoll_replied b pollId guild k w
  end.

(** The poll message [msg] has been posted. *)
Definition posts (msg : string) (o : Output) : bool :=
  match o with
  | PollPosted m _ _ => bool_decide (m = msg)
  | _ => false
  end.

(** No message with this id has been posted so far. *)
Definition fresh (msg : string) (w : World) : bool :=
  forallb (λ o, negb (posts msg o)) (log w).

Definition armed (t : Timer) : bool :=
  match t with
  | Armed _ => true
  | _ => false
  end.

(** The platform and the run time deliver an event only when it can
    occur: the id of a new message has not been given to another message;
    a click is on one of the buttons made for the message ([vote_i] for
    [i < options.length], lines 565-570) and reaches the handler only
    while the collector listens; a timer fires only while armed; a
    collector ends once; only a suspended function is resumed. *)
Definition deliverable (e : Event) (w : World) : bool :=
  match e with
  | VoteCmd _ _ _ _ _ msg _ => fresh msg w
  | EndCmd _ _ => true
  | Button c _ optionIndex =>
      match polls w !! c with
      | Some p => collecting p && bool_decide (optionIndex < length (options p))
      | None => false
      end
  | TimerFire pd =>
      match polls w !! pd with
      | Some p => armed (timeout p)
      | None => false
      end
  | CollectorEnd c =>
      match polls w !! c with
      | Some p => collecting p
      | None => false
      end
  | Resume i => bool_decide (i < length (tasks w))
  end.

(** What the process does with an event. *)
Definition handle (e : Event) (w : World) : World :=
  match e with
  | VoteCmd guild question optionsArg minutes ch msg members =>
      execute guild question optionsArg minutes ch msg members w
  | EndCmd guild pollId => endExecute guild pollId w
  | Button c userId optionIndex => collect c userId optionIndex w
  | TimerFire pd => timeout_fired pd w
  | CollectorEnd c => stop c w
  | Resume i =>
      match tasks w !! i with
      | Some t => resume t (upd_tasks (delete i) w)
      | None => w
      end
  end.

(** One turn of the loop. *)
Definition step (e : Event) (w : World) : option World :=
  if deliverable e w then Some (handle e w) else None.

Fixpoint run (es : list Event) (w : World) : option World :=
  match es with
  | [] => Some w
  | e :: es' => step e w ≫= run es'
  end.

Definition reachable (w : World) : Prop := ∃ es, run es init = Some w.

(** ** The result compiler as the specification words it

    Per-option counts over all recorded votes, their maximum, the options
    that reach it in their original order. *)

Module Spec.

(** The number of recorded votes for option [i]. *)
Definition votes_for (vs : gmap string nat) (i : nat) : nat :=
  length (filter (λ kv, kv.2 = i) (map_to_list vs)).

Definition counts (opts : list string) (vs : gmap string nat) : list nat :=
  votes_for vs <$> seq 0 (length opts).

Definition maxVotes (opts : list string) (vs : gmap string nat) : nat :=
  max_list (counts opts vs).

(** The options whose count equals [maxVotes], in option order. *)
Definition tied (opts : list string) (vs : gmap string nat) : list string :=
  (filter (λ io, votes_for vs io.1 = maxVotes opts vs) (imap pair opts)).*2.

Definition outcome (opts : list string) (vs : gmap string nat) : Outcome :=
  let m := maxVotes opts vs in
  if decide (m = 0) then NoVotesCast
  else match tied opts vs with
       | [w] => Winner w (Js.Num m)
       | ws => TieBetween ws (Js.Num m)
       end.

(** A bad duration: no time at all, or less. *)
Definition invalid_duration (minutes : Z) : bool := bool_decide (minutes ≤ 0)%Z.

End Spec.

(** ** Invariants of the ledger *)

(** Every stored option index is that of an option. *)
Definition in_range (opts : list string) (vs : gmap string nat) : Prop :=
  map_Forall (λ _ i, i < length opts) vs.

(** With a known set of eligible voters, only they are in the ledger. *)
Definition only_eligible (p : Poll) : Prop :=
  0 < size (eligibleVoters p) → dom (votes p) ⊆ eligibleVoters p.

Definition ledger_ok (p : Poll) : Prop :=
  in_range (options p) (votes p) ∧ only_eligible p.

(** ** Consistency of the table *)

(** The message that a suspended call of [execute] has posted. *)
Definition task_msg (t : Task) : option string :=
  match t with
  | ExecutePosted _ _ _ _ msg _ | ExecuteFetched _ _ _ msg _ => Some msg
  | _ => None
  end.

(** The poll messages in use: those of the entries and those of the calls
    of [execute] that have not stored their entry yet. *)
Definition messages (w : World) : list string :=
  (message <$> polls w) ++ omap task_msg (tasks w).

Definition posted (msg : string) (w : World) : Prop :=
  ∃ o, o ∈ log w ∧ posts msg o = true.

(** A bucket maps a poll id to the entry created for the message with
    that id by a call of [execute] that captured this bucket, and no two
    entries share their message. *)
Record consistent (w : World) : Prop := {
  entries_ok : ∀ b m id pd,
    buckets w !! b = Some m → m !! id = Some pd →
    ∃ p, polls w !! pd = Some p ∧ message p = id ∧ serverPolls p = b;
  messages_NoDup : NoDup (messages w);
  messages_posted : ∀ msg, msg ∈ messages w → posted msg w;
}.

(** What the handlers other than [execute] leave as it is: the message and
    the bucket of every entry; buckets only lose keys; no call of
    [execute] is added; the log grows. *)
Record frame (w w' : World) : Prop := {
  frame_message : message <$> polls w' = message <$> polls w;
  frame_serverPolls : serverPolls <$> polls w' = serverPolls <$> polls w;
  frame_buckets : ∀ b m' id pd,
    buckets w' !! b = Some m' → m' !! id = Some pd →
    ∃ m, buckets w !! b = Some m ∧ m !! id = Some pd;
  frame_tasks : omap task_msg (tasks w') ⊆+ omap task_msg (tasks w);
  frame_log : ∀ o, o ∈ log w → o ∈ log w';
}.

(** ** References *)




Definition ledgers_ok (w : World) : Prop := Forall ledger_ok (polls w).

(** ** Scenarios *)

(** Three members who see the channel, and the bot. *)
Definition squad : option (list Member) :=
  Some [mkMember "ann" false true; mkMember "bob" false true;
        mkMember "cat" false true; mkMember "agilemate" true true].

(** [/vote question:Lunch? options:A, B duration:5], run until the entry
    is stored. *)
Definition open_poll : list Event :=
  [VoteCmd "guild" "Lunch?" "A, B" 5 GuildText "m1" squad; Resume 0; Resume 0].

(** The entry that [open_poll] stores, and the state it leaves. *)
Definition lunch : Poll :=
  {| message := "m1"; timeout := Armed 300000; options := ["A"; "B"];
     votes := ∅; eligibleVoters := {["ann"; "bob"; "cat"]};
     collecting := true; serverPolls := 0; guildId := "guild" |}.

Definition opened : World :=
  {| activePolls := {["guild" := 0]}; buckets := [{["m1" := 0]}];
     polls := [lunch]; tasks := [];
     log := [PollPosted "m1" "Lunch?" ["A"; "B"]; Reply (PollCreated "m1" 3)] |}.

(** Ann and Bob have voted. *)
Definition two_voted : World :=
  {| activePolls := {["guild" := 0]}; buckets := [{["m1" := 0]}];
     polls := [set_votes {["ann" := 1; "bob" := 0]} lunch]; tasks := [];
     log := [PollPosted "m1" "Lunch?" ["A"; "B"]; Reply (PollCreated "m1" 3);
             Reply (VoteRecorded (Some "B")); Reply (VoteRecorded (Some "A"))] |}.

Definition two_votes : list Event :=
  open_poll ++ [Button 0 "ann" 1; Resume 0; Button 0 "bob" 0; Resume 0].

(** The timer fires; while [endPoll] awaits [message.edit], [/endpoll
    poll_id:m1] arrives; then the awaited calls settle, those of the
    timer's [endPoll] first. *)
Definition close_race : list Event :=
  open_poll ++ [TimerFire 0; EndCmd "guild" (Some "m1");
                Resume 1; Resume 1; Resume 1; Resume 0].

(** The same race; between the ends of the two calls of [endPoll] a
    second poll is opened in the guild. *)
Definition stale_close : list Event :=
  open_poll ++ [TimerFire 0; EndCmd "guild" (Some "m1"); Resume 1; Resume 0;
                VoteCmd "guild" "Dinner?" "C, D" 5 GuildText "m2" squad;
                Resume 0; Resume 0; Resume 0; Resume 0].

(** The timer fires; while [endPoll] awaits [message.edit], Ann clicks
    button B; then the awaited calls settle. *)
Definition late_click : list Event :=
  open_poll ++ [TimerFire 0; Button 0 "ann" 1; Resume 0; Resume 0; Resume 0].

(** [/endpoll poll_id:m1], run to its end. *)
Definition manual_close : list Event :=
  open_poll ++ [EndCmd "guild" (Some "m1"); Resume 0; Resume 0].

(** A second poll is opened in the guild while Ann and Bob have voted in
    the first. *)
Definition dinner : Poll :=
  {| message := "m2"; timeout := Armed 600000; options := ["C"; "D"; "E"];
     votes := ∅; eligibleVoters := {["ann"; "bob"; "cat"]};
     collecting := true; serverPolls := 0; guildId := "guild" |}.

Definition two_polls : World :=
  {| activePolls := {["guild" := 0]}; buckets := [{["m1" := 0; "m2" := 1]}];
     polls := [set_votes {["ann" := 1; "bob" := 0]} lunch; dinner]; tasks := [];
     log := log two_voted ++ [PollPosted "m2" "Dinner?" ["C"; "D"; "E"];
                              Reply (PollCreated "m2" 3)] |}.

Definition open_second : list Event :=
  [VoteCmd "guild" "Dinner?" "C,D , E" 10 GuildText "m2" squad; Resume 0; Resume 0].

(** The state after [/endpoll poll_id:m1] in [two_voted] has run to its
    end. *)
Definition closed_by_hand : World :=
  {| activePolls := ∅; buckets := [∅];
     polls := [set_timeout Cleared (set_votes {["ann" := 1; "bob" := 0]} lunch)];
     tasks := [];
     log := log two_voted ++
       [PollMarkedEnded "m1";
        ResultsPosted "m1"
          (compile ["A"; "B"] {["ann" := 1; "bob" := 0]} {["ann"; "bob"; "cat"]});
        Reply (EndedManually "m1")] |}.

(** The ledger of the tie example of the specification. *)
Definition tie_ledger : gmap string nat :=
  {["u1" := 0; "u2" := 1; "u3" := 0; "u4" := 1]}.

(** The number of times the results of a poll were posted. *)
Definition is_results (msg : string) (o : Output) : bool :=
  match o with
  | ResultsPosted m _ => bool_decide (m = msg)
  | _ => false
  end.

Definition publications (msg : string) (w : World) : nat :=
  length (filter (λ o, is_results msg o = true) (log w)).

(** ** [listExecute] (lines 802-824)

    The command only reads the table and answers; it is a function from
    the state to its answer.  The title of a row is that of the poll
    message, which is kept here as its id. *)

(** [n || '?'] *)
Definition or_question (n : nat) : option nat :=
  if bool_decide (n = 0) then None else Some n.

(** A line of the list: id, votes cast, eligible voters, voters left. *)
Record PollRow := mkPollRow {
  row_id : string;
  row_voted : nat;
  row_total : option nat;          (* [None] is printed '?' *)
  row_remaining : option nat;
}.

Inductive ListReply :=
| NoPollsToList
| PollList (rows : list PollRow).

Definition list_row (id : string) (p : Poll) : PollRow :=
  let votedCount := size (votes p) in
  let totalVoters := size (eligibleVoters p) in
  let remainingVoters :=
    Z.to_nat (Z.max 0 (Z.of_nat totalVoters - Z.of_nat votedCount)) in
  {| row_id := id; row_voted := votedCount;
     row_total := or_question totalVoters;
     row_remaining := or_question remainingVoters |}.

Definition listExecute (guild : string) (w : World) : ListReply :=
  match activePolls w !! guild with
  | None => NoPollsToList
  | Some b =>
      if bool_decide (size (bucket w b) = 0) then NoPollsToList
      else PollList (omap (λ '(id, pd), list_row id <$> polls w !! pd)
                          (map_to_list (bucket w b)))
  end.

(** ** How an entry changes *)

(** The number of commas of an argument. *)
Fixpoint commas (s : string) : nat :=
  match s with
  | EmptyString => 0
  | String c r => (if bool_decide (c = ","%char) then 1 else 0) + commas r
  end.

(** What may differ between an entry and a later state of it: a timer
    that was armed may not be any more, a collector that listened may have
    stopped, the ledger may have other votes of the same and of more
    voters. *)
Record evolves (p p' : Poll) : Prop := {
  same_message : message p' = message p;
  same_options : options p' = options p;
  same_eligibleVoters : eligibleVoters p' = eligibleVoters p;
  same_serverPolls : serverPolls p' = serverPolls p;
  same_guildId : guildId p' = guildId p;
  timer_not_rearmed : armed (timeout p') = true → timeout p' = timeout p;
  collector_not_restarted : collecting p' = true → collecting p = true;
  voters_kept : dom (votes p) ⊆ dom (votes p');
}.

(** Every entry of [w] is still there in [w'], changed as [R] allows. *)
Definition entries_related (R : Poll → Poll → Prop) (w w' : World) : Prop :=
  ∀ pd p, polls w !! pd = Some p → ∃ p', polls w' !! pd = Some p' ∧ R p p'.

(** No bucket refers to entry [pd]: it has been removed from the table. *)
Definition unlisted (pd : nat) (w : World) : Prop :=
  Forall (map_Forall (λ _ pd', pd' ≠ pd)) (buckets w).

(** * The standup tables (convex/standupFunctions.ts)

    A table is the list of its documents in the order of their creation,
    which is the order of a query on an index whose fields are all given.
    A mutation is one transaction: a function on the tables.  [Date.now()]
    is an argument. *)

Module Convex.

Record StandupUser := mkStandupUser {
  u_id : nat;                (* _id *)
  u_userId : string;
  u_guildId : string;
  u_channelId : string;
  u_joinedAt : Z;
}.

Record StandupResponse := mkStandupResponse {
  r_id : nat;                (* _id *)
  r_userId : string;
  r_guildId : string;
  r_date : string;
  r_done : string;
  r_doing : string;
  r_blockers : string;
  r_submittedAt : Z;
}.

Record Db := mkDb {
  standupUsers : list StandupUser;
  standupResponses : list StandupResponse;
  next_id : nat;             (* the id that the next insert gives *)
}.

Definition empty : Db :=
  {| standupUsers := []; standupResponses := []; next_id := 0 |}.

(** [.first()] of the documents that an index selects *)
Definition first {A} (P : A → Prop) `{!∀ x, Decision (P x)} (l : list A)
  : option A := head (filter P l).

(** The indexes, with all their fields given. *)
Definition by_guild_and_user (guildId userId : string) (d : StandupUser) : Prop :=
  u_guildId d = guildId ∧ u_userId d = userId.
Definition by_guild (guildId : string) (d : StandupUser) : Prop :=
  u_guildId d = guildId.
Definition by_guild_user_date (guildId userId date : string)
    (r : StandupResponse) : Prop :=
  r_guildId r = guildId ∧ r_userId r = userId ∧ r_date r = date.
Definition by_guild_and_date (guildId date : string) (r : StandupResponse) : Prop :=
  r_guildId r = guildId ∧ r_date r = date.

#[global] Instance by_guild_and_user_dec g u d : Decision (by_guild_and_user g u d).
Proof. unfold by_guild_and_user. apply _. Defined.
#[global] Instance by_guild_dec g d : Decision (by_guild g d).
Proof. unfold by_guild. apply _. Defined.
#[global] Instance by_guild_user_date_dec g u t r :
  Decision (by_guild_user_date g u t r).
Proof. unfold by_guild_user_date. apply _. Defined.
#[global] Instance by_guild_and_date_dec g t r : Decision (by_guild_and_date g t r).
Proof. unfold by_guild_and_date. apply _. Defined.

Definition getStandupUser (userId guildId : string) (db : Db)
  : option StandupUser :=
  first (by_guild_and_user guildId userId) (standupUsers db).

Definition getStandupUsers (guildId : string) (db : Db) : list StandupUser :=
  filter (by_guild guildId) (standupUsers db).

(** [ctx.db.patch(id, { channelId })] *)
Definition patch_channel (id : nat) (channelId : string) (d : StandupUser)
  : StandupUser :=
  if decide (u_id d = id)
  then {| u_id := u_id d; u_userId := u_userId d; u_guildId := u_guildId d;
          u_channelId := channelId; u_joinedAt := u_joinedAt d |}
  else d.

(** The result is the id of the new document, or nothing after a patch. *)
Definition addStandupUser (userId guildId channelId : string) (now : Z) (db : Db)
  : option nat * Db :=
  match getStandupUser userId guildId db with
  | Some existingUser =>
      (None,
       {| standupUsers := patch_channel (u_id existingUser) channelId <$> standupUsers db;
          standupResponses := standupResponses db; next_id := next_id db |})
  | None =>
      (Some (next_id db),
       {| standupUsers := standupUsers db ++
            [{| u_id := next_id db; u_userId := userId; u_guildId := guildId;
                u_channelId := channelId; u_joinedAt := now |}];
          standupResponses := standupResponses db; next_id := S (next_id db) |})
  end.

(** The result is [success]. *)
Definition removeStandupUser (userId guildId : string) (db : Db) : bool * Db :=
  match getStandupUser userId guildId db with
  | Some user =>
      (true,
       {| standupUsers := filter (λ d, u_id d ≠ u_id user) (standupUsers db);
          standupResponses := standupResponses db; next_id := next_id db |})
  | None => (false, db)
  end.

(** [[...new Set(l)]]: the elements in the order of their first
    occurrence. *)
Definition spread_set (l : list string) : list string :=
  foldl (λ acc x, if decide (x ∈ acc) then acc else acc ++ [x]) [] l.

Definition getAllGuildsWithStandups (db : Db) : list string :=
  spread_set (u_guildId <$> standupUsers db).

(** [ctx.db.patch(id, { done, doing, blockers, submittedAt })] *)
Definition patch_response (id : nat) (done doing blockers : string) (now : Z)
    (r : StandupResponse) : StandupResponse :=
  if decide (r_id r = id)
  then {| r_id := r_id r; r_userId := r_userId r; r_guildId := r_guildId r;
          r_date := r_date r; r_done := done; r_doing := doing;
          r_blockers := blockers; r_submittedAt := now |}
  else r.

Definition getStandupResponseForUser (userId guildId date : string) (db : Db)
  : option StandupResponse :=
  first (by_guild_user_date guildId userId date) (standupResponses db).

Definition getStandupResponsesByDate (guildId date : string) (db : Db)
  : list StandupResponse :=
  filter (by_guild_and_date guildId date) (standupResponses db).

Definition submitStandupResponse (userId guildId date done doing blockers : string)
    (now : Z) (db : Db) : option nat * Db :=
  match getStandupResponseForUser userId guildId date db with
  | Some existingResponse =>
      (None,
       {| standupUsers := standupUsers db;
          standupResponses :=
            patch_response (r_id existingResponse) done doing blockers now
              <$> standupResponses db;
          next_id := next_id db |})
  | None =>
      (Some (next_id db),
       {| standupUsers := standupUsers db;
          standupResponses := standupResponses db ++
            [{| r_id := next_id db; r_userId := userId; r_guildId := guildId;
                r_date := date; r_done := done; r_doing := doing;
                r_blockers := blockers; r_submittedAt := now |}];
          next_id := S (next_id db) |})
  end.

(** The mutations, as calls. *)
Inductive Mutation :=
| AddStandupUser (userId guildId channelId : string) (now : Z)
| RemoveStandupUser (userId guildId : string)
| SubmitStandupResponse (userId guildId date done doing blockers : string) (now : Z).

Definition mutate (db : Db) (m : Mutation) : Db :=
  match m with
  | AddStandupUser u g c now => (addStandupUser u g c now db).2
  | RemoveStandupUser u g => (removeStandupUser u g db).2
  | SubmitStandupResponse u g t d1 d2 d3 now =>
      (submitStandupResponse u g t d1 d2 d3 now db).2
  end.

(** The tables that the mutations can make of the empty tables. *)
Definition reachable (db : Db) : Prop := ∃ ms, foldl mutate empty ms = db.

(** Ids are given once. *)
Record ids_ok (db : Db) : Prop := {
  user_ids_NoDup : NoDup (u_id <$> standupUsers db);
  user_ids_below : Forall (λ d, u_id d < next_id db) (standupUsers db);
  response_ids_NoDup : NoDup (r_id <$> standupResponses db);
  response_ids_below : Forall (λ r, r_id r < next_id db) (standupResponses db);
}.

(** Ann and Bob join in one guild, Ann again with another channel and
    also in a second guild; Ann answers on two days and Bob once. *)
Definition team_calls : list Mutation :=
  [AddStandupUser "ann" "guild" "general" 100;
   AddStandupUser "bob" "guild" "dev" 110;
   AddStandupUser "ann" "guild" "dev" 120;
   AddStandupUser "ann" "other" "lobby" 130;
   SubmitStandupResponse "ann" "guild" "2025-01-01" "docs" "tests" "none" 140;
   SubmitStandupResponse "ann" "guild" "2025-01-02" "tests" "release" "ci" 150;
   SubmitStandupResponse "bob" "guild" "2025-01-02" "ui" "api" "none" 160].

Definition team : Db := foldl mutate empty team_calls.

(** What identifies a sign-up and a response. *)
Definition user_key (d : StandupUser) : string * string :=
  (u_guildId d, u_userId d).
Definition response_key (r : StandupResponse) : string * string * string :=
  (r_guildId r, r_userId r, r_date r).

End Convex.

(** * The standup command (lines 1-512) *)

Module Standup.

Import Convex.

(** ** The cron jobs (lines 10, 146-159, 250-287, 497-512)

    [scheduledJobs] maps a key to a job object.  The objects are kept in a
    heap and referred to by their index: a job that left the map without
    being stopped would still be there, running. *)

Inductive Callback := SendMorningReminders | SendEveningSummary.

Record CronJob := mkCronJob {
  cronTime : string;
  onTick : Callback;
  tickGuild : string;        (* the [guildId] that the callback captured *)
  running : bool;
}.

Record Scheduler := mkScheduler {
  jobs : list CronJob;
  scheduledJobs : gmap string nat;
}.

Definition no_jobs : Scheduler := {| jobs := []; scheduledJobs := ∅ |}.

Definition morningJobKey (guildId : string) : string :=
  String.append guildId "_morning".
Definition eveningJobKey (guildId : string) : string :=
  String.append guildId "_evening".

Definition new_CronJob (time : string) (tick : Callback) (guildId : string)
  : CronJob :=
  {| cronTime := time; onTick := tick; tickGuild := guildId; running := false |}.

Definition start_job (j : CronJob) : CronJob :=
  {| cronTime := cronTime j; onTick := onTick j; tickGuild := tickGuild j;
     running := true |}.

Definition stop_job (j : CronJob) : CronJob :=
  {| cronTime := cronTime j; onTick := onTick j; tickGuild := tickGuild j;
     running := false |}.

Definition has (key : string) (s : Scheduler) : bool :=
  bool_decide (is_Some (scheduledJobs s !! key)).

(** [if (scheduledJobs.has(key)) { scheduledJobs.get(key)!.stop();
    scheduledJobs.delete(key); }] *)
Definition remove_job (key : string) (s : Scheduler) : Scheduler :=
  match scheduledJobs s !! key with
  | Some i => {| jobs := alter stop_job i (jobs s);
                 scheduledJobs := delete key (scheduledJobs s) |}
  | None => s
  end.

Definition scheduleJobs (guildId : string) (s : Scheduler) : Scheduler :=
  if has (morningJobKey guildId) s && has (eveningJobKey guildId) s then s
  else
    let s1 := remove_job (eveningJobKey guildId)
                (remove_job (morningJobKey guildId) s) in
    let morningJob := length (jobs s1) in
    let eveningJob := S (length (jobs s1)) in
    {| jobs := jobs s1 ++
         [start_job (new_CronJob "0 9 * * *" SendMorningReminders guildId);
          start_job (new_CronJob "0 21 * * *" SendEveningSummary guildId)];
       scheduledJobs :=
         <[eveningJobKey guildId := eveningJob]>
           (<[morningJobKey guildId := morningJob]> (scheduledJobs s1)) |}.

(** The end of [handleLeave] (lines 146-159), with the answer of the
    query of line 141. *)
Definition leave_cleanup (remainingUsers : list StandupUser) (guildId : string)
    (s : Scheduler) : Scheduler :=
  if bool_decide (length remainingUsers = 0)
  then remove_job (eveningJobKey guildId) (remove_job (morningJobKey guildId) s)
  else s.

(** [onReady], with the answer of its query. *)
Definition onReady (guildIds : list string) (s : Scheduler) : Scheduler :=
  foldl (λ s guildId, scheduleJobs guildId s) s guildIds.

(** What is done to the jobs, and the schedulers that this gives. *)
Inductive JobOp :=
| Schedule (guildId : string)
| Cleanup (guildId : string).

Definition job_op (s : Scheduler) (op : JobOp) : Scheduler :=
  match op with
  | Schedule guildId => scheduleJobs guildId s
  | Cleanup guildId => leave_cleanup [] guildId s
  end.

Definition sched_reachable (s : Scheduler) : Prop :=
  ∃ ops, foldl job_op no_jobs ops = s.

(** The key of the map under which a job belongs, and the time at which
    its callback is to run. *)
Definition key_of (j : CronJob) : string :=
  match onTick j with
  | SendMorningReminders => morningJobKey (tickGuild j)
  | SendEveningSummary => eveningJobKey (tickGuild j)
  end.

Definition time_of (tick : Callback) : string :=
  match tick with
  | SendMorningReminders => "0 9 * * *"
  | SendEveningSummary => "0 21 * * *"
  end.

(** The jobs that the map registers are the jobs that run, each under
    its key and with its time. *)
Record jobs_ok (s : Scheduler) : Prop := {
  registered_running : ∀ key i, scheduledJobs s !! key = Some i →
    ∃ j, jobs s !! i = Some j ∧ running j = true ∧ key_of j = key;
  running_registered : ∀ i j, jobs s !! i = Some j → running j = true →
    scheduledJobs s !! key_of j = Some i;
  timed : Forall (λ j, cronTime j = time_of (onTick j)) (jobs s);
}.

Record sched_ok (s : Scheduler) : Prop := {
  sched_jobs_ok : jobs_ok s;
  paired : ∀ guildId, is_Some (scheduledJobs s !! morningJobKey guildId)
                      ↔ is_Some (scheduledJobs s !! eveningJobKey guildId);
}.

(** ** [handleJoin] and [handleLeave] (lines 61-167)

    Each command is run to its end with no call failing and no other
    command in between; the replies are the results. *)

Record Bot := mkBot {
  tables : Db;
  cron : Scheduler;
}.

Inductive JoinReply :=
| NotATextChannel
| NoPermission
| Joined (channelId : string).

(** [permissions] is the answer of [permissions?.has(SendMessages)]. *)
Definition handleJoin (userId guildId : string) (channelType : nat)
    (permissions : option bool) (channelId : string) (now : Z) (b : Bot)
  : JoinReply * Bot :=
  if bool_decide (channelType ≠ 0) then (NotATextChannel, b)
  else if negb (default false permissions) then (NoPermission, b)
  else
    (Joined channelId,
     {| tables := (addStandupUser userId guildId channelId now (tables b)).2;
        cron := scheduleJobs guildId (cron b) |}).

Inductive LeaveReply :=
| NotSignedUp
| Removed.

Definition handleLeave (userId guildId : string) (b : Bot) : LeaveReply * Bot :=
  match getStandupUser userId guildId (tables b) with
  | None => (NotSignedUp, b)
  | Some _ =>
      let db := (removeStandupUser userId guildId (tables b)).2 in
      let remainingUsers := getStandupUsers guildId db in
      (Removed,
       {| tables := db; cron := leave_cleanup remainingUsers guildId (cron b) |})
  end.

(** ** [collectStandupResponses] (lines 352-401) *)

(** How the wait for an answer ends. *)
Inductive Awaited :=
| Collected (content : string)
| NothingCollected
| TimedOut.

Definition pushed (a : Awaited) : string :=
  match a with
  | Collected content => content
  | NothingCollected => "No response"
  | TimedOut => "No response (timed out)"
  end.

(** [s || 'No response'] *)
Definition or_no_response (s : string) : string :=
  if bool_decide (s = "") then "No response" else s.

Definition collectStandupResponses (userId guildId : string)
    (a1 a2 a3 : Awaited) (today : string) (now : Z) (db : Db) : Db :=
  let responses := [pushed a1; pushed a2; pushed a3] in
  (submitStandupResponse userId guildId today
     (or_no_response (default "" (responses !! 0)))
     (or_no_response (default "" (responses !! 1)))
     (or_no_response (default "" (responses !! 2))) now db).2.

(** The commands, and the states of a bot that starts with [onReady] on
    tables that the mutations have made, and then serves one command after
    the other. *)
Inductive Command :=
| Join (userId guildId : string) (channelType : nat) (permissions : option bool)
       (channelId : string) (now : Z)
| Leave (userId guildId : string)
| Answer (userId guildId : string) (a1 a2 a3 : Awaited) (today : string) (now : Z).

Definition serve (b : Bot) (c : Command) : Bot :=
  match c with
  | Join u g t perm ch now => (handleJoin u g t perm ch now b).2
  | Leave u g => (handleLeave u g b).2
  | Answer u g a1 a2 a3 today now =>
      {| tables := collectStandupResponses u g a1 a2 a3 today now (tables b);
         cron := cron b |}
  end.

Definition started (db : Db) : Bot :=
  {| tables := db; cron := onReady (getAllGuildsWithStandups db) no_jobs |}.

Definition bot_reachable (b : Bot) : Prop :=
  ∃ db cs, reachable db ∧ foldl serve (started db) cs = b.

(** ** The grouping of [sendEveningSummary] (lines 404-443)

    [channelMap] is a [Map]: it keeps its keys in the order of their
    insertion, which is the order in which the summaries are sent.  It is
    the list of its channels, each with its entries: a user id with the
    response of that user. *)

Definition map_has (channelId : string)
    (m : list (string * list (string * StandupResponse))) : bool :=
  bool_decide (channelId ∈ m.*1).

(** [channelMap.get(channelId)!.push(e)] *)
Definition map_push (channelId : string) (e : string * StandupResponse)
    (m : list (string * list (string * StandupResponse)))
  : list (string * list (string * StandupResponse)) :=
  (λ kv, if decide (kv.1 = channelId) then (kv.1, kv.2 ++ [e]) else kv) <$> m.

(** [responses.find(r => r.userId === userId)] *)
Definition find_response (userId : string) (responses : list StandupResponse)
  : option StandupResponse :=
  first (λ r, r_userId r = userId) responses.

Definition group_user (responses : list StandupResponse)
    (m : list (string * list (string * StandupResponse))) (user : StandupUser)
  : list (string * list (string * StandupResponse)) :=
  let m1 := if map_has (u_channelId user) m then m
            else m ++ [(u_channelId user, [])] in
  match find_response (u_userId user) responses with
  | Some response => map_push (u_channelId user) (u_userId user, response) m1
  | None => m1
  end.

Definition group (users : list StandupUser) (responses : list StandupResponse)
  : list (string * list (string * StandupResponse)) :=
  foldl (group_user responses) [] users.

(** The summaries that are sent, given the answers of the two queries:
    nothing is sent when there is no response or no user. *)
Definition sendEveningSummary (responses : list StandupResponse)
    (users : list StandupUser)
  : list (string * list (string * StandupResponse)) :=
  if bool_decide (length responses = 0) then []
  else if bool_decide (length users = 0) then []
  else group users responses.

(** Jobs for two guilds; those of the second are removed and scheduled
    again. *)
Definition two_guilds_ops : list JobOp :=
  [Schedule "guild"; Schedule "other"; Cleanup "other"; Schedule "other";
   Schedule "guild"].

Definition two_guilds : Scheduler := foldl job_op no_jobs two_guilds_ops.

(** Ann joins in one guild and Bob in another, Ann leaves. *)
Definition week : list Command :=
  [Join "ann" "guild" 0 (Some true) "general" 100;
   Join "bob" "other" 0 (Some true) "lobby" 110;
   Answer "ann" "guild" (Collected "docs") TimedOut (Collected "") "2025-01-01" 120;
   Leave "ann" "guild"].

Definition after_week : Bot := foldl serve (started team) week.

End Standup.

(** * Properties *)

(** ** The scenarios run as described *)

Lemma open_poll_runs : run open_poll init = Some opened.
Proof. vm_compute. reflexivity. Qed.

Lemma two_votes_run : run two_votes init = Some two_voted.
Proof. vm_compute. reflexivity. Qed.

Lemma opened_reachable : reachable opened.
Proof. exists open_poll. apply open_poll_runs. Qed.

Lemma two_voted_reachable : reachable two_voted.
Proof. exists two_votes. apply two_votes_run. Qed.

(** The examples of the specification. *)
Example tie_detection :
  compile ["A"; "B"; "C"] tie_ledger ∅ =
  {| lines := [("A", Js.Num 2); ("B", Js.Num 2); ("C", Js.Num 0)];
     outcome := TieBetween ["A"; "B"] (Js.Num 2);
     participation := None |}.
Proof. vm_compute. reflexivity. Qed.

Example sole_winner :
  compile ["A"; "B"] {["u1" := 0; "u2" := 0; "u3" := 1]} {["u1"; "u2"; "u3"; "u4"]} =
  {| lines := [("A", Js.Num 2); ("B", Js.Num 1)];
     outcome := Winner "A" (Js.Num 2);
     participation := Some (3, 4) |}.
Proof. vm_compute. reflexivity. Qed.

Example zero_votes :
  compile ["A"; "B"] ∅ ∅ =
  {| lines := [("A", Js.Num 0); ("B", Js.Num 0)];
     outcome := NoVotesCast;
     participation := None |}.
Proof. vm_compute. reflexivity. Qed.

(** An index outside the options makes [maxVotes] a [NaN]: no winner is
    reported. *)
Example stray_index :
  compile ["A"; "B"] {["u1" := 0; "u2" := 7]} ∅ =
  {| lines := [("A", Js.Num 1); ("B", Js.Num 0)];
     outcome := NoVotesCast;
     participation := None |}.
Proof. vm_compute. reflexivity. Qed.


(** ** The tally *)

Section tally.

Lemma counted_length n l : n ≤ length (counted n l).
Proof.
  induction l as [|kv l IH]; simpl.
  - by rewrite length_replicate.
  - unfold Js.incr_at. case_decide.
    + by rewrite length_alter.
    + rewrite length_app. lia.
Qed.

Lemma counted_length_in_range n l :
  Forall (λ kv, kv.2 < n) l → length (counted n l) = n.
Proof.
  induction 1 as [|kv l Hkv _ IH]; simpl.
  - by rewrite length_replicate.
  - unfold Js.incr_at. rewrite decide_True by (fold (counted n l); lia).
    by rewrite length_alter.
Qed.

(** A slot inside [options] holds the number of entries for it, whatever
    the other entries are. *)
Lemma counted_lookup n l i :
  i < n →
  counted n l !! i = Some (Js.Num (length (filter (λ kv, kv.2 = i) l))).
Proof.
  intros Hi. induction l as [|kv l IH]; simpl.
  - by rewrite lookup_replicate_2.
  - pose proof (counted_length n l) as Hlen. fold (counted n l).
    unfold Js.incr_at. case_decide as Hin.
    + destruct (decide (kv.2 = i)) as [Heq|Hne].
      * rewrite Heq, list_lookup_alter_eq, IH. rewrite filter_cons_True by done. done.
      * rewrite list_lookup_alter_ne by done. rewrite IH, filter_cons_False by done. done.
    + rewrite lookup_app_l by lia.
      rewrite filter_cons_False by lia. done.
Qed.

Lemma voteCounts_lookup opts vs i :
  i < length opts →
  voteCounts opts vs !! i = Some (Js.Num (Spec.votes_for vs i)).
Proof. apply counted_lookup. Qed.

Lemma voteCounts_in_range opts vs :
  in_range opts vs →
  voteCounts opts vs = Js.Num <$> Spec.counts opts vs.
Proof.
  intros Hrange.
  assert (length (voteCounts opts vs) = length opts) as Hlen.
  { apply counted_length_in_range, Forall_forall.
    intros [u i] Hui%elem_of_map_to_list. by apply (Hrange u i). }
  apply list_eq. intros i. unfold Spec.counts.
  rewrite !list_lookup_fmap.
  destruct (decide (i < length opts)) as [Hi|Hi].
  - rewrite voteCounts_lookup, lookup_seq_lt by done. done.
  - rewrite lookup_ge_None_2, lookup_seq_ge by lia. done.
Qed.

End tally.

Lemma Math_max_counts (ns : list nat) :
  Js.Math_max (Js.Num <$> ns) =
  match ns with [] => Js.NegInfinity | _ => Js.Num (max_list ns) end.
Proof.
  unfold Js.Math_max. induction ns as [|n ns IH]; [done|].
  rewrite fmap_cons. cbn [foldr]. rewrite IH.
  destruct ns; simpl; [by rewrite Nat.max_0_r|done].
Qed.

Lemma filter_iff_elem {A} (P1 P2 : A → Prop)
    `{!∀ x, Decision (P1 x), !∀ x, Decision (P2 x)} (l : list A) :
  (∀ x, x ∈ l → P1 x ↔ P2 x) → filter P1 l = filter P2 l.
Proof.
  induction l as [|a l IH]; intros Hiff; [done|].
  rewrite !filter_cons, IH by (intros; apply Hiff; by right).
  destruct (decide (P1 a)) as [HP|HP], (decide (P2 a)) as [HQ|HQ]; try done;
    exfalso; apply (Hiff a) in HP || apply (Hiff a) in HQ; done || by left.
Qed.

Lemma counts_nil opts vs : Spec.counts opts vs = [] → opts = [].
Proof.
  unfold Spec.counts. intros H%fmap_nil_inv.
  destruct opts; [done|discriminate].
Qed.

(** The winners that [endPoll] filters out are the options that the
    specification calls tied. *)
Lemma winners_tied opts vs :
  opts ≠ [] →
  winners opts (Js.Num <$> Spec.counts opts vs) (Js.Num (Spec.maxVotes opts vs))
  = Spec.tied opts vs.
Proof.
  intros Hne. unfold winners, Spec.tied. f_equal.
  apply filter_iff_elem. intros [i o] (j & o' & [= -> ->] & Hj)%elem_of_lookup_imap_1.
  simpl. apply lookup_lt_Some in Hj.
  unfold count_at, Spec.counts.
  rewrite list_lookup_fmap, list_lookup_fmap, lookup_seq_lt by done. simpl.
  by rewrite bool_decide_eq_true.
Qed.

(** ** C3: the result compiler *)

(** C3.  For a ledger whose option indices are in range, the results that
    [endPoll] compiles are those of the specification: each option is
    listed with the number of recorded votes for it; with [maxVotes] the
    largest count, the result is "no votes cast" when [maxVotes] is 0,
    the single option that reaches [maxVotes] as the winner when there is
    exactly one, and otherwise the tie of all options that reach it, in
    option order. *)
Theorem compile_as_specified opts vs eligible :
  in_range opts vs →
  lines (compile opts vs eligible)
    = imap (λ i o, (o, Js.Num (Spec.votes_for vs i))) opts
  ∧ outcome (compile opts vs eligible) = Spec.outcome opts vs.
Proof.
  intros Hrange. split.
  - unfold compile; simpl. apply imap_ext. intros i o Hi.
    apply lookup_lt_Some in Hi. unfold count_at.
    by rewrite voteCounts_lookup.
  - unfold compile, Spec.outcome; simpl.
    rewrite (voteCounts_in_range _ _ Hrange), Math_max_counts.
    destruct (Spec.counts opts vs) eqn:Hcounts.
    + apply counts_nil in Hcounts as ->. done.
    + rewrite <-Hcounts. fold (Spec.maxVotes opts vs).
      assert (opts ≠ []) as Hne by (intros ->; discriminate).
      simpl Js.gt0. rewrite (winners_tied _ _ Hne).
      destruct (decide (Spec.maxVotes opts vs = 0)) as [->|Hpos].
      * done.
      * rewrite bool_decide_true by lia.
        by destruct (Spec.tied opts vs) as [|w [|w' ws]].
Qed.

Lemma compile_as_specified_witness :
  in_range ["A"; "B"; "C"] tie_ledger
  ∧ lines (compile ["A"; "B"; "C"] tie_ledger ∅)
    = imap (λ i o, (o, Js.Num (Spec.votes_for tie_ledger i))) ["A"; "B"; "C"]
  ∧ outcome (compile ["A"; "B"; "C"] tie_ledger ∅)
    = Spec.outcome ["A"; "B"; "C"] tie_ledger.
Proof.
  assert (in_range ["A"; "B"; "C"] tie_ledger) as Hrange.
  { unfold in_range. refine (bool_decide_unpack _ _). vm_compute. exact I. }
  split; [exact Hrange|].
  exact (compile_as_specified ["A"; "B"; "C"] tie_ledger ∅ Hrange).
Defined.


(** ** The table stays consistent *)

Section consistency.

Implicit Types (w : World) (p : Poll).

Lemma NoDup_submseteq_inv {A} (l k : list A) : l ⊆+ k → NoDup k → NoDup l.
Proof.
  intros [k' ->]%submseteq_Permutation. rewrite NoDup_app. tauto.
Qed.

Lemma omap_delete_submseteq {A B} (f : A → option B) (l : list A) i :
  omap f (delete i l) ⊆+ omap f l.
Proof.
  destruct (submseteq_Permutation _ _ (submseteq_delete l i)) as [k Hk].
  rewrite Hk at 2. rewrite omap_app. by apply submseteq_inserts_r.
Qed.

Lemma frame_refl w : frame w w.
Proof. split; eauto. Qed.

Lemma frame_trans w1 w2 w3 : frame w1 w2 → frame w2 w3 → frame w1 w3.
Proof.
  intros [Hm1 Hs1 Hb1 Ht1 Hl1] [Hm2 Hs2 Hb2 Ht2 Hl2]. split.
  - congruence.
  - congruence.
  - intros b m' id pd Hb Hid.
    destruct (Hb2 _ _ _ _ Hb Hid) as (m & Hb' & Hid'). eauto.
  - by etrans.
  - eauto.
Qed.

Lemma frame_consistent w w' : frame w w' → consistent w → consistent w'.
Proof.
  intros [Hm Hs Hb Ht Hl] [He Hn Hp].
  assert (messages w' ⊆+ messages w) as Hsub.
  { unfold messages. rewrite Hm. by apply submseteq_skips_l. }
  split.
  - intros b m' id pd Hb' Hid'.
    destruct (Hb _ _ _ _ Hb' Hid') as (m & Hbw & Hidw).
    destruct (He _ _ _ _ Hbw Hidw) as (p & Hpd & <- & <-).
    assert ((message <$> polls w') !! pd = Some (message p)) as Hmsg
      by by rewrite Hm, list_lookup_fmap, Hpd.
    assert ((serverPolls <$> polls w') !! pd = Some (serverPolls p)) as Hsp
      by by rewrite Hs, list_lookup_fmap, Hpd.
    rewrite list_lookup_fmap in Hmsg. rewrite list_lookup_fmap in Hsp.
    destruct (polls w' !! pd) as [p'|]; simplify_eq/=. eauto.
  - by eapply NoDup_submseteq_inv.
  - intros msg Hin. destruct (Hp msg) as (o & Ho & Hposts).
    { by eapply elem_of_submseteq. }
    exists o. eauto.
Qed.

(** *** The elementary updates *)

Lemma frame_say o w : frame w (say o w).
Proof. split; simpl; eauto. intros. apply elem_of_app. by left. Qed.

Lemma frame_suspend t w : task_msg t = None → frame w (suspend t w).
Proof. intros Ht. split; simpl; eauto. by rewrite Ht. Qed.

Lemma frame_delete_task i w : frame w (upd_tasks (delete i) w).
Proof. split; simpl; eauto. apply omap_delete_submseteq. Qed.

Lemma frame_alter_poll (f : Poll → Poll) pd w :
  (∀ p, message (f p) = message p) →
  (∀ p, serverPolls (f p) = serverPolls p) →
  frame w (upd_polls (alter f pd) w).
Proof.
  intros Hm Hs. split; simpl; eauto.
  - rewrite (list_fmap_alter _ f id) by (apply Forall_forall; intros; apply Hm).
    by apply list_alter_id.
  - rewrite (list_fmap_alter _ f id) by (apply Forall_forall; intros; apply Hs).
    by apply list_alter_id.
Qed.

Lemma frame_delete_key id b w : frame w (upd_buckets (alter (delete id) b) w).
Proof.
  split; simpl; eauto. intros b' m' id' pd Hb' Hid'.
  rewrite list_lookup_alter in Hb'. case_decide as Hbb; [subst b'|eauto].
  destruct (buckets w !! b) as [m|] eqn:Hm; [|done].
  injection Hb' as <-. exists m. split; [done|].
  apply lookup_delete_Some in Hid'. tauto.
Qed.

Lemma frame_active f w : frame w (upd_active f w).
Proof. split; simpl; eauto. Qed.

Lemma frame_clearTimeout pd w : frame w (clearTimeout pd w).
Proof. by apply frame_alter_poll. Qed.

Lemma frame_stop c w : frame w (stop c w).
Proof. by apply frame_alter_poll. Qed.

(** *** The handlers *)

Lemma frame_after_endPoll k w : frame w (after_endPoll k w).
Proof. destruct k; simpl; auto using frame_refl, frame_stop, frame_say. Qed.

Lemma frame_endPoll msg pollId guild k w : frame w (endPoll msg pollId guild k w).
Proof.
  unfold endPoll. repeat case_match; auto using frame_after_endPoll, frame_refl.
  eapply frame_trans; [apply frame_say|]. by apply frame_suspend.
Qed.

Lemma frame_endPoll_edited b msg pollId guild r k w :
  frame w (endPoll_edited b msg pollId guild r k w).
Proof. eapply frame_trans; [apply frame_say|]. by apply frame_suspend. Qed.

Lemma frame_endPoll_replied b pollId guild k w :
  frame w (endPoll_replied b pollId guild k w).
Proof.
  unfold endPoll_replied.
  eapply frame_trans; [apply frame_delete_key|].
  eapply frame_trans; [|apply frame_after_endPoll].
  case_bool_decide; auto using frame_refl, frame_active.
Qed.

Lemma frame_collect c u i w : frame w (collect c u i w).
Proof.
  unfold collect. repeat case_match; auto using frame_refl, frame_say.
  eapply frame_trans; [|by apply frame_suspend].
  eapply frame_trans; [|by apply frame_say].
  by apply frame_alter_poll.
Qed.

Lemma frame_collect_replied c pd w : frame w (collect_replied c pd w).
Proof.
  unfold collect_replied. repeat case_match; auto using frame_refl.
  eapply frame_trans; [apply frame_clearTimeout|apply frame_endPoll].
Qed.

Lemma frame_timeout_fired pd w : frame w (timeout_fired pd w).
Proof.
  unfold timeout_fired. case_match; auto using frame_refl.
  eapply frame_trans; [|apply frame_endPoll]. by apply frame_alter_poll.
Qed.

Lemma frame_endExecute guild pollId w : frame w (endExecute guild pollId w).
Proof.
  unfold endExecute. repeat case_match; auto using frame_refl, frame_say.
  eapply frame_trans; [apply frame_clearTimeout|apply frame_endPoll].
Qed.

(** *** [execute] *)

Lemma fresh_not_posted msg w : fresh msg w = true → ¬ posted msg w.
Proof.
  unfold fresh. rewrite forallb_forall. intros Hfresh (o & Ho & Hposts).
  apply list_elem_of_In, Hfresh in Ho. by rewrite Hposts in Ho.
Qed.

Lemma task_msg_delete i t w :
  tasks w !! i = Some t →
  omap task_msg (tasks w) ≡ₚ omap task_msg (t :: delete i (tasks w)).
Proof. intros Hi. by rewrite <-(delete_Permutation _ _ _ Hi). Qed.

Lemma consistent_execute guild question optionsArg minutes ch msg members w :
  fresh msg w = true → consistent w →
  consistent (execute guild question optionsArg minutes ch msg members w).
Proof.
  intros Hfresh%fresh_not_posted Hw. unfold execute.
  repeat case_match; eauto using frame_consistent, frame_say.
  destruct Hw as [He Hn Hp].
  assert (messages (suspend
            (ExecutePosted guild question (parse_options optionsArg)
               (minutes * 60 * 1000) msg members)
            (say (PollPosted msg question (parse_options optionsArg)) w))
          ≡ₚ msg :: messages w) as Hperm.
  { unfold messages; simpl. by rewrite Permutation_middle. }
  split.
  - done.
  - rewrite Hperm. apply NoDup_cons. eauto.
  - intros m. rewrite Hperm. intros [->|Hin]%elem_of_cons.
    + exists (PollPosted msg question (parse_options optionsArg)). simpl.
      rewrite elem_of_app, list_elem_of_singleton, bool_decide_eq_true. eauto.
    + destruct (Hp m Hin) as (o & Ho & Hposts). exists o. simpl.
      rewrite elem_of_app. eauto.
Qed.

Lemma consistent_execute_posted i guild question opts duration msg members w :
  tasks w !! i = Some (ExecutePosted guild question opts duration msg members) →
  consistent w →
  consistent (execute_posted guild opts duration msg members
                (upd_tasks (delete i) w)).
Proof.
  intros Hi [He Hn Hp].
  set (w' := execute_posted _ _ _ _ _ _).
  assert (messages w' ≡ₚ messages w) as Hperm.
  { unfold messages, w', execute_posted. rewrite (task_msg_delete _ _ _ Hi).
    by case_match. }
  assert (polls w' = polls w) as Hpolls.
  { unfold w', execute_posted. by case_match. }
  assert (log w' = log w) as Hlog.
  { unfold w', execute_posted. by case_match. }
  split.
  - intros b m id pd Hb Hid. rewrite Hpolls. apply (He b m id pd); [|done].
    revert Hb. unfold w', execute_posted. case_match; simpl; [done|].
    intros [?|[_ Hl]]%lookup_app_Some; [done|].
    apply list_lookup_singleton_Some in Hl as [_ <-].
    by rewrite lookup_empty in Hid.
  - by rewrite Hperm.
  - intros m. rewrite Hperm. unfold posted. rewrite Hlog. apply Hp.
Qed.

Lemma consistent_execute_fetched i guild opts duration msg members w :
  tasks w !! i = Some (ExecuteFetched guild opts duration msg members) →
  consistent w →
  consistent (execute_fetched guild opts duration msg members
                (upd_tasks (delete i) w)).
Proof.
  intros Hi Hw. unfold execute_fetched. simpl.
  destruct (activePolls w !! guild) as [b|] eqn:Hb.
  2: { eapply frame_consistent; [|done].
       eapply frame_trans; [apply (frame_delete_task i)|apply frame_say]. }
  destruct Hw as [He Hn Hp].
  set (w' := say _ _).
  assert (messages w' ≡ₚ messages w) as Hperm.
  { unfold messages, w'; simpl. rewrite (task_msg_delete _ _ _ Hi); simpl.
    rewrite fmap_app; simpl. by rewrite <-app_assoc. }
  split.
  - intros b' m' id pd Hb' Hid. unfold w' in *; simpl in *.
    assert (∀ pd' p, polls w !! pd' = Some p →
                     (polls w ++ [mkPoll msg (Armed duration) opts ∅
                        (eligible_of members) true b guild]) !! pd' = Some p)
      as Hold by (intros; by apply lookup_app_l_Some).
    rewrite list_lookup_alter in Hb'. case_decide as Hbb.
    + subst b'. destruct (buckets w !! b) as [m|] eqn:Hm; [|done].
      injection Hb' as <-.
      apply lookup_insert_Some in Hid as [[<- <-]|[Hne Hid]].
      * eexists. split; [by rewrite lookup_app_r, Nat.sub_diag by done|done].
      * destruct (He _ _ _ _ Hm Hid) as (p & ? & ? & ?). eauto.
    + destruct (He _ _ _ _ Hb' Hid) as (p & ? & ? & ?). eauto.
  - by rewrite Hperm.
  - intros m Hin. rewrite Hperm in Hin.
    destruct (Hp m Hin) as (o & Ho & Hposts). exists o. simpl.
    rewrite elem_of_app. eauto.
Qed.

(** *** Every turn of the loop *)

Lemma consistent_resume i t w :
  tasks w !! i = Some t → consistent w →
  consistent (resume t (upd_tasks (delete i) w)).
Proof.
  intros Hi Hw. destruct t; simpl.
  - by eapply consistent_execute_posted.
  - by eapply consistent_execute_fetched.
  - eapply frame_consistent; [|done].
    eapply frame_trans; [apply (frame_delete_task i)|apply frame_collect_replied].
  - eapply frame_consistent; [|done].
    eapply frame_trans; [apply (frame_delete_task i)|apply frame_endPoll_edited].
  - eapply frame_consistent; [|done].
    eapply frame_trans; [apply (frame_delete_task i)|apply frame_endPoll_replied].
Qed.

Lemma consistent_handle e w :
  deliverable e w = true → consistent w → consistent (handle e w).
Proof.
  intros Hdel Hw. destruct e; simpl in *.
  - by apply consistent_execute.
  - eauto using frame_consistent, frame_endExecute.
  - eauto using frame_consistent, frame_collect.
  - eauto using frame_consistent, frame_timeout_fired.
  - eauto using frame_consistent, frame_stop.
  - destruct (tasks w !! i) eqn:Hi; [|done]. by apply consistent_resume.
Qed.

Lemma consistent_init : consistent init.
Proof.
  split.
  - intros b m id pd Hb. by destruct b.
  - constructor.
  - intros msg Hin. by apply elem_of_nil in Hin.
Qed.

(** The handler of a poll message finds the entry of that message. *)
Lemma collect_finds_own_entry w c closure pd :
  consistent w →
  polls w !! c = Some closure →
  bucket w (serverPolls closure) !! message closure = Some pd →
  pd = c.
Proof.
  intros [He Hn _] Hc Hpd. unfold bucket in Hpd.
  destruct (buckets w !! serverPolls closure) as [m|] eqn:Hm; simpl in Hpd;
    [|by rewrite lookup_empty in Hpd].
  destruct (He _ _ _ _ Hm Hpd) as (p & Hp & Hmsg & _).
  apply NoDup_app in Hn as [Hn _].
  apply (NoDup_lookup _ _ _ (message closure) Hn);
    rewrite list_lookup_fmap; [by rewrite Hp; simpl; f_equal|by rewrite Hc].
Qed.

End consistency.

(** ** The ledgers stay in order *)

Section ledgers.

Implicit Types (w : World) (p : Poll).

Lemma ledger_ok_set_timeout t p : ledger_ok p → ledger_ok (set_timeout t p).
Proof. done. Qed.

Lemma ledger_ok_set_collecting b p : ledger_ok p → ledger_ok (set_collecting b p).
Proof. done. Qed.

(** A vote for a shown button, by a voter who passed the eligibility
    check, keeps the ledger in order. *)
Lemma ledger_ok_set_votes u i p :
  i < length (options p) →
  (0 < size (eligibleVoters p) → u ∈ eligibleVoters p) →
  ledger_ok p → ledger_ok (set_votes (<[u:=i]> (votes p)) p).
Proof.
  intros Hi Hu [Hrange Helig]. split.
  - by apply map_Forall_insert_2.
  - intros Hpos. simpl in *. rewrite dom_insert_L.
    intros x [->%elem_of_singleton|Hx]%elem_of_union; [by apply Hu|].
    by apply (Helig Hpos).
Qed.

Lemma ledgers_ok_clearTimeout pd w : ledgers_ok w → ledgers_ok (clearTimeout pd w).
Proof.
  intros Hok. apply Forall_alter; [exact Hok|].
  intros p _. apply ledger_ok_set_timeout.
Qed.

Lemma ledgers_ok_stop c w : ledgers_ok w → ledgers_ok (stop c w).
Proof.
  intros Hok. apply Forall_alter; [exact Hok|].
  intros p _. apply ledger_ok_set_collecting.
Qed.

Lemma ledgers_ok_after_endPoll k w : ledgers_ok w → ledgers_ok (after_endPoll k w).
Proof. destruct k; simpl; auto using ledgers_ok_stop. Qed.

Lemma ledgers_ok_endPoll msg pollId guild k w :
  ledgers_ok w → ledgers_ok (endPoll msg pollId guild k w).
Proof.
  intros H. unfold endPoll.
  repeat case_match; auto using ledgers_ok_after_endPoll.
Qed.

Lemma ledgers_ok_endPoll_replied b pollId guild k w :
  ledgers_ok w → ledgers_ok (endPoll_replied b pollId guild k w).
Proof.
  intros H. unfold endPoll_replied.
  apply ledgers_ok_after_endPoll. by case_bool_decide.
Qed.

Lemma ledgers_ok_collect_replied c pd w :
  ledgers_ok w → ledgers_ok (collect_replied c pd w).
Proof.
  intros H. unfold collect_replied.
  repeat case_match; auto using ledgers_ok_endPoll, ledgers_ok_clearTimeout.
Qed.

Lemma ledgers_ok_timeout_fired pd w :
  ledgers_ok w → ledgers_ok (timeout_fired pd w).
Proof.
  intros H. unfold timeout_fired. case_match; [|done].
  apply ledgers_ok_endPoll, Forall_alter; [done|].
  auto using ledger_ok_set_timeout.
Qed.

Lemma ledgers_ok_endExecute guild pollId w :
  ledgers_ok w → ledgers_ok (endExecute guild pollId w).
Proof.
  intros H. unfold endExecute.
  repeat case_match; auto using ledgers_ok_endPoll, ledgers_ok_clearTimeout.
Qed.

Lemma ledgers_ok_execute guild question optionsArg minutes ch msg members w :
  ledgers_ok w →
  ledgers_ok (execute guild question optionsArg minutes ch msg members w).
Proof. intros H. unfold execute. by repeat case_match. Qed.

Lemma ledgers_ok_execute_posted guild opts duration msg members w :
  ledgers_ok w → ledgers_ok (execute_posted guild opts duration msg members w).
Proof. intros H. unfold execute_posted. by case_match. Qed.

(** A new entry starts with an empty ledger. *)
Lemma ledgers_ok_execute_fetched guild opts duration msg members w :
  ledgers_ok w → ledgers_ok (execute_fetched guild opts duration msg members w).
Proof.
  intros H. unfold execute_fetched. case_match; [|done].
  apply Forall_app_2; [done|]. apply Forall_singleton. split.
  - apply map_Forall_empty.
  - intros _. simpl. by rewrite dom_empty_L.
Qed.

(** The click is on a button of the handler's own message, so the index is
    in the range of the options of the entry that the handler finds. *)
Lemma ledgers_ok_collect c u i w :
  deliverable (Button c u i) w = true → consistent w →
  ledgers_ok w → ledgers_ok (collect c u i w).
Proof.
  intros Hdel Hw H. unfold collect. simpl in Hdel.
  destruct (polls w !! c) as [closure|] eqn:Hc; [|done].
  apply andb_prop in Hdel as [_ Hi%bool_decide_eq_true].
  destruct (bucket w (serverPolls closure) !! message closure) as [pd|] eqn:Hpd;
    [|done].
  assert (pd = c) as -> by eauto using collect_finds_own_entry.
  rewrite Hc.
  destruct (bool_decide (0 < size (eligibleVoters closure))
            && negb (bool_decide (u ∈ eligibleVoters closure))) eqn:Hcheck; [done|].
  apply Forall_alter; [done|]. intros p Hp Hok.
  assert (p = closure) as -> by congruence.
  apply ledger_ok_set_votes; [done| |done].
  intros Hpos. rewrite bool_decide_true in Hcheck by done.
  simpl in Hcheck. apply negb_false_iff in Hcheck.
  by apply bool_decide_eq_true in Hcheck.
Qed.

Lemma ledgers_ok_handle e w :
  deliverable e w = true → consistent w →
  ledgers_ok w → ledgers_ok (handle e w).
Proof.
  intros Hdel Hw H. destruct e; simpl.
  - by apply ledgers_ok_execute.
  - by apply ledgers_ok_endExecute.
  - by apply ledgers_ok_collect.
  - by apply ledgers_ok_timeout_fired.
  - by apply ledgers_ok_stop.
  - destruct (tasks w !! i) as [t|]; [|done].
    assert (ledgers_ok (upd_tasks (delete i) w)) as H' by done.
    destruct t; simpl;
      auto using ledgers_ok_execute_posted, ledgers_ok_execute_fetched,
        ledgers_ok_collect_replied, ledgers_ok_endPoll_replied.
Qed.

End ledgers.

(** ** No reference dangles *)

Section references.

Implicit Types (w : World) (p : Poll).





















End references.

(** ** Reachable states *)

(** Induction over the turns of the loop. *)
Lemma run_invariant (P : World → Prop) :
  (∀ e w, deliverable e w = true → P w → P (handle e w)) →
  ∀ es w w', P w → run es w = Some w' → P w'.
Proof.
  intros Hstep es. induction es as [|e es IH]; intros w w' Hw Hrun; simpl in *.
  - by simplify_eq.
  - unfold step in Hrun. destruct (deliverable e w) eqn:Hdel; [|done].
    simpl in Hrun. eauto.
Qed.

Lemma reachable_invariant (P : World → Prop) :
  P init →
  (∀ e w, deliverable e w = true → P w → P (handle e w)) →
  ∀ w, reachable w → P w.
Proof. intros Hinit Hstep w [es Hrun]. by eapply run_invariant. Qed.

Lemma reachable_consistent w : reachable w → consistent w.
Proof.
  apply reachable_invariant; auto using consistent_init, consistent_handle.
Qed.


Lemma reachable_ledgers_ok w : reachable w → ledgers_ok w.
Proof.
  intros Hw.
  cut (consistent w ∧ ledgers_ok w); [tauto|].
  revert w Hw. apply reachable_invariant.
  - split; [apply consistent_init|constructor].
  - intros e w Hdel [? ?].
    auto using consistent_handle, ledgers_ok_handle.
Qed.

Lemma size_pos_non_empty (X : gset string) : X ≠ ∅ → 0 < size X.
Proof.
  intros Hne. destruct (decide (size X = 0)) as [H0|]; [|lia].
  apply size_empty_iff in H0. by apply leibniz_equiv in H0.
Qed.

(** ** C5: stored option indices *)




(** ** C6: no more votes than eligible voters *)

(** C6.  In every reachable state, a session whose set of eligible voters
    is not empty holds at most as many votes as there are eligible
    voters. *)
Theorem votes_at_most_eligible w pd p :
  reachable w →
  polls w !! pd = Some p →
  eligibleVoters p ≠ ∅ →
  size (votes p) ≤ size (eligibleVoters p).
Proof.
  intros Hw%reachable_ledgers_ok Hp Hne.
  destruct (proj1 (Forall_lookup _ _) Hw pd p Hp) as [_ Helig].
  rewrite <-size_dom. by apply subseteq_size, Helig, size_pos_non_empty.
Qed.

Lemma votes_at_most_eligible_witness :
  eligibleVoters (set_votes {["ann" := 1; "bob" := 0]} lunch) ≠ ∅
  ∧ size (votes (set_votes {["ann" := 1; "bob" := 0]} lunch))
    ≤ size (eligibleVoters (set_votes {["ann" := 1; "bob" := 0]} lunch)).
Proof.
  assert (eligibleVoters (set_votes {["ann" := 1; "bob" := 0]} lunch) ≠ ∅)
    as Hne.
  { refine (bool_decide_unpack _ _). vm_compute. exact I. }
  split; [exact Hne|].
  exact (votes_at_most_eligible two_voted 0 _ two_voted_reachable eq_refl Hne).
Defined.


(** ** C7: votes of voters who are not eligible *)

(** C7.  When the set of eligible voters of a session is not empty, a
    click by a voter outside it is answered with the "no permission"
    reply and nothing else happens: the ledger, like the rest of the
    state, is unchanged. *)
Theorem ineligible_vote_rejected w c closure pd pollData u i :
  polls w !! c = Some closure →
  bucket w (serverPolls closure) !! message closure = Some pd →
  polls w !! pd = Some pollData →
  eligibleVoters pollData ≠ ∅ →
  u ∉ eligibleVoters pollData →
  handle (Button c u i) w = say (Reply NoPermission) w
  ∧ polls (handle (Button c u i) w) = polls w.
Proof.
  intros Hc Hpd Hp Hne Hu.
  assert (handle (Button c u i) w = say (Reply NoPermission) w) as ->; [|done].
  simpl. unfold collect. rewrite Hc, Hpd, Hp.
  apply size_pos_non_empty in Hne.
  rewrite bool_decide_true by done. by rewrite bool_decide_false.
Qed.

Lemma ineligible_vote_rejected_witness :
  ("dan" ∉ eligibleVoters lunch)
  ∧ handle (Button 0 "dan" 1) opened = say (Reply NoPermission) opened
  ∧ polls (handle (Button 0 "dan" 1) opened) = polls opened.
Proof.
  assert (eligibleVoters lunch ≠ ∅) as Hne.
  { refine (bool_decide_unpack _ _). vm_compute. exact I. }
  assert ("dan" ∉ eligibleVoters lunch) as Hdan.
  { refine (bool_decide_unpack _ _). vm_compute. exact I. }
  assert (bucket opened (serverPolls lunch) !! message lunch = Some 0) as Hfound
    by (vm_compute; reflexivity).
  split; [exact Hdan|].
  exact (ineligible_vote_rejected opened 0 lunch 0 lunch "dan" 1
           eq_refl Hfound eq_refl Hne Hdan).
Defined.


(** ** C8: changing a vote *)

Lemma filter_key_NoDup {A} (l : list (string * A)) u x :
  NoDup l.*1 → (u, x) ∈ l → filter (λ kv, kv.1 = u) l = [(u, x)].
Proof.
  induction l as [|[k y] l IH]; intros Hnd Hin; [by apply elem_of_nil in Hin|].
  simpl in Hnd. apply NoDup_cons in Hnd as [Hk Hnd].
  apply elem_of_cons in Hin as [[= <- <-]|Hin].
  - rewrite filter_cons_True by done. f_equal.
    destruct (filter (λ kv, kv.1 = u) l) as [|[k' y'] ?] eqn:Hf; [done|].
    assert ((k', y') ∈ filter (λ kv, kv.1 = u) l) as Hin
      by (rewrite Hf; by left).
    apply list_elem_of_filter in Hin as [Hu Hin]. simpl in Hu. subst k'.
    exfalso. apply Hk, list_elem_of_fmap. by exists (u, y').
  - rewrite filter_cons_False; [by apply IH|].
    simpl. intros ->. apply Hk, list_elem_of_fmap. by exists (u, x).
Qed.

(** C8.  In a reachable state, when a voter who has a recorded vote in an
    open session (one that the handler of its message finds) clicks
    again, the option index of the click replaces the recorded one: the
    ledger does not grow, the votes of the others are as before, and the
    voter has exactly one entry in the ledger. *)
Theorem vote_change_overwrites w c closure pd pollData u old i :
  reachable w →
  polls w !! c = Some closure →
  bucket w (serverPolls closure) !! message closure = Some pd →
  polls w !! pd = Some pollData →
  votes pollData !! u = Some old →
  ∃ p', polls (handle (Button c u i) w) !! pd = Some p'
        ∧ votes p' !! u = Some i
        ∧ (∀ u', u' ≠ u → votes p' !! u' = votes pollData !! u')
        ∧ size (votes p') = size (votes pollData)
        ∧ filter (λ kv, kv.1 = u) (map_to_list (votes p')) = [(u, i)].
Proof.
  intros Hw%reachable_ledgers_ok Hc Hpd Hp Hold.
  destruct (proj1 (Forall_lookup _ _) Hw pd pollData Hp) as [_ Helig].
  exists (set_votes (<[u:=i]> (votes pollData)) pollData).
  split; [|split; [|split; [|split]]]; simpl.
  - unfold collect. rewrite Hc, Hpd, Hp.
    destruct (bool_decide (0 < size (eligibleVoters pollData))) eqn:Hpos; simpl.
    + apply bool_decide_eq_true in Hpos.
      rewrite bool_decide_true; simpl.
      * by rewrite list_lookup_alter_eq, Hp.
      * apply (Helig Hpos), elem_of_dom. eauto.
    + by rewrite list_lookup_alter_eq, Hp.
  - apply lookup_insert_eq.
  - intros u' Hne. by apply lookup_insert_ne.
  - by apply map_size_insert_Some.
  - apply filter_key_NoDup; [apply NoDup_fst_map_to_list|].
    apply elem_of_map_to_list, lookup_insert_eq.
Qed.

Lemma vote_change_overwrites_witness :
  ∃ p', polls (handle (Button 0 "ann" 0) two_voted) !! 0 = Some p'
        ∧ votes p' !! "ann" = Some 0
        ∧ (∀ u', u' ≠ "ann" →
             votes p' !! u' = ({["ann" := 1; "bob" := 0]} : gmap string nat) !! u')
        ∧ size (votes p') = size ({["ann" := 1; "bob" := 0]} : gmap string nat)
        ∧ filter (λ kv, kv.1 = "ann") (map_to_list (votes p')) = [("ann", 0)].
Proof.
  assert (bucket two_voted 0 !! "m1" = Some 0) as Hfound
    by (vm_compute; reflexivity).
  assert (({["ann" := 1; "bob" := 0]} : gmap string nat) !! "ann" = Some 1)
    as Hann by (vm_compute; reflexivity).
  exact (vote_change_overwrites two_voted 0
           (set_votes {["ann" := 1; "bob" := 0]} lunch) 0
           (set_votes {["ann" := 1; "bob" := 0]} lunch) "ann" 1 0
           two_voted_reachable eq_refl Hfound eq_refl Hann).
Defined.

(** ** C4 and C10: full participation *)

Lemma step_resume_suspended t w : step (Resume 0) (suspend t w) = Some (resume t w).
Proof.
  by destruct w.
Qed.

Lemma step_button c p u i w :
  polls w !! c = Some p → collecting p = true → i < length (options p) →
  step (Button c u i) w = Some (collect c u i w).
Proof.
  intros Hc Hcol Hi. unfold step. simpl. rewrite Hc, Hcol.
  by rewrite bool_decide_true.
Qed.

Section full_participation.

Context (w : World) (c : nat) (p : Poll) (u : string) (i : nat).

(** The session is open: its entry is in the table under its guild and
    its message, the bucket is the one that the handler captured, the
    collector listens. *)
Hypothesis Hentry : polls w !! c = Some p.
Hypothesis Hguild : activePolls w !! guildId p = Some (serverPolls p).
Hypothesis Hstored : bucket w (serverPolls p) !! message p = Some c.
Hypothesis Hcollecting : collecting p = true.
Hypothesis Hbutton : i < length (options p).
(** The voter is eligible, and with this vote everyone has voted. *)
Hypothesis Heligible : u ∈ eligibleVoters p.
Hypothesis Hfull : size (<[u:=i]> (votes p)) = size (eligibleVoters p).


End full_participation.








(** ** C1: closing once *)

(** A call of [endPoll] for a session that has left the table does
    nothing but return to its caller. *)
Lemma endPoll_after_removal msg pollId guild k w :
  (∀ b, activePolls w !! guild = Some b → bucket w b !! pollId = None) →
  endPoll msg pollId guild k w = after_endPoll k w.
Proof.
  intros Hgone. unfold endPoll.
  destruct (activePolls w !! guild) as [b|]; [|done].
  by rewrite (Hgone b).
Qed.

(** A manual close of a session that has left the table only answers
    that there is no such poll. *)
Lemma endExecute_after_removal guild pollId w :
  (∀ b, activePolls w !! guild = Some b → bucket w b !! pollId = None) →
  ∃ r, endExecute guild (Some pollId) w = say (Reply r) w.
Proof.
  intros Hgone. unfold endExecute.
  destruct (activePolls w !! guild) as [b|]; [|by eexists].
  simpl. rewrite (Hgone b) by done. repeat case_match; by eexists.
Qed.

(** C1, at the failing schedule.  The timer of a poll fires and, while
    its call of [endPoll] awaits [message.edit], the poll is closed by
    hand: the second call of [endPoll] still finds the entry, and the
    results are posted twice. *)
Theorem close_race_posts_twice :
  ∃ w, run close_race init = Some w
       ∧ publications "m1" w = 2
       ∧ log w =
           [PollPosted "m1" "Lunch?" ["A"; "B"]; Reply (PollCreated "m1" 3);
            PollMarkedEnded "m1"; PollMarkedEnded "m1";
            ResultsPosted "m1" (compile ["A"; "B"] ∅ {["ann"; "bob"; "cat"]});
            ResultsPosted "m1" (compile ["A"; "B"] ∅ {["ann"; "bob"; "cat"]});
            Reply (EndedManually "m1")].
Proof.
  eexists. split; [vm_compute; reflexivity|].
  split; vm_compute; reflexivity.
Qed.

(** The second call of [endPoll] of such a race ends after a new poll has
    been opened in the guild: finding its own, stale bucket empty, it
    deletes the guild from [activePolls].  The new poll is still in its
    bucket, but [endPoll] no longer finds it: when its timer fires, no
    results are posted. *)
Lemma stale_close_orphans_poll :
  ∃ w w', run stale_close init = Some w
          ∧ activePolls w = ∅
          ∧ bucket w 1 !! "m2" = Some 1
          ∧ step (TimerFire 1) w = Some w'
          ∧ log w' = log w
          ∧ tasks w' = []
          ∧ publications "m2" w' = 0.
Proof.
  eexists _, _. split; [vm_compute; reflexivity|].
  split; [vm_compute; reflexivity|]. split; [vm_compute; reflexivity|].
  split; [vm_compute; reflexivity|]. split; [vm_compute; reflexivity|].
  split; vm_compute; reflexivity.
Qed.

(** ** C2: a click for a session that is gone *)

(** The handler does not check that the entry exists: reading
    [pollData.eligibleVoters] throws. *)
Lemma collect_after_removal w c closure u i :
  polls w !! c = Some closure →
  bucket w (serverPolls closure) !! message closure = None →
  handle (Button c u i) w = say ThrownTypeError w.
Proof. intros Hc Hgone. simpl. unfold collect. by rewrite Hc, Hgone. Qed.

(** C2, at the failing input.  After a manual close the collector still
    listens; a click then makes the handler throw a [TypeError]: the
    voter gets no reply, and no ledger is changed. *)
Theorem click_after_manual_close :
  ∃ w0 w, run manual_close init = Some w0
          ∧ step (Button 0 "ann" 0) w0 = Some w
          ∧ log w = log w0 ++ [ThrownTypeError]
          ∧ polls w = polls w0.
Proof.
  eexists _, _. split; [vm_compute; reflexivity|].
  split; [vm_compute; reflexivity|].
  split; vm_compute; reflexivity.
Qed.

(** A click that arrives while [endPoll] awaits finds the entry: the vote
    is acknowledged and stored, after the results were compiled. *)
Lemma late_click_recorded_not_counted :
  ∃ w p, run late_click init = Some w
         ∧ polls w !! 0 = Some p
         ∧ votes p !! "ann" = Some 1
         ∧ log w =
             [PollPosted "m1" "Lunch?" ["A"; "B"]; Reply (PollCreated "m1" 3);
              PollMarkedEnded "m1"; Reply (VoteRecorded (Some "B"));
              ResultsPosted "m1" (compile ["A"; "B"] ∅ {["ann"; "bob"; "cat"]})].
Proof.
  eexists _, _. split; [vm_compute; reflexivity|].
  split; [vm_compute; reflexivity|]. split; vm_compute; reflexivity.
Qed.

(** ** C5: the handler and the option index *)


(** ** C9: the checks of [execute] *)

(** C9, as stated, fails: a poll with a negative duration is posted and
    stored, its timer armed. *)
Lemma negative_duration_accepted :
  Spec.invalid_duration (-1) = true
  ∧ handle (VoteCmd "guild" "Lunch?" "A, B" (-1) GuildText "m1" squad) init
    = suspend (ExecutePosted "guild" "Lunch?" ["A"; "B"] (-60000) "m1" squad)
        (say (PollPosted "m1" "Lunch?" ["A"; "B"]) init)
  ∧ ∃ w, run [VoteCmd "guild" "Lunch?" "A, B" (-1) GuildText "m1" squad;
              Resume 0; Resume 0] init = Some w
         ∧ polls w = [set_timeout (Armed (-60000)) lunch]
         ∧ activePolls w !! "guild" = Some 0
         ∧ bucket w 0 !! "m1" = Some 0.
Proof.
  split; [done|]. split; [vm_compute; reflexivity|].
  eexists. split; [vm_compute; reflexivity|].
  split; [vm_compute; reflexivity|]. split; vm_compute; reflexivity.
Qed.

(** C9, as amended.  A [vote] command with fewer than two or more than
    five options is answered at once with the matching refusal, and
    nothing else happens: no entry, no bucket, no timer, no suspended
    call. *)
Theorem bad_option_count_rejected guild question optionsArg minutes ch msg
    members w :
  length (parse_options optionsArg) < 2 ∨ 5 < length (parse_options optionsArg) →
  ∃ r, (r = NeedTwoOptions ∨ r = AtMostFiveOptions)
       ∧ handle (VoteCmd guild question optionsArg minutes ch msg members) w
         = say (Reply r) w
       ∧ activePolls (say (Reply r) w) = activePolls w
       ∧ buckets (say (Reply r) w) = buckets w
       ∧ polls (say (Reply r) w) = polls w
       ∧ tasks (say (Reply r) w) = tasks w.
Proof.
  intros Hcount. simpl. unfold execute.
  case_bool_decide.
  - exists NeedTwoOptions. repeat split; auto.
  - rewrite bool_decide_true by lia.
    exists AtMostFiveOptions. repeat split; auto.
Qed.

Lemma bad_option_count_rejected_witness :
  length (parse_options "A") < 2
  ∧ ∃ r, (r = NeedTwoOptions ∨ r = AtMostFiveOptions)
         ∧ handle (VoteCmd "guild" "Lunch?" "A" 5 GuildText "m2" squad) opened
           = say (Reply r) opened
         ∧ activePolls (say (Reply r) opened) = activePolls opened
         ∧ buckets (say (Reply r) opened) = buckets opened
         ∧ polls (say (Reply r) opened) = polls opened
         ∧ tasks (say (Reply r) opened) = tasks opened.
Proof.
  assert (length (parse_options "A") < 2) as Hone by (vm_compute; lia).
  split; [exact Hone|].
  exact (bad_option_count_rejected "guild" "Lunch?" "A" 5 GuildText "m2" squad
           opened (or_introl Hone)).
Defined.


(** * Further properties of the poll commands *)

(** ** Closing by the timer and by hand *)

Lemma bucket_after_delete w b id :
  bucket (upd_buckets (alter (delete id) b) w) b = delete id (bucket w b).
Proof.
  unfold bucket. simpl. rewrite list_lookup_alter_eq.
  destruct (buckets w !! b); simpl; [done|]. by rewrite delete_empty.
Qed.

Section closing.

Context (w : World) (c : nat) (p : Poll).

Hypothesis Hentry : polls w !! c = Some p.

(** [endPoll], started in a state where it finds entry [c] under [guild]
    and [pollId], and run to its end with nothing in between. *)
Lemma endPoll_run msg pollId guild b k :
  activePolls w !! guild = Some b →
  bucket w b !! pollId = Some c →
  ∃ w1 w2,
    endPoll msg pollId guild k w = suspend (EndPollEdited b msg pollId guild
        (compile (options p) (votes p) (eligibleVoters p)) k) w1
    ∧ run [Resume 0; Resume 0] (endPoll msg pollId guild k w) = Some (after_endPoll k w2)
    ∧ polls w2 = polls w
    ∧ buckets w2 = alter (delete pollId) b (buckets w)
    ∧ activePolls w2 = (if bool_decide (size (bucket w b) = 1)
                        then delete guild (activePolls w) else activePolls w)
    ∧ tasks w2 = tasks w
    ∧ log w2 = log w ++ [PollMarkedEnded msg;
                         ResultsPosted msg
                           (compile (options p) (votes p) (eligibleVoters p))].
Proof.
  intros Hguild Hstored.
  assert (size (delete pollId (bucket w b)) = 0 ↔ size (bucket w b) = 1) as Hsize.
  { rewrite <-(insert_id (bucket w b) pollId c) at 2 by done.
    rewrite <-insert_delete_eq, map_size_insert_None by apply lookup_delete_eq.
    lia. }
  eexists _, _. split.
  { unfold endPoll. by rewrite Hguild, Hstored, Hentry. }
  unfold endPoll. rewrite Hguild, Hstored, Hentry.
  cbn [run]. rewrite step_resume_suspended. cbn [mbind option_bind resume].
  unfold endPoll_edited. rewrite step_resume_suspended.
  cbn [mbind option_bind resume]. unfold endPoll_replied.
  rewrite bucket_after_delete.
  change (bucket (say _ (say _ w)) b) with (bucket w b).
  split; [reflexivity|].
  case_bool_decide as Hd; apply Hsize in Hd || rewrite Hsize in Hd;
    [rewrite bool_decide_true by done|rewrite bool_decide_false by done];
    simpl; by rewrite <-?app_assoc.
Qed.

End closing.

(** When the timer of an open session fires and [endPoll] runs to its end
    with nothing in between, the results compiled from the ledger are
    posted once and the entry leaves its bucket; the guild leaves
    [activePolls] exactly when this was its only poll.  The ledger is as it
    was, and the collector is left as it was. *)
Theorem timer_closes_session w c p d :
  polls w !! c = Some p →
  activePolls w !! guildId p = Some (serverPolls p) →
  bucket w (serverPolls p) !! message p = Some c →
  timeout p = Armed d →
  ∃ w' p',
    run [TimerFire c; Resume 0; Resume 0] w = Some w'
    ∧ polls w' !! c = Some p'
    ∧ timeout p' = Fired
    ∧ votes p' = votes p
    ∧ collecting p' = collecting p
    ∧ bucket w' (serverPolls p) !! message p = None
    ∧ activePolls w' !! guildId p
      = (if bool_decide (size (bucket w (serverPolls p)) = 1)
         then None else Some (serverPolls p))
    ∧ log w' = log w ++ [PollMarkedEnded (message p);
                         ResultsPosted (message p)
                           (compile (options p) (votes p) (eligibleVoters p))].
Proof.
  intros Hentry Hguild Hstored Harmed.
  set (w0 := upd_polls (alter (set_timeout Fired) c) w).
  assert (polls w0 !! c = Some (set_timeout Fired p)) as Hentry0.
  { unfold w0. simpl. by rewrite list_lookup_alter_eq, Hentry. }
  destruct (endPoll_run w0 c _ Hentry0 (message p) (message p) (guildId p)
              (serverPolls p) KTimer Hguild Hstored)
    as (w1 & w2 & _ & Hrun & Hp & Hb & Ha & _ & Hl).
  exists w2, (set_timeout Fired p).
  split.
  { cbn [run]. unfold step. simpl. rewrite Hentry, Harmed. simpl.
    unfold timeout_fired. rewrite Hentry. exact Hrun. }
  split; [by rewrite Hp|]. do 3 (split; [done|]).
  split; [|split; [|done]].
  - unfold bucket. rewrite Hb. simpl. rewrite list_lookup_alter_eq.
    destruct (buckets w !! serverPolls p); simpl; [|done].
    apply lookup_delete_eq.
  - rewrite Ha. clear Ha.
    change (bucket w0 (serverPolls p)) with (bucket w (serverPolls p)).
    case_bool_decide; [apply lookup_delete_eq|exact Hguild].
Qed.

Lemma timer_closes_session_witness :
  ∃ w' p',
    run [TimerFire 0; Resume 0; Resume 0] two_voted = Some w'
    ∧ polls w' !! 0 = Some p'
    ∧ timeout p' = Fired
    ∧ votes p' = {["ann" := 1; "bob" := 0]}
    ∧ collecting p' = true
    ∧ bucket w' 0 !! "m1" = None
    ∧ activePolls w' !! "guild"
      = (if bool_decide (size (bucket two_voted 0) = 1) then None else Some 0)
    ∧ log w' = log two_voted ++
        [PollMarkedEnded "m1";
         ResultsPosted "m1"
           (compile ["A"; "B"] {["ann" := 1; "bob" := 0]} {["ann"; "bob"; "cat"]})].
Proof.
  assert (activePolls two_voted !! "guild" = Some 0) as Hguild
    by (vm_compute; reflexivity).
  assert (bucket two_voted 0 !! "m1" = Some 0) as Hfound
    by (vm_compute; reflexivity).
  exact (timer_closes_session two_voted 0
           (set_votes {["ann" := 1; "bob" := 0]} lunch) 300000
           eq_refl Hguild Hfound eq_refl).
Defined.

(** [/endpoll poll_id:...] for a stored poll, run to its end with nothing
    in between: the timer is cleared, the results compiled from the ledger
    are posted once, the entry leaves its bucket and the caller is told
    so.  A second [/endpoll] for the same id then only answers that there
    is no such poll. *)
Theorem manual_close_then_no_poll w guild pollId b pd p :
  pollId ≠ "" →
  activePolls w !! guild = Some b →
  bucket w b !! pollId = Some pd →
  polls w !! pd = Some p →
  ∃ w' p' r,
    run [EndCmd guild (Some pollId); Resume 0; Resume 0] w = Some w'
    ∧ polls w' !! pd = Some p'
    ∧ timeout p' = clear (timeout p)
    ∧ votes p' = votes p
    ∧ bucket w' b !! pollId = None
    ∧ log w' = log w ++ [PollMarkedEnded (message p);
                         ResultsPosted (message p)
                           (compile (options p) (votes p) (eligibleVoters p));
                         Reply (EndedManually pollId)]
    ∧ handle (EndCmd guild (Some pollId)) w' = say (Reply r) w'
    ∧ (r = NoActivePolls ∨ r = NoPollWithId pollId).
Proof.
  intros Hid Hguild Hstored Hentry.
  set (w0 := clearTimeout pd w).
  assert (polls w0 !! pd = Some (set_timeout (clear (timeout p)) p)) as Hentry0.
  { unfold w0. simpl. by rewrite list_lookup_alter_eq, Hentry. }
  destruct (endPoll_run w0 pd _ Hentry0 (message p) pollId guild b
              (KEndExecute pollId) Hguild Hstored)
    as (w1 & w2 & _ & Hrun & Hp & Hb & Ha & _ & Hl).
  assert (size (bucket w b) ≠ 0) as Hsize.
  { intros Hz%map_size_empty_iff. by rewrite Hz, lookup_empty in Hstored. }
  assert (bucket w2 b = delete pollId (bucket w b)) as Hbucket.
  { unfold bucket. rewrite Hb. simpl. rewrite list_lookup_alter_eq.
    destruct (buckets w !! b); simpl; [done|]. by rewrite delete_empty. }
  assert (size (delete pollId (bucket w b)) = 0 ↔ size (bucket w b) = 1) as Hone.
  { rewrite <-(insert_id (bucket w b) pollId pd) at 2 by done.
    rewrite <-insert_delete_eq, map_size_insert_None by apply lookup_delete_eq.
    lia. }
  exists (after_endPoll (KEndExecute pollId) w2), (set_timeout (clear (timeout p)) p).
  assert (∃ r, endExecute guild (Some pollId) (after_endPoll (KEndExecute pollId) w2)
               = say (Reply r) (after_endPoll (KEndExecute pollId) w2)
               ∧ (r = NoActivePolls ∨ r = NoPollWithId pollId)) as (r & Hr & Hcase).
  { unfold endExecute. simpl. rewrite Ha. clear Ha.
    change (bucket w0 b) with (bucket w b).
    case_bool_decide as H1.
    - rewrite lookup_delete_eq. eauto.
    - change (activePolls w0) with (activePolls w). rewrite Hguild.
      change (bucket (say _ w2) b) with (bucket w2 b). rewrite Hbucket.
      rewrite bool_decide_false by (by rewrite Hone).
      rewrite bool_decide_false by done. rewrite lookup_delete_eq. eauto. }
  exists r. split.
  { cbn [run]. unfold step. simpl. unfold endExecute.
    rewrite Hguild. rewrite (bool_decide_false _ Hsize). simpl.
    rewrite (bool_decide_false _ Hid). rewrite Hstored, Hentry. exact Hrun. }
  split; [by simpl; rewrite Hp|]. do 2 (split; [done|]).
  split; [by change (bucket (after_endPoll (KEndExecute pollId) w2) b)
               with (bucket w2 b); rewrite Hbucket, lookup_delete_eq|].
  split; [by simpl; rewrite Hl, <-app_assoc|]. done.
Qed.

Lemma manual_close_then_no_poll_witness :
  ∃ w' p' r,
    run [EndCmd "guild" (Some "m1"); Resume 0; Resume 0] two_voted = Some w'
    ∧ polls w' !! 0 = Some p'
    ∧ timeout p' = Cleared
    ∧ votes p' = {["ann" := 1; "bob" := 0]}
    ∧ bucket w' 0 !! "m1" = None
    ∧ log w' = log two_voted ++
        [PollMarkedEnded "m1";
         ResultsPosted "m1"
           (compile ["A"; "B"] {["ann" := 1; "bob" := 0]} {["ann"; "bob"; "cat"]});
         Reply (EndedManually "m1")]
    ∧ handle (EndCmd "guild" (Some "m1")) w' = say (Reply r) w'
    ∧ (r = NoActivePolls ∨ r = NoPollWithId "m1").
Proof.
  assert ("m1" ≠ "") as Hid by discriminate.
  assert (activePolls two_voted !! "guild" = Some 0) as Hguild
    by (vm_compute; reflexivity).
  assert (bucket two_voted 0 !! "m1" = Some 0) as Hfound
    by (vm_compute; reflexivity).
  exact (manual_close_then_no_poll two_voted "guild" "m1" 0 0
           (set_votes {["ann" := 1; "bob" := 0]} lunch)
           Hid Hguild Hfound eq_refl).
Defined.

(** ** A vote that does not complete the ledger *)

(** A click in an open session whose eligible voters are unknown (the
    set is empty), or by an eligible voter when not everyone has voted
    yet, only stores the vote and acknowledges it: the timer, the table
    and the collector are as before, whoever votes and however many have
    voted.  With an empty set of eligible voters a poll is therefore never
    closed by its votes. *)
Theorem vote_only_recorded w c p u i :
  polls w !! c = Some p →
  bucket w (serverPolls p) !! message p = Some c →
  collecting p = true →
  i < length (options p) →
  size (eligibleVoters p) = 0
  ∨ (u ∈ eligibleVoters p ∧ size (<[u:=i]> (votes p)) < size (eligibleVoters p)) →
  ∃ w', run [Button c u i; Resume 0] w = Some w'
        ∧ polls w' = alter (λ p, set_votes (<[u:=i]> (votes p)) p) c (polls w)
        ∧ activePolls w' = activePolls w
        ∧ buckets w' = buckets w
        ∧ tasks w' = tasks w
        ∧ log w' = log w ++ [Reply (VoteRecorded (options p !! i))].
Proof.
  intros Hentry Hstored Hcol Hi Hcase.
  cbn [run]. rewrite (step_button c p) by done. cbn [mbind option_bind].
  assert (collect c u i w = suspend (CollectReplied c c)
            (say (Reply (VoteRecorded (options p !! i)))
               (upd_polls (alter (λ p, set_votes (<[u:=i]> (votes p)) p) c) w)))
    as ->.
  { unfold collect. rewrite Hentry, Hstored, Hentry.
    destruct Hcase as [Hz|[Hu _]].
    - by rewrite bool_decide_false by lia.
    - rewrite (bool_decide_true (u ∈ _)) by done. by rewrite andb_false_r. }
  rewrite step_resume_suspended. cbn [mbind option_bind resume].
  eexists. split; [done|].
  unfold collect_replied. simpl. rewrite list_lookup_alter_eq, Hentry. simpl.
  assert (bool_decide (0 < size (eligibleVoters p))
          && bool_decide (size (eligibleVoters p) ≤ size (<[u:=i]> (votes p)))
          = false) as ->.
  { destruct Hcase as [Hz|[_ Hlt]].
    - by rewrite bool_decide_false by lia.
    - rewrite (bool_decide_false (_ ≤ _)) by lia. by rewrite andb_false_r. }
  done.
Qed.

Lemma vote_only_recorded_witness :
  ∃ w', run [Button 0 "ann" 0; Resume 0] opened = Some w'
        ∧ polls w' = alter (λ p, set_votes (<["ann":=0]> (votes p)) p) 0 (polls opened)
        ∧ activePolls w' = activePolls opened
        ∧ buckets w' = buckets opened
        ∧ tasks w' = tasks opened
        ∧ log w' = log opened ++ [Reply (VoteRecorded (options lunch !! 0))].
Proof.
  assert (bucket opened 0 !! "m1" = Some 0) as Hfound by (vm_compute; reflexivity).
  assert (0 < length (options lunch)) as Hbutton by (simpl; lia).
  assert ("ann" ∈ eligibleVoters lunch) as Hann.
  { refine (bool_decide_unpack _ _). vm_compute. exact I. }
  assert (size (<["ann":=0]> (votes lunch)) < size (eligibleVoters lunch)) as Hlt
    by (vm_compute; lia).
  exact (vote_only_recorded opened 0 lunch "ann" 0
           eq_refl Hfound eq_refl Hbutton (or_intror (conj Hann Hlt))).
Defined.

(** ** What never changes in an entry *)

Section related.

Variable R : Poll → Poll → Prop.
Hypothesis R_refl : ∀ p, R p p.
Hypothesis R_trans : ∀ p1 p2 p3, R p1 p2 → R p2 p3 → R p1 p3.
Hypothesis R_fired : ∀ p, R p (set_timeout Fired p).
Hypothesis R_cleared : ∀ p, R p (set_timeout (clear (timeout p)) p).
Hypothesis R_stopped : ∀ p, R p (set_collecting false p).

Lemma related_refl w w' : polls w' = polls w → entries_related R w w'.
Proof. intros Hp pd p Hpd. rewrite Hp. eauto. Qed.

Lemma related_trans w1 w2 w3 :
  entries_related R w1 w2 → entries_related R w2 w3 → entries_related R w1 w3.
Proof.
  intros H12 H23 pd p Hpd.
  destruct (H12 pd p Hpd) as (p2 & Hpd2 & ?).
  destruct (H23 pd p2 Hpd2) as (p3 & Hpd3 & ?). eauto.
Qed.

Lemma related_alter (f : Poll → Poll) pd w :
  (∀ p, polls w !! pd = Some p → R p (f p)) →
  entries_related R w (upd_polls (alter f pd) w).
Proof.
  intros Hf pd' p Hpd'. simpl. rewrite list_lookup_alter.
  case_decide as Heq; [subst pd'|eauto].
  rewrite Hpd'. simpl. eauto.
Qed.

Lemma related_after_endPoll k w : entries_related R w (after_endPoll k w).
Proof.
  destruct k; simpl; [by apply related_refl| |by apply related_refl].
  apply related_alter. auto.
Qed.

Lemma related_endPoll msg pollId guild k w :
  entries_related R w (endPoll msg pollId guild k w).
Proof.
  unfold endPoll.
  repeat case_match; auto using related_after_endPoll; by apply related_refl.
Qed.

Lemma related_endPoll_replied b pollId guild k w :
  entries_related R w (endPoll_replied b pollId guild k w).
Proof.
  unfold endPoll_replied.
  eapply related_trans; [|apply related_after_endPoll].
  apply related_refl. by case_bool_decide.
Qed.

Lemma related_clearTimeout pd w : entries_related R w (clearTimeout pd w).
Proof. apply related_alter. auto. Qed.

Lemma related_collect_replied c pd w :
  entries_related R w (collect_replied c pd w).
Proof.
  unfold collect_replied. repeat case_match; try by apply related_refl.
  eapply related_trans; [apply related_clearTimeout|apply related_endPoll].
Qed.

Lemma related_timeout_fired pd w : entries_related R w (timeout_fired pd w).
Proof.
  unfold timeout_fired. case_match; [|by apply related_refl].
  eapply related_trans; [|apply related_endPoll].
  apply related_alter. auto.
Qed.

Lemma related_endExecute guild pollId w :
  entries_related R w (endExecute guild pollId w).
Proof.
  unfold endExecute. repeat case_match; try by apply related_refl.
  eapply related_trans; [apply related_clearTimeout|apply related_endPoll].
Qed.

Lemma related_execute guild question optionsArg minutes ch msg members w :
  entries_related R w (execute guild question optionsArg minutes ch msg members w).
Proof. unfold execute. repeat case_match; by apply related_refl. Qed.

Lemma related_execute_posted guild opts duration msg members w :
  entries_related R w (execute_posted guild opts duration msg members w).
Proof. unfold execute_posted. case_match; by apply related_refl. Qed.

(** The entries that exist are not touched when a new one is stored. *)
Lemma related_execute_fetched guild opts duration msg members w :
  entries_related R w (execute_fetched guild opts duration msg members w).
Proof.
  unfold execute_fetched. case_match; [|by apply related_refl].
  intros pd p Hpd. simpl. exists p. split; [by apply lookup_app_l_Some|done].
Qed.

Lemma related_resume t w : entries_related R w (resume t w).
Proof.
  destruct t; simpl;
    auto using related_execute_posted, related_execute_fetched,
      related_collect_replied, related_endPoll_replied.
  by apply related_refl.
Qed.

(** Every turn of the loop but a click. *)
Lemma related_handle e w :
  (∀ c u i, e ≠ Button c u i) → entries_related R w (handle e w).
Proof.
  intros He. destruct e as [| |c u i| | |j]; simpl.
  - apply related_execute.
  - apply related_endExecute.
  - by destruct (He c u i).
  - apply related_timeout_fired.
  - apply related_alter. auto.
  - destruct (tasks w !! j); [|by apply related_refl].
    eapply related_trans; [|apply related_resume]. by apply related_refl.
Qed.

End related.

Lemma evolves_refl p : evolves p p.
Proof. by split. Qed.

Lemma evolves_trans p1 p2 p3 : evolves p1 p2 → evolves p2 p3 → evolves p1 p3.
Proof.
  intros [] []. split; try congruence.
  - intros Ha. rewrite timer_not_rearmed1 by done.
    apply timer_not_rearmed0. by rewrite <-timer_not_rearmed1.
  - auto.
  - by etrans.
Qed.

Lemma evolves_clear p : evolves p (set_timeout (clear (timeout p)) p).
Proof. split; try done. simpl. by destruct (timeout p). Qed.

Lemma evolves_vote u i p : evolves p (set_votes (<[u:=i]> (votes p)) p).
Proof. split; try done. simpl. rewrite dom_insert_L. set_solver. Qed.

Lemma evolves_collect c u i w : entries_related evolves w (collect c u i w).
Proof.
  unfold collect.
  destruct (polls w !! c) as [closure|]; [|by apply related_refl; [apply evolves_refl|]].
  destruct (bucket w (serverPolls closure) !! message closure) as [pd|];
    [|by apply related_refl; [apply evolves_refl|]].
  destruct (polls w !! pd) as [pollData|]; [|by apply related_refl; [apply evolves_refl|]].
  case_match; [by apply related_refl; [apply evolves_refl|]|].
  apply (related_trans evolves evolves_trans _
           (upd_polls (alter (λ p, set_votes (<[u:=i]> (votes p)) p) pd) w));
    [|by apply related_refl; [apply evolves_refl|]].
  apply related_alter; [apply evolves_refl|intros; apply evolves_vote].
Qed.

Lemma evolves_handle e w : entries_related evolves w (handle e w).
Proof.
  assert ((∃ c u i, e = Button c u i) ∨ ∀ c u i, e ≠ Button c u i)
    as [(c & u & i & ->)|He] by (destruct e; eauto).
  - apply evolves_collect.
  - apply related_handle;
      [apply evolves_refl|apply evolves_trans|by split|apply evolves_clear|
       by split|done].
Qed.

Lemma evolves_run es w w' : run es w = Some w' → entries_related evolves w w'.
Proof.
  revert w. induction es as [|e es IH]; intros w Hrun; simpl in Hrun.
  - simplify_eq. apply related_refl; [apply evolves_refl|done].
  - unfold step in Hrun. destruct (deliverable e w); [|done]. simpl in Hrun.
    eapply (related_trans evolves evolves_trans); [apply evolves_handle|by apply IH].
Qed.

Lemma ann_and_bob_vote :
  run [Button 0 "ann" 1; Resume 0; Button 0 "bob" 0; Resume 0] opened
  = Some two_voted.
Proof. vm_compute. reflexivity. Qed.

(** Whatever happens, an entry keeps the message, the options and the set
    of eligible voters it was created with: the options are never edited
    and the eligible voters are never fetched again. *)
Theorem entry_snapshot_fixed es w w' pd p :
  run es w = Some w' →
  polls w !! pd = Some p →
  ∃ p', polls w' !! pd = Some p'
        ∧ message p' = message p
        ∧ options p' = options p
        ∧ eligibleVoters p' = eligibleVoters p.
Proof.
  intros Hrun Hp. destruct (evolves_run es w w' Hrun pd p Hp) as (p' & Hp' & []).
  eauto.
Qed.

Lemma entry_snapshot_fixed_witness :
  ∃ p', polls two_voted !! 0 = Some p'
        ∧ message p' = message lunch
        ∧ options p' = options lunch
        ∧ eligibleVoters p' = eligibleVoters lunch.
Proof.
  exact (entry_snapshot_fixed _ opened two_voted 0 lunch ann_and_bob_vote eq_refl).
Defined.





(** ** After the removal *)

Lemma unlisted_alt pd w :
  unlisted pd w ↔ ∀ b m id, buckets w !! b = Some m → m !! id ≠ Some pd.
Proof.
  unfold unlisted. rewrite Forall_lookup. split.
  - intros Hun b m id Hm Hid. by apply (Hun b m Hm id pd).
  - intros Hun b m Hm id pd' Hid ->. by eapply Hun.
Qed.

Lemma unlisted_frame pd w w' : frame w w' → unlisted pd w → unlisted pd w'.
Proof.
  rewrite !unlisted_alt.
  intros [_ _ Hb _ _] Hun b m' id Hm' Hid.
  destruct (Hb _ _ _ _ Hm' Hid) as (m & Hm & Hid'). by eapply Hun.
Qed.

Lemma unlisted_same_buckets pd w w' :
  buckets w' = buckets w → unlisted pd w → unlisted pd w'.
Proof. unfold unlisted. by intros ->. Qed.

Lemma unlisted_handle e w pd p :
  polls w !! pd = Some p → unlisted pd w → unlisted pd (handle e w).
Proof.
  intros Hp Hun. destruct e as [| |c u i| | |j]; simpl.
  - eapply unlisted_same_buckets; [|done]. unfold execute. by repeat case_match.
  - eauto using unlisted_frame, frame_endExecute.
  - eauto using unlisted_frame, frame_collect.
  - eauto using unlisted_frame, frame_timeout_fired.
  - eauto using unlisted_frame, frame_stop.
  - destruct (tasks w !! j) as [t|]; [|done].
    assert (unlisted pd (upd_tasks (delete j) w)) as Hun' by done.
    destruct t as [g q opts d msg mem|g opts d msg mem| | |]; simpl.
    + unfold execute_posted. case_match; [done|].
      apply unlisted_alt. rewrite unlisted_alt in Hun.
      intros b m id [?|[_ Hl]]%lookup_app_Some; [by eapply Hun|].
      apply list_lookup_singleton_Some in Hl as [_ <-]. by rewrite lookup_empty.
    + unfold execute_fetched. simpl. case_match; [|done].
      apply unlisted_alt. rewrite unlisted_alt in Hun.
      intros b m id. simpl. rewrite list_lookup_alter.
      case_decide; [subst b|apply Hun].
      destruct (buckets w !! n) as [m0|] eqn:Hm0; simpl; [|done].
      intros [= <-]. rewrite lookup_insert. case_decide.
      * apply lookup_lt_Some in Hp. intros [= ?]. lia.
      * by eapply Hun.
    + eauto using unlisted_frame, frame_collect_replied.
    + eauto using unlisted_frame, frame_endPoll_edited.
    + eauto using unlisted_frame, frame_endPoll_replied.
Qed.

Lemma same_votes_handle e w pd p :
  polls w !! pd = Some p → unlisted pd w →
  ∃ p', polls (handle e w) !! pd = Some p' ∧ votes p' = votes p.
Proof.
  intros Hp Hun. rewrite unlisted_alt in Hun.
  assert ((∃ c u i, e = Button c u i) ∨ ∀ c u i, e ≠ Button c u i)
    as [(c & u & i & ->)|He] by (destruct e; eauto).
  - simpl. unfold collect.
    destruct (polls w !! c) as [closure|]; [|eauto].
    destruct (bucket w (serverPolls closure) !! message closure) as [pd0|] eqn:Hpd0;
      [|eauto].
    destruct (polls w !! pd0) as [pollData|]; [|eauto].
    case_match; [eauto|]. simpl.
    rewrite list_lookup_alter_ne; [eauto|].
    intros ->. unfold bucket in Hpd0.
    destruct (buckets w !! serverPolls closure) as [m|] eqn:Hm; simpl in Hpd0;
      [by eapply Hun|by rewrite lookup_empty in Hpd0].
  - assert (entries_related (λ p p', votes p' = votes p) w (handle e w)) as Hrel.
    { apply related_handle; try done. intros ??? H1 H2. by rewrite H2. }
    exact (Hrel pd p Hp).
Qed.

(** Once no bucket refers to an entry any more, its ledger is final:
    whatever happens afterwards, the votes stay as they are and the entry
    never comes back into the table. *)
Theorem ledger_final_after_removal es w w' pd p :
  run es w = Some w' →
  polls w !! pd = Some p →
  unlisted pd w →
  ∃ p', polls w' !! pd = Some p' ∧ votes p' = votes p ∧ unlisted pd w'.
Proof.
  revert w p. induction es as [|e es IH]; intros w p Hrun Hp Hun; simpl in Hrun.
  - simplify_eq. eauto.
  - unfold step in Hrun. destruct (deliverable e w); [|done]. simpl in Hrun.
    destruct (same_votes_handle e w pd p Hp Hun) as (p1 & Hp1 & Hv1).
    destruct (IH _ p1 Hrun Hp1) as (p' & Hp' & Hv' & Hun');
      [by eapply unlisted_handle|].
    exists p'. split; [done|]. split; [congruence|done].
Qed.

Lemma closed_by_hand_runs :
  run [EndCmd "guild" (Some "m1"); Resume 0; Resume 0] two_voted
  = Some closed_by_hand.
Proof. vm_compute. reflexivity. Qed.

Lemma ledger_final_after_removal_witness :
  ∃ p', polls (say ThrownTypeError closed_by_hand) !! 0 = Some p'
        ∧ votes p' = {["ann" := 1; "bob" := 0]}
        ∧ unlisted 0 (say ThrownTypeError closed_by_hand).
Proof.
  assert (run [Button 0 "cat" 1] closed_by_hand
          = Some (say ThrownTypeError closed_by_hand)) as Hrun
    by (vm_compute; reflexivity).
  assert (unlisted 0 closed_by_hand) as Hun.
  { unfold unlisted. refine (bool_decide_unpack _ _). vm_compute. exact I. }
  exact (ledger_final_after_removal _ closed_by_hand _ 0 _ Hrun eq_refl Hun).
Defined.

(** ** Polls do not mix *)

(** In a reachable state, a click on a button of one poll message leaves
    the entries of all other polls as they are, in the same guild or in
    another: a vote never lands in the ledger of another poll. *)
Theorem click_leaves_other_polls w c u i pd p :
  reachable w →
  pd ≠ c →
  polls w !! pd = Some p →
  polls (handle (Button c u i) w) !! pd = Some p.
Proof.
  intros Hw%reachable_consistent Hne Hp. simpl. unfold collect.
  destruct (polls w !! c) as [closure|] eqn:Hc; [|done].
  destruct (bucket w (serverPolls closure) !! message closure) as [pd0|] eqn:Hpd0;
    [|done].
  assert (pd0 = c) as -> by eauto using collect_finds_own_entry.
  rewrite Hc. case_match; [done|]. simpl.
  by rewrite list_lookup_alter_ne.
Qed.

(** In a reachable state, the poll id under which a bucket holds an entry
    is the id of the message of that entry, and the bucket is the one that
    the handlers of that message captured: [/endpoll] with this id edits
    and answers the message of this poll. *)
Theorem stored_under_message_id w b m id pd :
  reachable w →
  buckets w !! b = Some m →
  m !! id = Some pd →
  ∃ p, polls w !! pd = Some p ∧ message p = id ∧ serverPolls p = b.
Proof. intros Hw%reachable_consistent. by apply entries_ok. Qed.

Lemma open_second_runs : run open_second two_voted = Some two_polls.
Proof. vm_compute. reflexivity. Qed.

Lemma two_polls_reachable : reachable two_polls.
Proof.
  exists (two_votes ++ open_second). vm_compute. reflexivity.
Qed.

Lemma click_leaves_other_polls_witness :
  polls (handle (Button 1 "ann" 2) two_polls) !! 0
  = Some (set_votes {["ann" := 1; "bob" := 0]} lunch).
Proof.
  assert (0 ≠ 1) as Hne by lia.
  exact (click_leaves_other_polls two_polls 1 "ann" 2 0 _
           two_polls_reachable Hne eq_refl).
Defined.

Lemma stored_under_message_id_witness :
  ∃ p, polls two_polls !! 1 = Some p ∧ message p = "m2" ∧ serverPolls p = 0.
Proof.
  assert (({["m1" := 0; "m2" := 1]} : gmap string nat) !! "m2" = Some 1) as Hm2
    by (vm_compute; reflexivity).
  exact (stored_under_message_id two_polls 0 _ "m2" 1
           two_polls_reachable eq_refl Hm2).
Defined.

(** ** Opening a poll *)




(** ** The options argument *)

Lemma split_commas_length s : length (split_commas s) = S (commas s).
Proof.
  induction s as [|c r IH]; [done|]. simpl.
  case_bool_decide; simpl; [by rewrite IH|].
  destruct (split_commas r); [done|]. by rewrite <-IH.
Qed.

(** The options of a [vote] command are the pieces between the commas of
    its argument, empty pieces included: there is one option more than
    there are commas.  (So [a,b,] has three options, the last one empty,
    and an argument without a comma is always refused.) *)
Theorem option_count_is_commas_plus_one optionsArg :
  length (parse_options optionsArg) = S (commas optionsArg).
Proof. unfold parse_options. by rewrite length_fmap, split_commas_length. Qed.

(** ** More on the tally *)






Lemma filter_split_length (l : list (string * nat)) n :
  length (filter (λ kv, kv.2 < S n) l)
  = length (filter (λ kv, kv.2 < n) l) + length (filter (λ kv, kv.2 = n) l).
Proof.
  induction l as [|kv l IH]; [done|]. rewrite !filter_cons.
  repeat case_decide; simpl; lia.
Qed.

Lemma counts_sum (l : list (string * nat)) n :
  sum_list ((λ i, length (filter (λ kv, kv.2 = i) l)) <$> seq 0 n)
  = length (filter (λ kv, kv.2 < n) l).
Proof.
  induction n as [|n IH].
  - simpl. induction l as [|kv l IHl]; [done|].
    rewrite filter_cons_False by lia. done.
  - rewrite seq_S, fmap_app, sum_list_with_app, IH, filter_split_length.
    simpl. lia.
Qed.

Lemma filter_all_length {A} (P : A → Prop) `{!∀ x, Decision (P x)} (l : list A) :
  Forall P l → length (filter P l) = length l.
Proof.
  induction 1; [done|]. rewrite filter_cons_True by done. simpl. lia.
Qed.

(** For a ledger whose indices are those of options, every vote is
    counted once: the counts of [endPoll] are numbers that add up to the
    size of the ledger. *)
Theorem every_vote_counted_once opts vs :
  in_range opts vs →
  ∃ ns, voteCounts opts vs = Js.Num <$> ns ∧ sum_list ns = size vs.
Proof.
  intros Hrange. exists (Spec.counts opts vs).
  split; [by apply voteCounts_in_range|].
  unfold Spec.counts, Spec.votes_for. rewrite counts_sum, filter_all_length.
  - apply length_map_to_list.
  - apply Forall_forall. intros [u i] Hui%elem_of_map_to_list.
    by apply (Hrange u i).
Qed.

Lemma every_vote_counted_once_witness :
  ∃ ns, voteCounts ["A"; "B"; "C"] tie_ledger = Js.Num <$> ns
        ∧ sum_list ns = size tie_ledger.
Proof.
  assert (in_range ["A"; "B"; "C"] tie_ledger) as Hrange.
  { unfold in_range. refine (bool_decide_unpack _ _). vm_compute. exact I. }
  exact (every_vote_counted_once ["A"; "B"; "C"] tie_ledger Hrange).
Defined.

(** ** The list of active polls *)

Lemma omap_all_length {A B} (f : A → option B) (l : list A) :
  Forall (λ x, is_Some (f x)) l → length (omap f l) = length l.
Proof.
  induction 1 as [|x l [y Hy] _ IH]; [done|].
  csimpl. rewrite Hy. simpl. by f_equal.
Qed.

(** In a reachable state [/listpolls] shows all the polls stored for the
    guild and nothing else: as many rows as the bucket has polls, a row
    for every stored poll, and every row made from a stored poll (its id,
    the size of its ledger and of its set of eligible voters). *)
Theorem list_shows_stored_polls w guild b :
  reachable w →
  activePolls w !! guild = Some b →
  bucket w b ≠ ∅ →
  ∃ rows,
    listExecute guild w = PollList rows
    ∧ length rows = size (bucket w b)
    ∧ (∀ id pd, bucket w b !! id = Some pd →
         ∃ p, polls w !! pd = Some p ∧ list_row id p ∈ rows)
    ∧ (∀ r, r ∈ rows →
         ∃ id pd p, bucket w b !! id = Some pd ∧ polls w !! pd = Some p
                    ∧ r = list_row id p).
Proof.
  intros Hw%reachable_consistent Hguild Hne.
  assert (∀ id pd, bucket w b !! id = Some pd → is_Some (polls w !! pd)) as Hall.
  { intros id pd Hid. unfold bucket in Hid.
    destruct (buckets w !! b) as [m|] eqn:Hm; simpl in Hid;
      [|by rewrite lookup_empty in Hid].
    destruct (entries_ok _ Hw _ _ _ _ Hm Hid) as (p & Hp & _). eauto. }
  eexists. split.
  { unfold listExecute. rewrite Hguild.
    rewrite bool_decide_false; [done|]. by rewrite map_size_empty_iff. }
  split; [|split].
  - rewrite omap_all_length, length_map_to_list; [done|].
    apply Forall_forall. intros [id pd] Hid%elem_of_map_to_list.
    destruct (Hall id pd Hid) as [p Hp]. rewrite Hp. by eexists.
  - intros id pd Hid. destruct (Hall id pd Hid) as [p Hp].
    exists p. split; [done|]. apply list_elem_of_omap.
    exists (id, pd). split; [by apply elem_of_map_to_list|by rewrite Hp].
  - intros r ([id pd] & Hid%elem_of_map_to_list & Hr)%list_elem_of_omap.
    destruct (polls w !! pd) as [p|] eqn:Hp; simplify_eq/=. eauto 10.
Qed.

Lemma list_shows_stored_polls_witness :
  ∃ rows,
    listExecute "guild" two_polls = PollList rows
    ∧ length rows = size (bucket two_polls 0)
    ∧ (∀ id pd, bucket two_polls 0 !! id = Some pd →
         ∃ p, polls two_polls !! pd = Some p ∧ list_row id p ∈ rows)
    ∧ (∀ r, r ∈ rows →
         ∃ id pd p, bucket two_polls 0 !! id = Some pd
                    ∧ polls two_polls !! pd = Some p ∧ r = list_row id p).
Proof.
  assert (activePolls two_polls !! "guild" = Some 0) as Hguild
    by (vm_compute; reflexivity).
  assert (bucket two_polls 0 ≠ ∅) as Hne.
  { refine (bool_decide_unpack _ _). vm_compute. exact I. }
  exact (list_shows_stored_polls two_polls "guild" 0
           two_polls_reachable Hguild Hne).
Defined.

(** In a reachable state, the row of a poll whose eligible voters are
    known shows their number, and the voters left are shown only while
    some are left: then votes and voters left add up to the eligible
    voters (the clamp at 0 is never needed).  When the eligible voters are
    unknown, both numbers are printed as '?'. *)
Theorem list_row_adds_up w pd p id :
  reachable w →
  polls w !! pd = Some p →
  (size (eligibleVoters p) = 0 →
     row_total (list_row id p) = None ∧ row_remaining (list_row id p) = None)
  ∧ (0 < size (eligibleVoters p) →
     row_total (list_row id p) = Some (size (eligibleVoters p))
     ∧ match row_remaining (list_row id p) with
       | Some rest => row_voted (list_row id p) + rest = size (eligibleVoters p)
       | None => row_voted (list_row id p) = size (eligibleVoters p)
       end).
Proof.
  intros Hw%reachable_ledgers_ok Hp.
  destruct (proj1 (Forall_lookup _ _) Hw pd p Hp) as [_ Helig].
  unfold list_row, or_question; simpl. split.
  - intros Hz. rewrite Hz. split; [done|].
    rewrite bool_decide_true; [done|]. lia.
  - intros Hpos. rewrite bool_decide_false by lia. split; [done|].
    assert (size (votes p) ≤ size (eligibleVoters p)) as Hle.
    { rewrite <-size_dom. by apply subseteq_size, Helig. }
    case_bool_decide; lia.
Qed.

Lemma list_row_adds_up_witness :
  (size (eligibleVoters (set_votes {["ann" := 1; "bob" := 0]} lunch)) = 0 →
     row_total (list_row "m1" (set_votes {["ann" := 1; "bob" := 0]} lunch)) = None
     ∧ row_remaining (list_row "m1" (set_votes {["ann" := 1; "bob" := 0]} lunch))
       = None)
  ∧ (0 < size (eligibleVoters (set_votes {["ann" := 1; "bob" := 0]} lunch)) →
     row_total (list_row "m1" (set_votes {["ann" := 1; "bob" := 0]} lunch))
     = Some (size (eligibleVoters (set_votes {["ann" := 1; "bob" := 0]} lunch)))
     ∧ match row_remaining
               (list_row "m1" (set_votes {["ann" := 1; "bob" := 0]} lunch)) with
       | Some rest =>
           row_voted (list_row "m1" (set_votes {["ann" := 1; "bob" := 0]} lunch))
           + rest
           = size (eligibleVoters (set_votes {["ann" := 1; "bob" := 0]} lunch))
       | None =>
           row_voted (list_row "m1" (set_votes {["ann" := 1; "bob" := 0]} lunch))
           = size (eligibleVoters (set_votes {["ann" := 1; "bob" := 0]} lunch))
       end).
Proof.
  exact (list_row_adds_up two_voted 0 _ "m1" two_voted_reachable eq_refl).
Defined.

(** * Properties of the standup tables *)

Module StandupFacts.

Import Convex.

(** ** Lists *)

Lemma first_fmap {A} (P : A → Prop) `{!∀ x, Decision (P x)} (f : A → A) l :
  (∀ x, P (f x) ↔ P x) → first P (f <$> l) = f <$> first P l.
Proof.
  intros Hf. unfold first. induction l as [|x l IH]; [done|].
  rewrite fmap_cons, !filter_cons.
  destruct (decide (P (f x))) as [HP|HP], (decide (P x)) as [HQ|HQ].
  - done.
  - destruct HQ. by apply Hf.
  - destruct HP. by apply Hf.
  - exact IH.
Qed.

Lemma first_None {A} (P : A → Prop) `{!∀ x, Decision (P x)} l :
  first P l = None ↔ ∀ x, x ∈ l → ¬ P x.
Proof.
  unfold first. rewrite head_None. split.
  - intros Hnil x Hx HP.
    assert (x ∈ filter P l) as Hin by by apply list_elem_of_filter.
    rewrite Hnil in Hin. by apply elem_of_nil in Hin.
  - intros Hno. destruct (filter P l) as [|x k] eqn:Hf; [done|].
    assert (x ∈ filter P l) as [HP Hin]%list_elem_of_filter
      by (rewrite Hf; by left).
    by destruct (Hno x).
Qed.

Lemma first_Some {A} (P : A → Prop) `{!∀ x, Decision (P x)} l x :
  first P l = Some x → P x ∧ x ∈ l.
Proof.
  unfold first. intros Hx%head_Some_elem_of. by apply list_elem_of_filter in Hx.
Qed.

Lemma first_app_new {A} (P : A → Prop) `{!∀ x, Decision (P x)} l x :
  first P l = None → P x → first P (l ++ [x]) = Some x.
Proof.
  unfold first. intros Hnil%head_None HP.
  by rewrite filter_app, Hnil, filter_cons_True.
Qed.

Lemma filter_unchanged {A} (P : A → Prop) `{!∀ x, Decision (P x)} (f : A → A)
    (l : list A) :
  (∀ x, x ∈ l → P (f x) ↔ P x) →
  (∀ x, x ∈ l → P x → f x = x) →
  filter P (f <$> l) = filter P l.
Proof.
  induction l as [|x l IH]; intros Hiff Hid; [done|].
  rewrite fmap_cons, !filter_cons.
  rewrite IH; [|intros; apply Hiff; by right|intros; apply Hid; [by right|done]].
  destruct (decide (P (f x))) as [HP|HP], (decide (P x)) as [HQ|HQ].
  - rewrite Hid; [done|by left|done].
  - destruct HQ. apply Hiff; [by left|done].
  - destruct HP. apply Hiff; [by left|done].
  - done.
Qed.

Lemma NoDup_fmap_eq {A B} (f : A → B) (l : list A) x y :
  NoDup (f <$> l) → x ∈ l → y ∈ l → f x = f y → x = y.
Proof.
  intros Hnd [i Hi]%list_elem_of_lookup [j Hj]%list_elem_of_lookup Hf.
  assert (i = j) as ->; [|congruence].
  apply (NoDup_lookup _ _ _ (f x) Hnd); rewrite list_lookup_fmap;
    [by rewrite Hi|by rewrite Hj, Hf].
Qed.

Lemma NoDup_fmap_filter {A B} (f : A → B) (P : A → Prop)
    `{!∀ x, Decision (P x)} (l : list A) :
  NoDup (f <$> l) → NoDup (f <$> filter P l).
Proof.
  intros Hnd. eapply sublist_NoDup; [done|].
  apply fmap_sublist, sublist_filter.
Qed.

(** ** Ids *)

Lemma ids_ok_mutate db m : ids_ok db → ids_ok (mutate db m).
Proof.
  intros [Hu Hub Hr Hrb].
  assert (∀ i c (l : list StandupUser),
            u_id <$> (patch_channel i c <$> l) = u_id <$> l) as Hpu.
  { intros i c l. rewrite <-list_fmap_compose. apply list_fmap_ext.
    intros ? d _. unfold patch_channel. simpl. by case_decide. }
  assert (∀ i a b c t (l : list StandupResponse),
            r_id <$> (patch_response i a b c t <$> l) = r_id <$> l) as Hpr.
  { intros i a b c t l. rewrite <-list_fmap_compose. apply list_fmap_ext.
    intros ? d _. unfold patch_response. simpl. by case_decide. }
  destruct m as [u g c now|u g|u g t d1 d2 d3 now]; simpl.
  - unfold addStandupUser. destruct (getStandupUser u g db); simpl.
    + split; simpl; try done.
      * by rewrite Hpu.
      * apply Forall_fmap. eapply Forall_impl; [done|].
        intros d Hd. unfold patch_channel. simpl. by case_decide.
    + split; simpl.
      * rewrite fmap_app. apply NoDup_app. split; [done|]. split.
        -- intros i (d & -> & Hd)%list_elem_of_fmap [Heq|[]%elem_of_nil]%elem_of_cons.
           rewrite Forall_forall in Hub. specialize (Hub d Hd).
           simpl in Heq. lia.
        -- apply NoDup_singleton.
      * apply Forall_app. split; [|by apply Forall_singleton; simpl; lia].
        eapply Forall_impl; [done|]. simpl. lia.
      * done.
      * eapply Forall_impl; [done|]. simpl. lia.
  - unfold removeStandupUser. destruct (getStandupUser u g db); simpl; [|done].
    split; simpl; try done.
    + by apply NoDup_fmap_filter.
    + apply Forall_forall. intros d [_ Hd]%list_elem_of_filter.
      rewrite Forall_forall in Hub. by apply Hub.
  - unfold submitStandupResponse.
    destruct (getStandupResponseForUser u g t db); simpl.
    + split; simpl; try done.
      * by rewrite Hpr.
      * apply Forall_fmap. eapply Forall_impl; [done|].
        intros d Hd. unfold patch_response. simpl. by case_decide.
    + split; simpl.
      * done.
      * eapply Forall_impl; [done|]. simpl. lia.
      * rewrite fmap_app. apply NoDup_app. split; [done|]. split.
        -- intros i (d & -> & Hd)%list_elem_of_fmap [Heq|[]%elem_of_nil]%elem_of_cons.
           rewrite Forall_forall in Hrb. specialize (Hrb d Hd).
           simpl in Heq. lia.
        -- apply NoDup_singleton.
      * apply Forall_app. split; [|by apply Forall_singleton; simpl; lia].
        eapply Forall_impl; [done|]. simpl. lia.
Qed.

Lemma reachable_ind (P : Db → Prop) :
  P empty → (∀ db m, P db → P (mutate db m)) → ∀ db, reachable db → P db.
Proof.
  intros Hempty Hstep db [ms <-].
  induction ms as [|m ms IH] using rev_ind; [done|].
  rewrite foldl_app. simpl. by apply Hstep.
Qed.

Lemma reachable_ids_ok db : reachable db → ids_ok db.
Proof.
  apply reachable_ind; [|by intros; apply ids_ok_mutate].
  split; simpl; constructor.
Qed.

(** ** One document for each sign-up and for each daily response *)

Lemma user_key_patch i c (l : list StandupUser) :
  user_key <$> (patch_channel i c <$> l) = user_key <$> l.
Proof.
  rewrite <-list_fmap_compose. apply list_fmap_ext.
  intros ? d _. unfold patch_channel. simpl. by case_decide.
Qed.

Lemma response_key_patch i a b c t (l : list StandupResponse) :
  response_key <$> (patch_response i a b c t <$> l) = response_key <$> l.
Proof.
  rewrite <-list_fmap_compose. apply list_fmap_ext.
  intros ? d _. unfold patch_response. simpl. by case_decide.
Qed.

Lemma keys_mutate db m :
  NoDup (user_key <$> standupUsers db)
  ∧ NoDup (response_key <$> standupResponses db) →
  NoDup (user_key <$> standupUsers (mutate db m))
  ∧ NoDup (response_key <$> standupResponses (mutate db m)).
Proof.
  intros [Hu Hr].
  destruct m as [u g c now|u g|u g t d1 d2 d3 now]; simpl.
  - unfold addStandupUser.
    destruct (getStandupUser u g db) eqn:Hget; simpl.
    + by rewrite user_key_patch.
    + split; [|done]. rewrite fmap_app. apply NoDup_app.
      split; [done|]. split; [|apply NoDup_singleton].
      intros k (d & -> & Hd)%list_elem_of_fmap [Heq|[]%elem_of_nil]%elem_of_cons.
      unfold getStandupUser in Hget. rewrite first_None in Hget.
      apply (Hget d Hd). by injection Heq as ??.
  - unfold removeStandupUser. destruct (getStandupUser u g db); simpl; [|done].
    split; [|done]. by apply NoDup_fmap_filter.
  - unfold submitStandupResponse.
    destruct (getStandupResponseForUser u g t db) eqn:Hget; simpl.
    + by rewrite response_key_patch.
    + split; [done|]. rewrite fmap_app. apply NoDup_app.
      split; [done|]. split; [|apply NoDup_singleton].
      intros k (d & -> & Hd)%list_elem_of_fmap [Heq|[]%elem_of_nil]%elem_of_cons.
      unfold getStandupResponseForUser in Hget. rewrite first_None in Hget.
      apply (Hget d Hd). by injection Heq as ???.
Qed.

Lemma reachable_keys db :
  reachable db →
  NoDup (user_key <$> standupUsers db)
  ∧ NoDup (response_key <$> standupResponses db).
Proof.
  revert db.
  apply (reachable_ind
           (λ db, NoDup (user_key <$> standupUsers db)
                  ∧ NoDup (response_key <$> standupResponses db)));
    [|by intros; apply keys_mutate].
  split; constructor.
Qed.

Lemma one_user_key db : reachable db → NoDup (user_key <$> standupUsers db).
Proof. by intros [? _]%reachable_keys. Qed.

Lemma one_response_key db :
  reachable db → NoDup (response_key <$> standupResponses db).
Proof. by intros [_ ?]%reachable_keys. Qed.

(** Whatever calls of the mutations are made, the users table has at
    most one document for a user in a guild: joining again changes the
    document that exists. *)
Theorem one_signup_per_guild_and_user db :
  reachable db → NoDup (user_key <$> standupUsers db).
Proof. by intros [? _]%reachable_keys. Qed.

(** Whatever calls of the mutations are made, the responses table has at
    most one document for a user, a guild and a day: submitting again on
    the same day changes the document that exists. *)
Theorem one_response_per_day db :
  reachable db → NoDup (response_key <$> standupResponses db).
Proof. by intros [_ ?]%reachable_keys. Qed.

(** ** Joining and leaving *)

(** After [addStandupUser], [getStandupUser] finds the user with the
    given channel.  A user who had joined before keeps the document, and
    with it the time of the first joining, and the table does not grow;
    otherwise a new document is added, with the current time. *)
Theorem join_then_get userId guildId channelId now db :
  ∃ d,
    getStandupUser userId guildId (addStandupUser userId guildId channelId now db).2
    = Some d
    ∧ u_userId d = userId ∧ u_guildId d = guildId ∧ u_channelId d = channelId
    ∧ match getStandupUser userId guildId db with
      | Some d0 =>
          u_id d = u_id d0 ∧ u_joinedAt d = u_joinedAt d0
          ∧ length (standupUsers (addStandupUser userId guildId channelId now db).2)
            = length (standupUsers db)
      | None =>
          u_id d = next_id db ∧ u_joinedAt d = now
          ∧ length (standupUsers (addStandupUser userId guildId channelId now db).2)
            = S (length (standupUsers db))
      end.
Proof.
  unfold addStandupUser.
  destruct (getStandupUser userId guildId db) as [d0|] eqn:Hget; simpl.
  - exists (patch_channel (u_id d0) channelId d0).
    destruct (first_Some _ _ _ Hget) as [[Hg Hu] _].
    unfold getStandupUser in *. simpl. split.
    + rewrite first_fmap, Hget; [done|].
      intros d. unfold patch_channel, by_guild_and_user. by case_decide.
    + unfold patch_channel. rewrite decide_True by done. simpl.
      by rewrite length_fmap.
  - eexists. unfold getStandupUser in *. simpl. split.
    + by apply first_app_new.
    + simpl. rewrite length_app. simpl. repeat split; lia.
Qed.

(** On tables that the mutations have made, [addStandupUser] for one
    user in one guild changes no other sign-up: [getStandupUser] answers
    as before for every other user and for the same user in every other
    guild. *)
Theorem join_keeps_others userId guildId channelId now db userId' guildId' :
  reachable db →
  (guildId', userId') ≠ (guildId, userId) →
  getStandupUser userId' guildId' (addStandupUser userId guildId channelId now db).2
  = getStandupUser userId' guildId' db.
Proof.
  intros Hids%reachable_ids_ok Hne. unfold addStandupUser.
  destruct (getStandupUser userId guildId db) as [d0|] eqn:Hget;
    unfold getStandupUser, first in *; simpl.
  - destruct (first_Some _ _ _ Hget) as [[Hg Hu] Hd0].
    f_equal. apply filter_unchanged.
    + intros d _. unfold patch_channel, by_guild_and_user. by case_decide.
    + intros d Hd [Hg' Hu']. unfold patch_channel.
      rewrite decide_False; [done|]. intros Hid.
      assert (d = d0) as ->
        by (eapply NoDup_fmap_eq; [apply (user_ids_NoDup _ Hids)|done..]).
      apply Hne. congruence.
  - rewrite filter_app, filter_cons_False, filter_nil, app_nil_r; [done|].
    intros [??]; simpl in *. apply Hne. congruence.
Qed.

(** On tables that the mutations have made, after [removeStandupUser]
    the user is not found any more, the result tells whether the user was
    signed up (the tables are unchanged if not), and no other sign-up is
    changed. *)
Theorem leave_then_get userId guildId db :
  reachable db →
  getStandupUser userId guildId (removeStandupUser userId guildId db).2 = None
  ∧ ((removeStandupUser userId guildId db).1 = true
     ↔ is_Some (getStandupUser userId guildId db))
  ∧ ((removeStandupUser userId guildId db).1 = false
     → (removeStandupUser userId guildId db).2 = db)
  ∧ (∀ userId' guildId', (guildId', userId') ≠ (guildId, userId) →
       getStandupUser userId' guildId' (removeStandupUser userId guildId db).2
       = getStandupUser userId' guildId' db).
Proof.
  intros Hdb. pose proof (reachable_ids_ok _ Hdb) as Hids.
  pose proof (one_user_key db Hdb) as Hkeys.
  unfold removeStandupUser.
  destruct (getStandupUser userId guildId db) as [d0|] eqn:Hget; simpl.
  - destruct (first_Some _ _ _ Hget) as [[Hg Hu] Hd0].
    split; [|split; [by split; eauto|split; [done|]]].
    + apply first_None. intros d [Hid Hd]%list_elem_of_filter [Hg' Hu'].
      apply Hid. f_equal. eapply NoDup_fmap_eq; [exact Hkeys|done..|].
      unfold user_key. congruence.
    + intros u' g' Hne. unfold getStandupUser, first. simpl. f_equal.
      rewrite list_filter_filter. apply filter_iff_elem.
      intros d Hd. split; [tauto|]. intros [Hg' Hu']. split; [done|].
      intros Hid. apply Hne.
      assert (d = d0) as ->
        by (eapply NoDup_fmap_eq; [apply (user_ids_NoDup _ Hids)|done..]).
      congruence.
  - split; [done|]. split; [|done]. split; [done|]. by intros [].
Qed.

Lemma team_reachable : reachable team.
Proof. by exists team_calls. Qed.

Lemma one_signup_per_guild_and_user_witness :
  NoDup (user_key <$> standupUsers team).
Proof. exact (one_signup_per_guild_and_user team team_reachable). Defined.

Lemma one_response_per_day_witness :
  NoDup (response_key <$> standupResponses team).
Proof. exact (one_response_per_day team team_reachable). Defined.

Lemma join_keeps_others_witness :
  getStandupUser "bob" "guild" (addStandupUser "ann" "guild" "ops" 170 team).2
  = getStandupUser "bob" "guild" team.
Proof.
  assert (("guild", "bob") ≠ ("guild", "ann")) as Hne by discriminate.
  exact (join_keeps_others "ann" "guild" "ops" 170 team "bob" "guild"
           team_reachable Hne).
Defined.

Lemma leave_then_get_witness :
  getStandupUser "ann" "guild" (removeStandupUser "ann" "guild" team).2 = None
  ∧ ((removeStandupUser "ann" "guild" team).1 = true
     ↔ is_Some (getStandupUser "ann" "guild" team))
  ∧ ((removeStandupUser "ann" "guild" team).1 = false
     → (removeStandupUser "ann" "guild" team).2 = team)
  ∧ (∀ userId' guildId', (guildId', userId') ≠ ("guild", "ann") →
       getStandupUser userId' guildId' (removeStandupUser "ann" "guild" team).2
       = getStandupUser userId' guildId' team).
Proof. exact (leave_then_get "ann" "guild" team team_reachable). Defined.

(** ** The guilds with sign-ups *)

Lemma spread_set_from acc l :
  NoDup acc →
  NoDup (foldl (λ acc x, if decide (x ∈ acc) then acc else acc ++ [x]) acc l)
  ∧ ∀ x : string,
      x ∈ foldl (λ acc x, if decide (x ∈ acc) then acc else acc ++ [x]) acc l
      ↔ x ∈ acc ∨ x ∈ l.
Proof.
  revert acc. induction l as [|y l IH]; intros acc Hacc; simpl.
  - split; [done|]. intros x. rewrite elem_of_nil. tauto.
  - case_decide as Hy.
    + destruct (IH acc Hacc) as [Hnd Hin]. split; [done|].
      intros x. rewrite Hin, elem_of_cons. split; [tauto|].
      intros [?|[->|?]]; tauto.
    + destruct (IH (acc ++ [y])) as [Hnd Hin].
      { apply NoDup_app. split; [done|]. split; [|apply NoDup_singleton].
        intros x Hx ->%list_elem_of_singleton. done. }
      split; [done|]. intros x.
      rewrite Hin, elem_of_app, list_elem_of_singleton, elem_of_cons. tauto.
Qed.

(** [getAllGuildsWithStandups] names every guild once, and names a guild
    exactly when [getStandupUsers] finds a user in it: the jobs loaded at
    the start are those of the guilds that have sign-ups. *)
Theorem guilds_with_standups db :
  NoDup (getAllGuildsWithStandups db)
  ∧ ∀ guildId, guildId ∈ getAllGuildsWithStandups db
               ↔ getStandupUsers guildId db ≠ [].
Proof.
  unfold getAllGuildsWithStandups, spread_set.
  destruct (spread_set_from [] (u_guildId <$> standupUsers db)) as [Hnd Hin];
    [constructor|].
  split; [done|]. intros g. rewrite Hin, elem_of_nil, list_elem_of_fmap.
  unfold getStandupUsers. split.
  - intros [[]|(d & -> & Hd)] Hnil.
    assert (d ∈ filter (by_guild (u_guildId d)) (standupUsers db)) as Hf
      by by apply list_elem_of_filter.
    rewrite Hnil in Hf. by apply elem_of_nil in Hf.
  - intros Hne. right.
    destruct (filter (by_guild g) (standupUsers db)) as [|d k] eqn:Hf; [done|].
    assert (d ∈ filter (by_guild g) (standupUsers db)) as [Hg Hd]%list_elem_of_filter
      by (rewrite Hf; by left).
    exists d. by split.
Qed.

(** ** Submitting a response *)

(** After [submitStandupResponse], [getStandupResponseForUser] finds the
    submitted text with the current time.  When the user had answered on
    that day before, it is the same document with the new text, and the
    table does not grow; otherwise a new document is added. *)
Theorem submit_then_get userId guildId date done doing blockers now db :
  ∃ r,
    getStandupResponseForUser userId guildId date
      (submitStandupResponse userId guildId date done doing blockers now db).2
    = Some r
    ∧ r_userId r = userId ∧ r_guildId r = guildId ∧ r_date r = date
    ∧ r_done r = done ∧ r_doing r = doing ∧ r_blockers r = blockers
    ∧ r_submittedAt r = now
    ∧ match getStandupResponseForUser userId guildId date db with
      | Some r0 =>
          r_id r = r_id r0
          ∧ length (standupResponses
                      (submitStandupResponse userId guildId date done doing
                         blockers now db).2)
            = length (standupResponses db)
      | None =>
          r_id r = next_id db
          ∧ length (standupResponses
                      (submitStandupResponse userId guildId date done doing
                         blockers now db).2)
            = S (length (standupResponses db))
      end.
Proof.
  unfold submitStandupResponse.
  destruct (getStandupResponseForUser userId guildId date db) as [r0|] eqn:Hget;
    simpl.
  - exists (patch_response (r_id r0) done doing blockers now r0).
    destruct (first_Some _ _ _ Hget) as [(Hg & Hu & Ht) _].
    unfold getStandupResponseForUser in *. simpl. split.
    + rewrite first_fmap, Hget; [done|].
      intros d. unfold patch_response, by_guild_user_date. by case_decide.
    + unfold patch_response. rewrite decide_True by done. simpl.
      by rewrite length_fmap.
  - eexists. unfold getStandupResponseForUser in *. simpl. split.
    + by apply first_app_new.
    + simpl. rewrite length_app. simpl. repeat split; lia.
Qed.

Lemma submit_found userId guildId date done doing blockers now db :
  ∃ r,
    getStandupResponseForUser userId guildId date
      (submitStandupResponse userId guildId date done doing blockers now db).2
    = Some r
    ∧ r_done r = done ∧ r_doing r = doing ∧ r_blockers r = blockers.
Proof.
  unfold submitStandupResponse.
  destruct (getStandupResponseForUser userId guildId date db) as [r0|] eqn:Hget;
    simpl.
  - exists (patch_response (r_id r0) done doing blockers now r0).
    unfold getStandupResponseForUser in *. simpl. split.
    + rewrite first_fmap, Hget; [done|].
      intros d. unfold patch_response, by_guild_user_date. by case_decide.
    + unfold patch_response. by rewrite decide_True.
  - eexists. unfold getStandupResponseForUser in *. simpl.
    split; [by apply first_app_new|done].
Qed.

Lemma reachable_mutate db m : reachable db → reachable (mutate db m).
Proof. intros [ms <-]. exists (ms ++ [m]). by rewrite foldl_app. Qed.

Lemma filter_key_single {A K} `{EqDecision K} (f : A → K) (l : list A) k x :
  NoDup (f <$> l) →
  head (filter (λ y, f y = k) l) = Some x →
  filter (λ y, f y = k) l = [x].
Proof.
  induction l as [|a l IH]; intros Hnd Hhead; [done|].
  rewrite fmap_cons in Hnd. apply NoDup_cons in Hnd as [Ha Hnd].
  rewrite filter_cons in *. case_decide as Hk; [|by apply IH].
  simpl in Hhead. injection Hhead as ->. f_equal.
  destruct (filter (λ y, f y = k) l) as [|b ?] eqn:Hf; [done|].
  assert (b ∈ filter (λ y, f y = k) l) as [Hb Hin]%list_elem_of_filter
    by (rewrite Hf; by left).
  destruct Ha. rewrite Hk, <-Hb. by apply list_elem_of_fmap_2.
Qed.

(** On tables that the mutations have made, after a submission the
    responses of the guild for that day hold one response of the user,
    the submitted one: what the evening summary finds for the user is the
    latest text. *)
Theorem one_response_in_summary userId guildId date done doing blockers now db :
  reachable db →
  ∃ r,
    filter (λ r, r_userId r = userId)
      (getStandupResponsesByDate guildId date
         (submitStandupResponse userId guildId date done doing blockers now db).2)
    = [r]
    ∧ r_done r = done ∧ r_doing r = doing ∧ r_blockers r = blockers.
Proof.
  intros Hdb.
  destruct (submit_found userId guildId date done doing blockers now db)
    as (r & Hget & Hr).
  exists r. split; [|done].
  pose proof (one_response_key _
    (reachable_mutate db
       (SubmitStandupResponse userId guildId date done doing blockers now) Hdb))
    as Hkeys. simpl in Hkeys.
  unfold getStandupResponsesByDate. rewrite list_filter_filter.
  rewrite (list_filter_iff _ (λ r, response_key r = (guildId, userId, date))).
  - apply filter_key_single; [done|].
    unfold getStandupResponseForUser, first in Hget. rewrite <-Hget. f_equal.
    apply list_filter_iff. intros x.
    unfold by_guild_user_date, response_key. split.
    + by intros [= -> -> ->].
    + by intros (-> & -> & ->).
  - intros x. unfold by_guild_and_date, response_key. split.
    + intros [Hu [Hg Hd]]. by rewrite Hu, Hg, Hd.
    + intros [= Hg Hu Hd]. done.
Qed.

Lemma one_response_in_summary_witness :
  ∃ r,
    filter (λ r, r_userId r = "ann")
      (getStandupResponsesByDate "guild" "2025-01-02"
         (submitStandupResponse "ann" "guild" "2025-01-02" "a" "b" "c" 170 team).2)
    = [r]
    ∧ r_done r = "a" ∧ r_doing r = "b" ∧ r_blockers r = "c".
Proof.
  exact (one_response_in_summary "ann" "guild" "2025-01-02" "a" "b" "c" 170 team
           team_reachable).
Defined.

End StandupFacts.

(** * Properties of the standup command *)

Module StandupCommandFacts.

Import Convex Standup.

(** ** The keys of the jobs *)

Lemma append_cons c (a t : string) :
  String.append (String c a) t = String c (String.append a t).
Proof. reflexivity. Qed.

Lemma length_append (a t : string) :
  String.length (String.append a t) = String.length a + String.length t.
Proof.
  induction a as [|c a IH]; [done|].
  rewrite append_cons. cbn [String.length]. by rewrite IH.
Qed.

Lemma append_inj_r (a b t t' : string) :
  String.length t = String.length t' →
  String.append a t = String.append b t' → a = b ∧ t = t'.
Proof.
  intros Hlen. revert b. induction a as [|c a IH]; intros [|c' b] H.
  - done.
  - exfalso. change (t = String c' (String.append b t')) in H. subst t.
    cbn [String.length] in Hlen. rewrite length_append in Hlen. lia.
  - exfalso. change (String c (String.append a t) = t') in H. subst t'.
    cbn [String.length] in Hlen. rewrite length_append in Hlen. lia.
  - rewrite !append_cons in H. injection H as -> H.
    destruct (IH _ H) as [-> ->]. done.
Qed.

Lemma morningJobKey_inj g g' : morningJobKey g = morningJobKey g' → g = g'.
Proof. intros H. by apply append_inj_r in H as [? _]. Qed.

Lemma eveningJobKey_inj g g' : eveningJobKey g = eveningJobKey g' → g = g'.
Proof. intros H. by apply append_inj_r in H as [? _]. Qed.

Lemma morning_not_evening g g' : morningJobKey g ≠ eveningJobKey g'.
Proof. intros H. by apply append_inj_r in H as [_ ?]. Qed.

Lemma evening_not_morning g g' : eveningJobKey g ≠ morningJobKey g'.
Proof. intros H. symmetry in H. by apply morning_not_evening in H. Qed.

Lemma key_of_morning j g :
  key_of j = morningJobKey g → onTick j = SendMorningReminders ∧ tickGuild j = g.
Proof.
  unfold key_of. destruct (onTick j); intros H.
  - by apply morningJobKey_inj in H.
  - symmetry in H. by apply morning_not_evening in H.
Qed.

Lemma key_of_evening j g :
  key_of j = eveningJobKey g → onTick j = SendEveningSummary ∧ tickGuild j = g.
Proof.
  unfold key_of. destruct (onTick j); intros H.
  - by apply morning_not_evening in H.
  - by apply eveningJobKey_inj in H.
Qed.

(** ** The jobs that are registered are the jobs that run *)

Lemma has_true key s : has key s = true ↔ is_Some (scheduledJobs s !! key).
Proof. unfold has. by rewrite bool_decide_eq_true. Qed.

Lemma jobs_ok_no_jobs : jobs_ok no_jobs.
Proof.
  split; simpl.
  - intros key i H. by rewrite lookup_empty in H.
  - intros i j H. by rewrite lookup_nil in H.
  - constructor.
Qed.

Lemma sched_ok_no_jobs : sched_ok no_jobs.
Proof.
  split; [apply jobs_ok_no_jobs|].
  intros g. simpl. rewrite !lookup_empty. split; intros [? ?]; done.
Qed.

Lemma remove_job_lookup key key' s :
  scheduledJobs (remove_job key s) !! key'
  = if decide (key' = key) then None else scheduledJobs s !! key'.
Proof.
  unfold remove_job. destruct (scheduledJobs s !! key) as [i|] eqn:Hk; simpl.
  - case_decide as Heq; [subst; apply lookup_delete_eq|by apply lookup_delete_ne].
  - case_decide as Heq; [by subst|done].
Qed.

Lemma remove_job_absent key s :
  scheduledJobs s !! key = None → remove_job key s = s.
Proof. unfold remove_job. by intros ->. Qed.

Lemma jobs_ok_remove_job key s : jobs_ok s → jobs_ok (remove_job key s).
Proof.
  intros [Hreg Hrun Htime]. unfold remove_job.
  destruct (scheduledJobs s !! key) as [i0|] eqn:Hk; [|done].
  destruct (Hreg _ _ Hk) as (j0 & Hj0 & Hr0 & Hk0).
  split; simpl.
  - intros key' i Hi. apply lookup_delete_Some in Hi as [Hne Hi].
    destruct (Hreg _ _ Hi) as (j & Hj & Hr & Hkj).
    exists j. split; [|done].
    rewrite list_lookup_alter_ne; [done|].
    intros <-. rewrite Hj0 in Hj. injection Hj as <-. congruence.
  - intros i j Hj Hr. destruct (decide (i = i0)) as [->|Hne].
    + rewrite list_lookup_alter_eq, Hj0 in Hj. simpl in Hj.
      injection Hj as <-. done.
    + rewrite list_lookup_alter_ne in Hj by done.
      rewrite lookup_delete_ne; [by apply Hrun|].
      intros Heq. specialize (Hrun _ _ Hj Hr). congruence.
  - apply Forall_alter; [done|]. by intros j _ Hj.
Qed.

(** The new jobs of [scheduleJobs]. *)
Lemma jobs_ok_add guildId s :
  jobs_ok s →
  scheduledJobs s !! morningJobKey guildId = None →
  scheduledJobs s !! eveningJobKey guildId = None →
  jobs_ok
    {| jobs := jobs s ++
         [start_job (new_CronJob "0 9 * * *" SendMorningReminders guildId);
          start_job (new_CronJob "0 21 * * *" SendEveningSummary guildId)];
       scheduledJobs :=
         <[eveningJobKey guildId := S (length (jobs s))]>
           (<[morningJobKey guildId := length (jobs s)]> (scheduledJobs s)) |}.
Proof.
  intros [Hreg Hrun Htime] Hm He.
  pose proof (morning_not_evening guildId guildId) as Hme.
  split; simpl.
  - intros key i Hi.
    apply lookup_insert_Some in Hi as [[<- <-]|[Hne1 Hi]].
    { eexists. split; [rewrite lookup_app_r by lia;
      replace (S (length (jobs s)) - length (jobs s)) with 1 by lia;
      reflexivity|done]. }
    apply lookup_insert_Some in Hi as [[<- <-]|[Hne2 Hi]].
    { eexists. split;
        [rewrite lookup_app_r by lia; rewrite Nat.sub_diag; reflexivity|done]. }
    destruct (Hreg _ _ Hi) as (j & Hj & Hr & Hkj).
    exists j. split; [|done]. by apply lookup_app_l_Some.
  - intros i j Hj Hr. apply lookup_app_Some in Hj as [Hj|[Hge Hj]].
    + specialize (Hrun _ _ Hj Hr).
      rewrite !lookup_insert_ne by congruence. done.
    + destruct (i - length (jobs s)) as [|[|k]] eqn:Hi; simpl in Hj;
        [| |done]; injection Hj as <-; unfold key_of; simpl.
      * rewrite lookup_insert_ne by done. rewrite lookup_insert_eq.
        f_equal. lia.
      * rewrite lookup_insert_eq. f_equal. lia.
  - apply Forall_app. split; [done|]. by repeat constructor.
Qed.

Lemma scheduleJobs_cases guildId s :
  (is_Some (scheduledJobs s !! morningJobKey guildId)
   ∧ is_Some (scheduledJobs s !! eveningJobKey guildId)
   ∧ scheduleJobs guildId s = s)
  ∨ (let s1 := remove_job (eveningJobKey guildId)
                 (remove_job (morningJobKey guildId) s) in
     ¬ (is_Some (scheduledJobs s !! morningJobKey guildId)
        ∧ is_Some (scheduledJobs s !! eveningJobKey guildId))
     ∧ scheduleJobs guildId s
       = {| jobs := jobs s1 ++
              [start_job (new_CronJob "0 9 * * *" SendMorningReminders guildId);
               start_job (new_CronJob "0 21 * * *" SendEveningSummary guildId)];
            scheduledJobs :=
              <[eveningJobKey guildId := S (length (jobs s1))]>
                (<[morningJobKey guildId := length (jobs s1)]>
                   (scheduledJobs s1)) |}).
Proof.
  unfold scheduleJobs.
  destruct (has (morningJobKey guildId) s) eqn:Hm;
    [destruct (has (eveningJobKey guildId) s) eqn:He|]; simpl.
  - left. by rewrite <- !has_true.
  - right. split; [|done]. rewrite <- !has_true. intros [_ ?]. congruence.
  - right. split; [|done]. rewrite <- !has_true. intros [? _]. congruence.
Qed.

Lemma removed_pair_absent guildId s :
  let s1 := remove_job (eveningJobKey guildId)
              (remove_job (morningJobKey guildId) s) in
  scheduledJobs s1 !! morningJobKey guildId = None
  ∧ scheduledJobs s1 !! eveningJobKey guildId = None.
Proof.
  simpl. rewrite !remove_job_lookup.
  pose proof (morning_not_evening guildId guildId).
  repeat case_decide; done.
Qed.

Lemma removed_pair_other guildId s key :
  key ≠ morningJobKey guildId → key ≠ eveningJobKey guildId →
  scheduledJobs (remove_job (eveningJobKey guildId)
                   (remove_job (morningJobKey guildId) s)) !! key
  = scheduledJobs s !! key.
Proof. intros. rewrite !remove_job_lookup. repeat case_decide; done. Qed.

Lemma other_guild_keys g g' :
  g' ≠ g →
  morningJobKey g' ≠ morningJobKey g ∧ morningJobKey g' ≠ eveningJobKey g
  ∧ eveningJobKey g' ≠ morningJobKey g ∧ eveningJobKey g' ≠ eveningJobKey g.
Proof.
  intros Hne. repeat split.
  - by intros ?%morningJobKey_inj.
  - apply morning_not_evening.
  - intros H. symmetry in H. by apply morning_not_evening in H.
  - by intros ?%eveningJobKey_inj.
Qed.

Lemma sched_ok_removed_pair guildId s :
  sched_ok s →
  sched_ok (remove_job (eveningJobKey guildId)
              (remove_job (morningJobKey guildId) s)).
Proof.
  intros [Hj Hp]. split; [by do 2 apply jobs_ok_remove_job|].
  intros g. destruct (decide (g = guildId)) as [->|Hne].
  - destruct (removed_pair_absent guildId s) as [-> ->]. done.
  - destruct (other_guild_keys guildId g Hne) as (? & ? & ? & ?).
    rewrite !removed_pair_other by done. apply Hp.
Qed.

Lemma sched_ok_scheduleJobs guildId s : sched_ok s → sched_ok (scheduleJobs guildId s).
Proof.
  intros Hs. destruct (scheduleJobs_cases guildId s) as [(_ & _ & ->)|[_ ->]];
    [done|].
  destruct (sched_ok_removed_pair guildId s Hs) as [Hj Hp].
  destruct (removed_pair_absent guildId s) as [Hm He].
  split; [by apply jobs_ok_add|]. simpl.
  intros g. destruct (decide (g = guildId)) as [->|Hne].
  - rewrite lookup_insert_ne by apply evening_not_morning.
    rewrite !lookup_insert_eq. done.
  - destruct (other_guild_keys guildId g Hne) as (? & ? & ? & ?).
    rewrite !lookup_insert_ne by done. apply Hp.
Qed.

Lemma sched_ok_leave_cleanup remainingUsers guildId s :
  sched_ok s → sched_ok (leave_cleanup remainingUsers guildId s).
Proof.
  intros Hs. unfold leave_cleanup. case_bool_decide; [|done].
  by apply sched_ok_removed_pair.
Qed.

Lemma sched_reachable_ok s : sched_reachable s → sched_ok s.
Proof.
  intros [ops <-]. induction ops as [|op ops IH] using rev_ind; simpl.
  - apply sched_ok_no_jobs.
  - rewrite foldl_snoc. destruct op; simpl.
    + by apply sched_ok_scheduleJobs.
    + by apply sched_ok_leave_cleanup.
Qed.

(** In a scheduler in which the jobs come in pairs, [scheduleJobs] has
    nothing to remove. *)
Lemma scheduleJobs_new guildId s :
  sched_ok s →
  scheduledJobs s !! morningJobKey guildId = None →
  scheduleJobs guildId s
  = {| jobs := jobs s ++
         [start_job (new_CronJob "0 9 * * *" SendMorningReminders guildId);
          start_job (new_CronJob "0 21 * * *" SendEveningSummary guildId)];
       scheduledJobs :=
         <[eveningJobKey guildId := S (length (jobs s))]>
           (<[morningJobKey guildId := length (jobs s)]> (scheduledJobs s)) |}.
Proof.
  intros [_ Hp] Hm.
  assert (scheduledJobs s !! eveningJobKey guildId = None) as He.
  { apply eq_None_not_Some. rewrite <- Hp, Hm. by intros [? ?]. }
  destruct (scheduleJobs_cases guildId s) as [([? Hx] & _)|[_ ->]]; [congruence|].
  by rewrite (remove_job_absent _ s Hm), (remove_job_absent _ s He).
Qed.

Lemma two_guilds_reachable : sched_reachable two_guilds.
Proof. by exists two_guilds_ops. Qed.

Lemma scheduleJobs_has guildId s :
  is_Some (scheduledJobs (scheduleJobs guildId s) !! morningJobKey guildId)
  ∧ is_Some (scheduledJobs (scheduleJobs guildId s) !! eveningJobKey guildId).
Proof.
  destruct (scheduleJobs_cases guildId s) as [(? & ? & ->)|[_ ->]]; [done|].
  simpl. rewrite lookup_insert_ne by apply evening_not_morning.
  rewrite !lookup_insert_eq. done.
Qed.

Lemma scheduleJobs_again guildId s :
  scheduleJobs guildId (scheduleJobs guildId s) = scheduleJobs guildId s.
Proof.
  destruct (scheduleJobs_has guildId s) as [Hm He].
  apply has_true in Hm, He.
  unfold scheduleJobs at 1. by rewrite Hm, He.
Qed.

Lemma registered_job s key i :
  jobs_ok s → scheduledJobs s !! key = Some i →
  ∃ j, jobs s !! i = Some j ∧ running j = true ∧ key_of j = key
       ∧ cronTime j = time_of (onTick j).
Proof.
  intros [Hreg _ Htime] Hi. destruct (Hreg _ _ Hi) as (j & Hj & Hr & Hk).
  exists j. repeat split; try done.
  rewrite Forall_forall in Htime. apply Htime. by eapply list_elem_of_lookup_2.
Qed.

(** ** Scheduling *)

(** After [scheduleJobs] the guild has its two jobs: the map has both
    keys, and they name a running job for the reminders at 9 and a running
    job for the summary at 21, both of this guild.  Calling it again
    changes nothing. *)
Theorem scheduleJobs_registers_both guildId s :
  sched_reachable s →
  ∃ m e,
    scheduledJobs (scheduleJobs guildId s) !! morningJobKey guildId = Some m
    ∧ scheduledJobs (scheduleJobs guildId s) !! eveningJobKey guildId = Some e
    ∧ jobs (scheduleJobs guildId s) !! m
      = Some {| cronTime := "0 9 * * *"; onTick := SendMorningReminders;
                tickGuild := guildId; running := true |}
    ∧ jobs (scheduleJobs guildId s) !! e
      = Some {| cronTime := "0 21 * * *"; onTick := SendEveningSummary;
                tickGuild := guildId; running := true |}
    ∧ scheduleJobs guildId (scheduleJobs guildId s) = scheduleJobs guildId s.
Proof.
  intros Hs%sched_reachable_ok.
  apply (sched_ok_scheduleJobs guildId) in Hs as [Hj _].
  destruct (scheduleJobs_has guildId s) as [[m Hm] [e He]].
  exists m, e. split; [done|]. split; [done|].
  destruct (registered_job _ _ _ Hj Hm) as (jm & -> & Hrm & Hkm & Htm).
  destruct (registered_job _ _ _ Hj He) as (je & -> & Hre & Hke & Hte).
  apply key_of_morning in Hkm as [Hom Hgm].
  apply key_of_evening in Hke as [Hoe Hge].
  rewrite Hom in Htm. rewrite Hoe in Hte.
  destruct jm, je; simpl in *; subst.
  split; [done|]. split; [done|]. apply scheduleJobs_again.
Qed.

Lemma scheduleJobs_registers_both_witness :
  ∃ m e,
    scheduledJobs (scheduleJobs "guild" two_guilds) !! morningJobKey "guild" = Some m
    ∧ scheduledJobs (scheduleJobs "guild" two_guilds) !! eveningJobKey "guild" = Some e
    ∧ jobs (scheduleJobs "guild" two_guilds) !! m
      = Some {| cronTime := "0 9 * * *"; onTick := SendMorningReminders;
                tickGuild := "guild"; running := true |}
    ∧ jobs (scheduleJobs "guild" two_guilds) !! e
      = Some {| cronTime := "0 21 * * *"; onTick := SendEveningSummary;
                tickGuild := "guild"; running := true |}
    ∧ scheduleJobs "guild" (scheduleJobs "guild" two_guilds)
      = scheduleJobs "guild" two_guilds.
Proof.
  apply (scheduleJobs_registers_both "guild" two_guilds).
  exists two_guilds_ops. reflexivity.
Defined.

(** Whatever is scheduled and cleaned up, a job that runs is the job that
    the map has under the key of its guild and callback, and it has the
    time of its callback: a guild never has two running jobs for its
    reminders, or two for its summary. *)
Theorem one_running_job_per_guild s i j :
  sched_reachable s →
  jobs s !! i = Some j →
  running j = true →
  scheduledJobs s !! key_of j = Some i
  ∧ cronTime j = time_of (onTick j)
  ∧ ∀ i' j', jobs s !! i' = Some j' → running j' = true →
             tickGuild j' = tickGuild j → onTick j' = onTick j → i' = i.
Proof.
  intros [[Hreg Hrun Htime] _]%sched_reachable_ok Hj Hr.
  split; [by apply Hrun|]. split.
  - rewrite Forall_forall in Htime. apply Htime. by eapply list_elem_of_lookup_2.
  - intros i' j' Hj' Hr' Hg Ho.
    pose proof (Hrun _ _ Hj Hr) as H1. pose proof (Hrun _ _ Hj' Hr') as H2.
    assert (key_of j' = key_of j) as Hk by (unfold key_of; by rewrite Hg, Ho).
    rewrite Hk in H2. congruence.
Qed.

Lemma one_running_job_per_guild_witness :
  scheduledJobs two_guilds
    !! key_of {| cronTime := "0 9 * * *"; onTick := SendMorningReminders;
                 tickGuild := "other"; running := true |} = Some 4
  ∧ "0 9 * * *" = time_of SendMorningReminders
  ∧ ∀ i' j', jobs two_guilds !! i' = Some j' → running j' = true →
             tickGuild j' = "other" → onTick j' = SendMorningReminders → i' = 4.
Proof.
  apply (one_running_job_per_guild two_guilds 4
           {| cronTime := "0 9 * * *"; onTick := SendMorningReminders;
              tickGuild := "other"; running := true |}).
  - exists two_guilds_ops. reflexivity.
  - reflexivity.
  - reflexivity.
Defined.

(** Whatever is scheduled and cleaned up, a guild has both of its keys in
    the map or none.  So [scheduleJobs] never finds an old job to stop: it
    leaves the scheduler as it is, or it only adds the two new jobs. *)
Theorem scheduleJobs_stops_nothing guildId s :
  sched_reachable s →
  (is_Some (scheduledJobs s !! morningJobKey guildId)
   ↔ is_Some (scheduledJobs s !! eveningJobKey guildId))
  ∧ (∀ key i, scheduledJobs s !! key = Some i →
       scheduledJobs (scheduleJobs guildId s) !! key = Some i)
  ∧ (∀ key, key ≠ morningJobKey guildId → key ≠ eveningJobKey guildId →
       scheduledJobs (scheduleJobs guildId s) !! key = scheduledJobs s !! key)
  ∧ (∀ i j, jobs s !! i = Some j → jobs (scheduleJobs guildId s) !! i = Some j).
Proof.
  intros Hs%sched_reachable_ok. split; [apply Hs|].
  destruct (scheduleJobs_cases guildId s) as [(_ & _ & ->)|[Hnot _]]; [done|].
  assert (scheduledJobs s !! morningJobKey guildId = None) as Hm.
  { apply eq_None_not_Some. intros Hm. apply Hnot. split; [done|].
    by apply Hs. }
  assert (scheduledJobs s !! eveningJobKey guildId = None) as He.
  { apply eq_None_not_Some. intros He. apply Hnot. split; [|done].
    by apply Hs. }
  rewrite (scheduleJobs_new _ _ Hs Hm). simpl. repeat split.
  - intros key i Hi. rewrite !lookup_insert_ne by congruence. done.
  - intros key ? ?. by rewrite !lookup_insert_ne.
  - intros i j Hj. by apply lookup_app_l_Some.
Qed.

Lemma scheduleJobs_stops_nothing_witness :
  (is_Some (scheduledJobs two_guilds !! morningJobKey "third")
   ↔ is_Some (scheduledJobs two_guilds !! eveningJobKey "third"))
  ∧ (∀ key i, scheduledJobs two_guilds !! key = Some i →
       scheduledJobs (scheduleJobs "third" two_guilds) !! key = Some i)
  ∧ (∀ key, key ≠ morningJobKey "third" → key ≠ eveningJobKey "third" →
       scheduledJobs (scheduleJobs "third" two_guilds) !! key
       = scheduledJobs two_guilds !! key)
  ∧ (∀ i j, jobs two_guilds !! i = Some j →
       jobs (scheduleJobs "third" two_guilds) !! i = Some j).
Proof.
  apply (scheduleJobs_stops_nothing "third" two_guilds).
  exists two_guilds_ops. reflexivity.
Defined.

(** ** Cleaning up *)

(** When the last user of a guild has left, the end of [handleLeave]
    removes both keys of the guild and leaves no job of the guild running;
    the keys and the jobs of the other guilds are as they were.  When
    users remain, nothing is changed. *)
Theorem cleanup_stops_guild_only remainingUsers guildId s :
  sched_reachable s →
  (remainingUsers ≠ [] → leave_cleanup remainingUsers guildId s = s)
  ∧ (remainingUsers = [] →
     let s' := leave_cleanup remainingUsers guildId s in
     scheduledJobs s' !! morningJobKey guildId = None
     ∧ scheduledJobs s' !! eveningJobKey guildId = None
     ∧ (∀ i j, jobs s' !! i = Some j → running j = true → tickGuild j ≠ guildId)
     ∧ (∀ i j, jobs s !! i = Some j → tickGuild j ≠ guildId →
          jobs s' !! i = Some j)
     ∧ (∀ g, g ≠ guildId →
          scheduledJobs s' !! morningJobKey g = scheduledJobs s !! morningJobKey g
          ∧ scheduledJobs s' !! eveningJobKey g
            = scheduledJobs s !! eveningJobKey g)).
Proof.
  intros Hs%sched_reachable_ok. split.
  { intros Hne. unfold leave_cleanup. rewrite bool_decide_false; [done|].
    by destruct remainingUsers. }
  intros ->. unfold leave_cleanup. simpl.
  destruct (removed_pair_absent guildId s) as [Hm He]. simpl in Hm, He.
  split; [done|]. split; [done|].
  pose proof (sched_ok_removed_pair guildId s Hs) as [[Hreg' Hrun' _] _].
  split; [|split].
  - intros i j Hj Hr Hg. specialize (Hrun' _ _ Hj Hr).
    unfold key_of in Hrun'. rewrite Hg in Hrun'.
    destruct (onTick j); congruence.
  - intros i j Hj Hg. destruct Hs as [[Hreg Hrun _] _].
    assert (∀ key s0 i0 j0, jobs s0 !! i0 = Some j0 →
              (∀ i1, scheduledJobs s0 !! key = Some i1 → i1 ≠ i0) →
              jobs (remove_job key s0) !! i0 = Some j0) as Hkeep.
    { intros key s0 i0 j0 Hj0 Hk. unfold remove_job.
      destruct (scheduledJobs s0 !! key) as [i1|] eqn:Hi1; [|done]. simpl.
      rewrite list_lookup_alter_ne; [done|]. by apply Hk. }
    apply Hkeep; [apply Hkeep; [done|]|].
    + intros i1 Hi1 ->. destruct (Hreg _ _ Hi1) as (j' & Hj' & _ & Hk').
      rewrite Hj in Hj'. injection Hj' as <-.
      by apply key_of_morning in Hk' as [_ ?].
    + intros i1 Hi1 ->. rewrite remove_job_lookup in Hi1.
      case_decide; [done|].
      destruct (Hreg _ _ Hi1) as (j' & Hj' & _ & Hk').
      rewrite Hj in Hj'. injection Hj' as <-.
      by apply key_of_evening in Hk' as [_ ?].
  - intros g Hne. destruct (other_guild_keys guildId g Hne) as (? & ? & ? & ?).
    by rewrite !removed_pair_other.
Qed.

Lemma cleanup_stops_guild_only_witness :
  (@nil StandupUser ≠ [] → leave_cleanup [] "guild" two_guilds = two_guilds)
  ∧ (@nil StandupUser = [] →
     let s' := leave_cleanup [] "guild" two_guilds in
     scheduledJobs s' !! morningJobKey "guild" = None
     ∧ scheduledJobs s' !! eveningJobKey "guild" = None
     ∧ (∀ i j, jobs s' !! i = Some j → running j = true → tickGuild j ≠ "guild")
     ∧ (∀ i j, jobs two_guilds !! i = Some j → tickGuild j ≠ "guild" →
          jobs s' !! i = Some j)
     ∧ (∀ g, g ≠ "guild" →
          scheduledJobs s' !! morningJobKey g
          = scheduledJobs two_guilds !! morningJobKey g
          ∧ scheduledJobs s' !! eveningJobKey g
            = scheduledJobs two_guilds !! eveningJobKey g)).
Proof.
  apply (cleanup_stops_guild_only [] "guild" two_guilds).
  exists two_guilds_ops. reflexivity.
Defined.

(** ** The jobs and the sign-ups *)

Lemma scheduleJobs_morning g0 g s :
  is_Some (scheduledJobs (scheduleJobs g0 s) !! morningJobKey g)
  ↔ g = g0 ∨ is_Some (scheduledJobs s !! morningJobKey g).
Proof.
  destruct (decide (g = g0)) as [->|Hne].
  - split; [by left|]. intros _. apply scheduleJobs_has.
  - destruct (scheduleJobs_cases g0 s) as [(_ & _ & ->)|[_ ->]].
    + split; [by right|]. by intros [?|?].
    + destruct (other_guild_keys g0 g Hne) as (? & ? & ? & ?). simpl.
      rewrite !lookup_insert_ne by done. rewrite removed_pair_other by done.
      split; [by right|]. by intros [?|?].
Qed.

Lemma onReady_ops guildIds s :
  onReady guildIds s = foldl job_op s (Schedule <$> guildIds).
Proof.
  revert s. induction guildIds as [|g l IH]; intros s; [done|]. apply IH.
Qed.

Lemma onReady_morning guildIds g s :
  is_Some (scheduledJobs (onReady guildIds s) !! morningJobKey g)
  ↔ g ∈ guildIds ∨ is_Some (scheduledJobs s !! morningJobKey g).
Proof.
  revert s. induction guildIds as [|g0 l IH]; intros s.
  - simpl. rewrite elem_of_nil. tauto.
  - change (onReady (g0 :: l) s) with (onReady l (scheduleJobs g0 s)).
    rewrite IH, scheduleJobs_morning, elem_of_cons. tauto.
Qed.

Lemma guild_listed db g :
  g ∈ getAllGuildsWithStandups db ↔ getStandupUsers g db ≠ [].
Proof.
  unfold getAllGuildsWithStandups, spread_set.
  destruct (StandupFacts.spread_set_from [] (u_guildId <$> standupUsers db))
    as [_ Hin]; [constructor|].
  rewrite Hin, elem_of_nil, list_elem_of_fmap.
  unfold getStandupUsers. split.
  - intros [[]|(d & -> & Hd)] Hnil.
    assert (d ∈ filter (by_guild (u_guildId d)) (standupUsers db)) as Hf
      by by apply list_elem_of_filter.
    rewrite Hnil in Hf. by apply elem_of_nil in Hf.
  - intros Hne. right.
    destruct (filter (by_guild g) (standupUsers db)) as [|d k] eqn:Hf; [done|].
    assert (d ∈ filter (by_guild g) (standupUsers db)) as [Hg Hd]%list_elem_of_filter
      by (rewrite Hf; by left).
    exists d. by split.
Qed.

Lemma users_not_nil g db :
  getStandupUsers g db ≠ [] ↔ ∃ d, d ∈ standupUsers db ∧ u_guildId d = g.
Proof.
  unfold getStandupUsers. split.
  - intros Hne.
    destruct (filter (by_guild g) (standupUsers db)) as [|d k] eqn:Hf; [done|].
    assert (d ∈ filter (by_guild g) (standupUsers db)) as [Hg Hd]%list_elem_of_filter
      by (rewrite Hf; by left).
    by exists d.
  - intros (d & Hd & Hg) Hnil.
    assert (d ∈ filter (by_guild g) (standupUsers db)) as Hf
      by by apply list_elem_of_filter.
    rewrite Hnil in Hf. by apply elem_of_nil in Hf.
Qed.

Lemma found_user u g db d :
  getStandupUser u g db = Some d →
  d ∈ standupUsers db ∧ u_guildId d = g ∧ u_userId d = u.
Proof.
  unfold getStandupUser. intros [[? ?] ?]%StandupFacts.first_Some. done.
Qed.

Lemma users_after_join u g c now db : getStandupUsers g (addStandupUser u g c now db).2 ≠ [].
Proof.
  apply users_not_nil. unfold addStandupUser.
  destruct (getStandupUser u g db) as [d|] eqn:Hget; simpl.
  - apply found_user in Hget as (Hd & Hg & _).
    exists (patch_channel (u_id d) c d). split.
    + apply list_elem_of_fmap. by exists d.
    + unfold patch_channel. by case_decide.
  - eexists. split; [apply elem_of_app; right; by left|done].
Qed.

Lemma users_after_join_other u g c now db g' :
  ids_ok db → g' ≠ g →
  getStandupUsers g' (addStandupUser u g c now db).2 = getStandupUsers g' db.
Proof.
  intros Hids Hne. unfold addStandupUser, getStandupUsers.
  destruct (getStandupUser u g db) as [d|] eqn:Hget; simpl.
  - apply found_user in Hget as (Hd & Hg & _).
    apply StandupFacts.filter_unchanged.
    + intros x _. unfold patch_channel, by_guild. by case_decide.
    + intros x Hx Hgx. unfold patch_channel. case_decide as Hid; [|done].
      exfalso. apply Hne.
      assert (x = d) as ->
        by (eapply StandupFacts.NoDup_fmap_eq; [apply Hids|done..]).
      unfold by_guild in Hgx. congruence.
  - rewrite filter_app, filter_cons_False, filter_nil, app_nil_r; [done|].
    unfold by_guild. simpl. congruence.
Qed.

Lemma filter_iff_in {A} (P Q : A → Prop) `{!∀ x, Decision (P x)}
    `{!∀ x, Decision (Q x)} (l : list A) :
  (∀ x, x ∈ l → P x ↔ Q x) → filter P l = filter Q l.
Proof.
  induction l as [|x l IH]; intros Hl; [done|].
  rewrite !filter_cons.
  rewrite IH by (intros y Hy; apply Hl; by right).
  destruct (decide (P x)) as [HP|HP], (decide (Q x)) as [HQ|HQ]; try done.
  - exfalso. apply HQ, Hl; [by left|done].
  - exfalso. apply HP, Hl; [by left|done].
Qed.

Lemma users_after_leave_other u g db g' :
  ids_ok db → g' ≠ g →
  getStandupUsers g' (removeStandupUser u g db).2 = getStandupUsers g' db.
Proof.
  intros Hids Hne. unfold removeStandupUser, getStandupUsers.
  destruct (getStandupUser u g db) as [d|] eqn:Hget; simpl; [|done].
  apply found_user in Hget as (Hd & Hg & _).
  rewrite list_filter_filter. apply filter_iff_in.
  intros x Hx. unfold by_guild. split; [tauto|].
  intros Hgx. split; [done|]. intros Hid. apply Hne.
  assert (x = d) as ->
    by (eapply StandupFacts.NoDup_fmap_eq; [apply Hids|done..]).
  congruence.
Qed.

Lemma users_after_answer u g a1 a2 a3 today now db :
  standupUsers (collectStandupResponses u g a1 a2 a3 today now db)
  = standupUsers db.
Proof.
  unfold collectStandupResponses, submitStandupResponse.
  by destruct (getStandupResponseForUser _ _ _ _).
Qed.

Lemma serve_reachable b c : reachable (tables b) → reachable (tables (serve b c)).
Proof.
  intros Hr. destruct c as [u g t perm ch now|u g|u g a1 a2 a3 today now]; simpl.
  - unfold handleJoin. case_bool_decide; [done|].
    destruct (negb _); [done|]. simpl.
    apply (StandupFacts.reachable_mutate _ (AddStandupUser u g ch now) Hr).
  - unfold handleLeave. destruct (getStandupUser u g (tables b)); [|done]. simpl.
    apply (StandupFacts.reachable_mutate _ (RemoveStandupUser u g) Hr).
  - apply (StandupFacts.reachable_mutate _
             (SubmitStandupResponse u g today _ _ _ now) Hr).
Qed.

Lemma sched_reachable_op s op : sched_reachable s → sched_reachable (job_op s op).
Proof. intros [ops <-]. exists (ops ++ [op]). by rewrite foldl_snoc. Qed.

Lemma serve_sched_reachable b c :
  sched_reachable (cron b) → sched_reachable (cron (serve b c)).
Proof.
  intros Hs. destruct c as [u g t perm ch now|u g|u g a1 a2 a3 today now]; simpl.
  - unfold handleJoin. case_bool_decide; [done|].
    destruct (negb _); [done|]. simpl.
    apply (sched_reachable_op _ (Schedule g) Hs).
  - unfold handleLeave. destruct (getStandupUser u g (tables b)); [|done]. simpl.
    unfold leave_cleanup. case_bool_decide; [|done].
    apply (sched_reachable_op _ (Cleanup g) Hs).
  - done.
Qed.

Lemma serve_follows b c :
  reachable (tables b) →
  (∀ g, getStandupUsers g (tables b) ≠ []
        ↔ is_Some (scheduledJobs (cron b) !! morningJobKey g)) →
  ∀ g, getStandupUsers g (tables (serve b c)) ≠ []
       ↔ is_Some (scheduledJobs (cron (serve b c)) !! morningJobKey g).
Proof.
  intros Hids%StandupFacts.reachable_ids_ok Hinv g'.
  destruct c as [u g t perm ch now|u g|u g a1 a2 a3 today now]; simpl.
  - unfold handleJoin. case_bool_decide; [apply Hinv|].
    destruct (negb _); [apply Hinv|]. simpl.
    rewrite scheduleJobs_morning. destruct (decide (g' = g)) as [->|Hne].
    + split; [by left|]. intros _. apply users_after_join.
    + rewrite users_after_join_other by done. rewrite Hinv.
      split; [by right|]. by intros [?|?].
  - unfold handleLeave.
    destruct (getStandupUser u g (tables b)) as [d|] eqn:Hget; [|apply Hinv].
    simpl. destruct (decide (g' = g)) as [->|Hne].
    + unfold leave_cleanup. case_bool_decide as Hlen.
      * destruct (removed_pair_absent g (cron b)) as [Hm _]. simpl in Hm.
        rewrite Hm. apply length_zero_iff_nil in Hlen. rewrite Hlen.
        split; [done|]. by intros [? ?].
      * split; [|intros _ Hnil; by rewrite Hnil in Hlen].
        intros _. apply Hinv. apply users_not_nil.
        apply found_user in Hget as (? & ? & _). by exists d.
    + rewrite users_after_leave_other by done. rewrite Hinv.
      destruct (other_guild_keys g g' Hne) as (? & ? & ? & ?).
      unfold leave_cleanup. case_bool_decide; [|done].
      by rewrite removed_pair_other.
  - unfold getStandupUsers. rewrite users_after_answer. apply Hinv.
Qed.

Lemma bot_invariant b :
  bot_reachable b →
  reachable (tables b) ∧ sched_reachable (cron b)
  ∧ ∀ g, getStandupUsers g (tables b) ≠ []
         ↔ is_Some (scheduledJobs (cron b) !! morningJobKey g).
Proof.
  intros (db & cs & Hdb & <-).
  induction cs as [|c cs IH] using rev_ind.
  - simpl. split; [done|]. split.
    + rewrite onReady_ops. by eexists.
    + intros g. rewrite onReady_morning, guild_listed. simpl.
      rewrite lookup_empty. split; [by left|]. intros [?|[? ?]]; done.
  - rewrite foldl_snoc. destruct IH as (Hr & Hs & Hinv).
    split; [by apply serve_reachable|].
    split; [by apply serve_sched_reachable|]. by apply serve_follows.
Qed.

Lemma after_week_reachable : bot_reachable after_week.
Proof. exists team, week. split; [apply StandupFacts.team_reachable|done]. Qed.

(** A bot that has loaded its jobs with [onReady] and serves its commands
    one after the other has, at every moment, running jobs for exactly the
    guilds that have sign-ups: a guild with a signed-up user has its job
    for the reminders and its job for the summary, and a guild that the
    last user has left has none. *)
Theorem jobs_follow_signups b guildId :
  bot_reachable b →
  sched_reachable (cron b)
  ∧ (getStandupUsers guildId (tables b) ≠ []
     ↔ ∃ i, jobs (cron b) !! i
            = Some {| cronTime := "0 9 * * *"; onTick := SendMorningReminders;
                      tickGuild := guildId; running := true |})
  ∧ (getStandupUsers guildId (tables b) ≠ []
     ↔ ∃ i, jobs (cron b) !! i
            = Some {| cronTime := "0 21 * * *"; onTick := SendEveningSummary;
                      tickGuild := guildId; running := true |}).
Proof.
  intros (_ & Hs & Hinv)%bot_invariant. split; [done|].
  pose proof (sched_reachable_ok _ Hs) as [Hj Hp].
  rewrite Hinv. split.
  - split.
    + intros [i Hi].
      destruct (registered_job _ _ _ Hj Hi) as (j & Hji & Hr & Hk & Ht).
      apply key_of_morning in Hk as [Ho Hg]. rewrite Ho in Ht.
      exists i. rewrite Hji. destruct j; simpl in *; by subst.
    + intros [i Hi]. exists i. by apply (running_registered _ Hj) in Hi.
  - rewrite Hp. split.
    + intros [i Hi].
      destruct (registered_job _ _ _ Hj Hi) as (j & Hji & Hr & Hk & Ht).
      apply key_of_evening in Hk as [Ho Hg]. rewrite Ho in Ht.
      exists i. rewrite Hji. destruct j; simpl in *; by subst.
    + intros [i Hi]. exists i. by apply (running_registered _ Hj) in Hi.
Qed.

Lemma jobs_follow_signups_witness :
  sched_reachable (cron after_week)
  ∧ (getStandupUsers "guild" (tables after_week) ≠ []
     ↔ ∃ i, jobs (cron after_week) !! i
            = Some {| cronTime := "0 9 * * *"; onTick := SendMorningReminders;
                      tickGuild := "guild"; running := true |})
  ∧ (getStandupUsers "guild" (tables after_week) ≠ []
     ↔ ∃ i, jobs (cron after_week) !! i
            = Some {| cronTime := "0 21 * * *"; onTick := SendEveningSummary;
                      tickGuild := "guild"; running := true |}).
Proof.
  apply (jobs_follow_signups after_week "guild").
  exists team, week. split; [by exists team_calls|reflexivity].
Defined.

(** ** The evening summary *)

Lemma spread_set_snoc (l : list string) x :
  spread_set (l ++ [x])
  = if decide (x ∈ spread_set l) then spread_set l else spread_set l ++ [x].
Proof. unfold spread_set. by rewrite foldl_snoc. Qed.

Lemma spread_set_spec (l : list string) :
  NoDup (spread_set l) ∧ ∀ x, x ∈ spread_set l ↔ x ∈ l.
Proof.
  destruct (StandupFacts.spread_set_from [] l) as [Hnd Hin]; [constructor|].
  split; [done|]. intros x. unfold spread_set. rewrite Hin, elem_of_nil. tauto.
Qed.

Lemma no_user_of_channel c (users : list StandupUser) :
  c ∉ u_channelId <$> users → filter (λ u, u_channelId u = c) users = [].
Proof.
  intros Hc. induction users as [|u l IH]; [done|].
  rewrite filter_cons. case_decide as Hu.
  - exfalso. apply Hc. rewrite <- Hu. by left.
  - apply IH. intros Hin. apply Hc. by right.
Qed.

(** [group] sorts the users by their channel: the channels are those of
    the users, each once and in the order of their first user, and a
    channel has the responses found for its users, in the order of the
    users. *)
Lemma group_closed_form users responses :
  group users responses
  = (λ c, (c, omap (λ u, (λ r, (u_userId u, r))
                           <$> find_response (u_userId u) responses)
                   (filter (λ u, u_channelId u = c) users)))
    <$> spread_set (u_channelId <$> users).
Proof.
  induction users as [|u users IH] using rev_ind; [done|].
  unfold group in *. rewrite foldl_snoc, IH. clear IH.
  rewrite fmap_app. change (u_channelId <$> [u]) with [u_channelId u].
  rewrite spread_set_snoc.
  destruct (spread_set_spec (u_channelId <$> users)) as [Hnd Hin].
  set (chans := spread_set (u_channelId <$> users)) in *.
  set (f := λ u : StandupUser,
         (λ r, (u_userId u, r)) <$> find_response (u_userId u) responses).
  unfold group_user.
  assert (∀ c, omap f (filter (λ u, u_channelId u = c) (users ++ [u]))
               = omap f (filter (λ u, u_channelId u = c) users)
                 ++ (if decide (u_channelId u = c)
                     then match find_response (u_userId u) responses with
                          | Some r => [(u_userId u, r)]
                          | None => []
                          end
                     else [])) as Hsnoc.
  { intros c. rewrite filter_app, omap_app. f_equal.
    rewrite filter_cons, filter_nil. case_decide; [|done].
    unfold f. simpl. by destruct (find_response _ _). }
  assert (((λ c, (c, omap f (filter (λ u, u_channelId u = c) users)))
             <$> chans).*1 = chans) as Hkeys.
  { rewrite <- list_fmap_compose. apply list_fmap_id. }
  unfold map_has. rewrite Hkeys.
  destruct (decide (u_channelId u ∈ chans)) as [Hc|Hc].
  - rewrite bool_decide_true by done.
    destruct (find_response (u_userId u) responses) as [r|] eqn:Hfind.
    + unfold map_push. rewrite <- list_fmap_compose.
      apply Forall_fmap_ext_1, Forall_forall. intros c _. simpl.
      rewrite Hsnoc. case_decide as Hcu.
      * subst c. by rewrite decide_True.
      * rewrite decide_False by done. by rewrite app_nil_r.
    + apply Forall_fmap_ext_1, Forall_forall. intros c _.
      rewrite Hsnoc. case_decide; by rewrite app_nil_r.
  - rewrite bool_decide_false by done. rewrite (fmap_app _ chans).
    assert (filter (λ u0, u_channelId u0 = u_channelId u) users = []) as Hnone.
    { apply no_user_of_channel. by rewrite <- Hin. }
    assert (Forall (λ c, (c, omap f (filter (λ u, u_channelId u = c) users))
                         = (c, omap f (filter (λ u0, u_channelId u0 = c)
                                         (users ++ [u])))) chans) as Hold.
    { apply Forall_forall. intros c Hcin. rewrite Hsnoc.
      rewrite decide_False; [by rewrite app_nil_r|]. by intros <-. }
    destruct (find_response (u_userId u) responses) as [r|] eqn:Hfind.
    + unfold map_push. rewrite fmap_app. simpl.
      rewrite decide_True by done. f_equal.
      * rewrite <- list_fmap_compose.
        apply Forall_fmap_ext_1, Forall_forall. intros c Hcin. simpl.
        rewrite decide_False by (by intros ->).
        rewrite Forall_forall in Hold. by apply Hold.
      * rewrite Hsnoc, Hnone, decide_True by done. done.
    + f_equal; [by apply Forall_fmap_ext_1|]. cbn [fmap list_fmap].
      rewrite Hsnoc, Hnone, decide_True by done. done.
Qed.

Lemma summary_is_group responses users :
  responses ≠ [] → sendEveningSummary responses users = group users responses.
Proof.
  intros Hne. unfold sendEveningSummary.
  rewrite bool_decide_false by (by destruct responses).
  case_bool_decide as Hlen; [|done].
  apply length_zero_iff_nil in Hlen. by subst.
Qed.

(** When there are responses, [sendEveningSummary] sends one summary to
    every channel that a user of the list has chosen, also when none of the
    users of that channel has answered.  A summary holds, for every user
    of its channel for whom a response is found, the user with that
    response, and nothing else. *)
Theorem each_channel_gets_one_summary responses users :
  responses ≠ [] →
  NoDup (sendEveningSummary responses users).*1
  ∧ (∀ c, c ∈ (sendEveningSummary responses users).*1
          ↔ ∃ u, u ∈ users ∧ u_channelId u = c)
  ∧ (∀ c es, (c, es) ∈ sendEveningSummary responses users →
       ∀ e, e ∈ es ↔ ∃ u r, u ∈ users ∧ u_channelId u = c
                            ∧ find_response (u_userId u) responses = Some r
                            ∧ e = (u_userId u, r)).
Proof.
  intros Hne. rewrite summary_is_group by done. rewrite group_closed_form.
  destruct (spread_set_spec (u_channelId <$> users)) as [Hnd Hin].
  rewrite <- list_fmap_compose.
  rewrite (list_fmap_id (spread_set (u_channelId <$> users))).
  split; [done|]. split.
  - intros c. rewrite Hin, list_elem_of_fmap. split.
    + intros (u & -> & Hu). by exists u.
    + intros (u & Hu & <-). by exists u.
  - intros c es (c' & Heq & _)%list_elem_of_fmap. injection Heq as <- ->.
    intros e. rewrite list_elem_of_omap. split.
    + intros (u & [Hc Hu]%list_elem_of_filter & He).
      destruct (find_response (u_userId u) responses) as [r|] eqn:Hr; [|done].
      injection He as <-. by exists u, r.
    + intros (u & r & Hu & Hc & Hr & ->). exists u.
      split; [by apply list_elem_of_filter|]. by rewrite Hr.
Qed.

Lemma each_channel_gets_one_summary_witness :
  NoDup (sendEveningSummary (getStandupResponsesByDate "guild" "2025-01-02" team)
           (getStandupUsers "guild" team)).*1
  ∧ (∀ c, c ∈ (sendEveningSummary
                 (getStandupResponsesByDate "guild" "2025-01-02" team)
                 (getStandupUsers "guild" team)).*1
          ↔ ∃ u, u ∈ getStandupUsers "guild" team ∧ u_channelId u = c)
  ∧ (∀ c es, (c, es) ∈ sendEveningSummary
                         (getStandupResponsesByDate "guild" "2025-01-02" team)
                         (getStandupUsers "guild" team) →
       ∀ e, e ∈ es ↔ ∃ u r, u ∈ getStandupUsers "guild" team ∧ u_channelId u = c
                            ∧ find_response (u_userId u)
                                (getStandupResponsesByDate "guild" "2025-01-02" team)
                              = Some r
                            ∧ e = (u_userId u, r)).
Proof.
  apply (each_channel_gets_one_summary
           (getStandupResponsesByDate "guild" "2025-01-02" team)
           (getStandupUsers "guild" team)).
  vm_compute. discriminate.
Defined.

Lemma filter_omap_key (f : StandupUser → option StandupResponse) userId
    (l : list StandupUser) :
  filter (λ e : string * StandupResponse, e.1 = userId)
    (omap (λ u, (λ r, (u_userId u, r)) <$> f u) l)
  = omap (λ u, (λ r, (u_userId u, r)) <$> f u)
      (filter (λ u, u_userId u = userId) l).
Proof.
  induction l as [|u l IH]; [done|].
  rewrite (filter_cons (λ u, u_userId u = userId)).
  destruct (decide (u_userId u = userId)) as [Hu|Hu];
    cbn [omap list_omap]; destruct (f u) as [r|]; cbn [fmap option_fmap option_map];
    rewrite ?filter_cons; cbn [fst]; rewrite ?decide_True, ?decide_False by done;
    by rewrite IH.
Qed.

Lemma filter_mjoin {A} (P : A → Prop) `{!∀ x, Decision (P x)} (ls : list (list A)) :
  filter P (mjoin ls) = mjoin (filter P <$> ls).
Proof.
  induction ls as [|l ls IH]; [done|]. simpl. by rewrite filter_app, IH.
Qed.

Lemma mjoin_all_nil {A B} (l : list A) : mjoin ((λ _, @nil B) <$> l) = [].
Proof. induction l as [|x l IH]; [done|]. simpl. done. Qed.

Lemma mjoin_only_one {B} (c0 : string) (X : list B) (l : list string) :
  NoDup l → c0 ∈ l →
  mjoin ((λ c, if decide (c0 = c) then X else []) <$> l) = X.
Proof.
  induction 1 as [|c l Hc Hnd IH]; intros Hin; [by apply elem_of_nil in Hin|].
  simpl. apply elem_of_cons in Hin as [->|Hin].
  - rewrite decide_True by done.
    rewrite (Forall_fmap_ext_1 _ (λ _, [])).
    + by rewrite mjoin_all_nil, app_nil_r.
    + apply Forall_forall. intros c' Hc'. rewrite decide_False; [done|].
      by intros <-.
  - rewrite decide_False by (by intros <-). by apply IH.
Qed.

Lemma find_in_day userId guildId date db :
  find_response userId (getStandupResponsesByDate guildId date db)
  = getStandupResponseForUser userId guildId date db.
Proof.
  unfold find_response, getStandupResponsesByDate, getStandupResponseForUser, first.
  rewrite list_filter_filter. f_equal. apply list_filter_iff.
  intros r. unfold by_guild_and_date, by_guild_user_date. tauto.
Qed.

Lemma users_of_guild_named userId guildId db :
  reachable db →
  filter (λ u, u_userId u = userId) (getStandupUsers guildId db)
  = option_list (getStandupUser userId guildId db).
Proof.
  intros Hkeys%StandupFacts.one_user_key.
  unfold getStandupUsers. rewrite list_filter_filter.
  rewrite (list_filter_iff _ (λ d, user_key d = (guildId, userId)));
    [|intros d; unfold by_guild, user_key; split;
        [by intros [-> ->]|by intros [= -> ->]]].
  assert (getStandupUser userId guildId db
          = head (filter (λ d, user_key d = (guildId, userId)) (standupUsers db)))
    as ->.
  { unfold getStandupUser, first. f_equal. apply list_filter_iff.
    intros d. unfold by_guild_and_user, user_key. split;
      [by intros [-> ->]|by intros [= -> ->]]. }
  destruct (head _) as [d|] eqn:Hhead.
  - by apply StandupFacts.filter_key_single.
  - by apply head_None in Hhead.
Qed.

(** On tables that the mutations have made, with both queries answered
    from the same tables: the summaries of a guild for a day hold a
    response of a user exactly when the user is signed up in the guild and
    has answered on that day; then they hold it once, it is the response
    that [getStandupResponseForUser] finds, and it is in the summary for
    the channel that the user has chosen.  The response of a user who has
    left is in no summary. *)
Theorem summary_has_each_answer_once db guildId date userId :
  reachable db →
  let summary := sendEveningSummary (getStandupResponsesByDate guildId date db)
                   (getStandupUsers guildId db) in
  filter (λ e, e.1 = userId) (mjoin summary.*2)
  = match getStandupUser userId guildId db,
          getStandupResponseForUser userId guildId date db with
    | Some _, Some r => [(userId, r)]
    | _, _ => []
    end
  ∧ ∀ d r, getStandupUser userId guildId db = Some d →
           getStandupResponseForUser userId guildId date db = Some r →
           ∃ es, (u_channelId d, es) ∈ summary ∧ (userId, r) ∈ es.
Proof.
  intros Hdb summary. subst summary.
  destruct (getStandupResponsesByDate guildId date db) as [|r0 rs] eqn:Hday.
  { assert (getStandupResponseForUser userId guildId date db = None) as ->.
    { rewrite <- find_in_day, Hday. done. }
    split; [by destruct (getStandupUser _ _ _)|]. done. }
  rewrite summary_is_group by done. rewrite <- Hday. clear r0 rs Hday.
  rewrite group_closed_form.
  destruct (spread_set_spec (u_channelId <$> getStandupUsers guildId db))
    as [Hnd Hin].
  set (chans := spread_set (u_channelId <$> getStandupUsers guildId db)) in *.
  set (responses := getStandupResponsesByDate guildId date db).
  pose proof (users_of_guild_named userId guildId db Hdb) as Hnamed.
  split.
  - rewrite <- list_fmap_compose, filter_mjoin, <- list_fmap_compose.
    rewrite (Forall_fmap_ext_1 _
               (λ c, omap (λ u, (λ r, (u_userId u, r))
                                  <$> find_response (u_userId u) responses)
                       (filter (λ u, u_channelId u = c)
                          (option_list (getStandupUser userId guildId db))))).
    2:{ apply Forall_forall. intros c _. simpl.
        rewrite (filter_omap_key (λ u, find_response (u_userId u) responses)).
        f_equal. rewrite <- Hnamed, !list_filter_filter.
        apply list_filter_iff. intros u. tauto. }
    destruct (getStandupUser userId guildId db) as [d|] eqn:Hget; simpl.
    + apply found_user in Hget as (Hd & Hg & Hu).
      rewrite (Forall_fmap_ext_1 _
                 (λ c, if decide (u_channelId d = c)
                       then omap (λ u, (λ r, (u_userId u, r))
                                         <$> find_response (u_userId u) responses)
                              [d]
                       else [])).
      2:{ apply Forall_forall. intros c _. simpl.
          rewrite filter_cons, filter_nil. by case_decide. }
      rewrite mjoin_only_one; [|done|].
      * simpl. rewrite Hu. unfold responses. rewrite find_in_day.
        by destruct (getStandupResponseForUser _ _ _ _).
      * apply Hin, list_elem_of_fmap. exists d. split; [done|].
        unfold getStandupUsers. by apply list_elem_of_filter.
    + apply mjoin_all_nil.
  - intros d r Hget Hr. apply found_user in Hget as (Hd & Hg & Hu).
    assert (d ∈ getStandupUsers guildId db) as Hdu
      by (unfold getStandupUsers; by apply list_elem_of_filter).
    eexists. split.
    + apply list_elem_of_fmap. exists (u_channelId d). split; [reflexivity|].
      apply Hin, list_elem_of_fmap. by exists d.
    + apply list_elem_of_omap. exists d.
      split; [by apply list_elem_of_filter|].
      rewrite Hu. unfold responses. by rewrite find_in_day, Hr.
Qed.

Lemma summary_has_each_answer_once_witness :
  let summary := sendEveningSummary (getStandupResponsesByDate "guild" "2025-01-02" team)
                   (getStandupUsers "guild" team) in
  filter (λ e, e.1 = "ann") (mjoin summary.*2)
  = match getStandupUser "ann" "guild" team,
          getStandupResponseForUser "ann" "guild" "2025-01-02" team with
    | Some _, Some r => [("ann", r)]
    | _, _ => []
    end
  ∧ ∀ d r, getStandupUser "ann" "guild" team = Some d →
           getStandupResponseForUser "ann" "guild" "2025-01-02" team = Some r →
           ∃ es, (u_channelId d, es) ∈ summary ∧ ("ann", r) ∈ es.
Proof.
  apply (summary_has_each_answer_once team "guild" "2025-01-02" "ann").
  by exists team_calls.
Defined.

(** ** The answers to the prompt *)

Lemma or_no_response_not_empty s : or_no_response s ≠ "".
Proof. unfold or_no_response. by case_bool_decide. Qed.

(** Whatever the user does after the click, [collectStandupResponses]
    stores a response for the day, and none of its three fields is empty:
    a field is the text that was sent, ['No response'] for an empty text
    or when nothing was collected, and ['No response (timed out)'] after a
    timeout.  It takes the place of what the user had answered before on
    that day: a prompt that is clicked again and not answered overwrites
    the earlier answers. *)
Theorem prompt_always_stores_response userId guildId a1 a2 a3 today now db :
  ∃ r,
    getStandupResponseForUser userId guildId today
      (collectStandupResponses userId guildId a1 a2 a3 today now db) = Some r
    ∧ r_done r = or_no_response (pushed a1)
    ∧ r_doing r = or_no_response (pushed a2)
    ∧ r_blockers r = or_no_response (pushed a3)
    ∧ r_done r ≠ "" ∧ r_doing r ≠ "" ∧ r_blockers r ≠ ""
    ∧ length (standupResponses
                (collectStandupResponses userId guildId a1 a2 a3 today now db))
      = match getStandupResponseForUser userId guildId today db with
        | Some _ => length (standupResponses db)
        | None => S (length (standupResponses db))
        end.
Proof.
  unfold collectStandupResponses. simpl.
  destruct (StandupFacts.submit_found userId guildId today
              (or_no_response (pushed a1)) (or_no_response (pushed a2))
              (or_no_response (pushed a3)) now db) as (r & Hget & H1 & H2 & H3).
  exists r. split; [done|]. rewrite H1, H2, H3.
  repeat (split; [done || apply or_no_response_not_empty|]).
  unfold submitStandupResponse.
  destruct (getStandupResponseForUser userId guildId today db); simpl.
  - by rewrite length_fmap.
  - rewrite length_app. simpl. lia.
Qed.

End StandupCommandFacts.
